(** * PulseDB: versioned store, TTL wheel, RESP codec and command dispatcher

    A shallow embedding of [internal/store], [internal/proto] and
    [internal/server], with the properties of the storage engine's
    specification stated over it.

    Conventions of the embedding:
    - Go's [int64] and [int] (64-bit) are [Z] with the wrap-around of each
      arithmetic operation written out ([wrap64]);
    - Go strings are byte strings: [string] (a list of [ascii] bytes);
    - [time.Now().UnixMilli()] is an explicit argument [now] of every
      operation that reads the clock;
    - mutexes are left out: every operation is modelled as the atomic step it
      is under its locks. *)

From Stdlib Require Import ZArith Ascii String List Lia Bool Sorting.Permutation.
From stdpp Require Import base gmap strings list fin_maps sorting.

#[local] Set Warnings "-register-all".
Local Open Scope Z_scope.

(** ** 64-bit integers *)

Module int64.

Definition min : Z := - 2 ^ 63.
Definition max : Z := 2 ^ 63 - 1.

Definition in_range (z : Z) : Prop := min <= z <= max.

Definition in_rangeb (z : Z) : bool := (min <=? z) && (z <=? max).

(** Two's-complement reduction of a mathematical integer to [int64]. *)
Definition wrap64 (z : Z) : Z := (z + 2 ^ 63) mod 2 ^ 64 - 2 ^ 63.

Definition add (a b : Z) : Z := wrap64 (a + b).
Definition sub (a b : Z) : Z := wrap64 (a - b).
Definition mul (a b : Z) : Z := wrap64 (a * b).

(** Go's [/] on integers truncates toward zero. *)
Definition div (a b : Z) : Z := wrap64 (Z.quot a b).

End int64.

(** ** crypto/sha256 (used only to pick a shard) *)

Module sha256.

Definition w32 (z : Z) : Z := z mod 2 ^ 32.

Definition rotr (n x : Z) : Z :=
  Z.lor (Z.shiftr x n) (w32 (Z.shiftl x (32 - n))).

Definition Ch (x y z : Z) : Z :=
  Z.lxor (Z.land x y) (Z.land (Z.lxor x 0xffffffff) z).

Definition Maj (x y z : Z) : Z :=
  Z.lxor (Z.lxor (Z.land x y) (Z.land x z)) (Z.land y z).

Definition bsig0 (x : Z) : Z := Z.lxor (Z.lxor (rotr 2 x) (rotr 13 x)) (rotr 22 x).
Definition bsig1 (x : Z) : Z := Z.lxor (Z.lxor (rotr 6 x) (rotr 11 x)) (rotr 25 x).
Definition ssig0 (x : Z) : Z := Z.lxor (Z.lxor (rotr 7 x) (rotr 18 x)) (Z.shiftr x 3).
Definition ssig1 (x : Z) : Z := Z.lxor (Z.lxor (rotr 17 x) (rotr 19 x)) (Z.shiftr x 10).

(** The round constants and the initial hash value are the first 32 bits of
    the fractional parts of the cube roots of the first 64 primes, and of the
    square roots of the first 8. *)
Definition is_prime (n : nat) : bool :=
  forallb (fun d => negb (n mod d =? 0)%nat) (seq 2 (n - 2)).

Definition primes : list Z :=
  map Z.of_nat (filter (fun n => Is_true (is_prime n)) (seq 2 310)).

(** The largest [r] below [2 ^ bits] above the start value with [r ^ 3 <= n]. *)
Fixpoint cube_root (bits : nat) (n r : Z) : Z :=
  match bits with
  | O => r
  | S b =>
      let r' := r + 2 ^ Z.of_nat b in
      if r' * r' * r' <=? n then cube_root b n r' else cube_root b n r
  end.

Definition K : list Z :=
  Eval vm_compute in map (fun p => w32 (cube_root 36 (p * 2 ^ 96) 0)) primes.

Definition H0 : list Z :=
  Eval vm_compute in map (fun p => w32 (Z.sqrt (p * 2 ^ 64))) (firstn 8 primes).

Definition bytes_of (s : string) : list Z :=
  map (fun c => Z.of_N (N_of_ascii c)) (list_ascii_of_string s).

(** Big-endian encoding of [z] on [n] bytes. *)
Fixpoint be_bytes (n : nat) (z : Z) : list Z :=
  match n with
  | O => []
  | S n' => Z.shiftr z (8 * Z.of_nat n') mod 256 :: be_bytes n' z
  end.

(** The message followed by 0x80, zeros up to 56 mod 64, and its bit length. *)
Definition pad (msg : list Z) : list Z :=
  let len := Z.of_nat (length msg) in
  let zeros := Z.to_nat ((55 - len) mod 64) in
  msg ++ [0x80] ++ repeat 0 zeros ++ be_bytes 8 (8 * len).

Fixpoint words (n : nat) (bs : list Z) : list Z :=
  match n, bs with
  | S n', a :: b :: c :: d :: rest =>
      (((a * 256 + b) * 256 + c) * 256 + d) :: words n' rest
  | _, _ => []
  end.

(** The message schedule, most recent word first. *)
Fixpoint schedule (n : nat) (w : list Z) : list Z :=
  match n with
  | O => w
  | S n' =>
      let x :=
        w32 (ssig1 (nth 1 w 0) + nth 6 w 0 + ssig0 (nth 14 w 0) + nth 15 w 0) in
      schedule n' (x :: w)
  end.

Definition round (st : list Z) (kw : Z * Z) : list Z :=
  match st with
  | [a; b; c; d; e; f; g; h] =>
      let t1 := h + bsig1 e + Ch e f g + fst kw + snd kw in
      let t2 := bsig0 a + Maj a b c in
      [w32 (t1 + t2); a; b; c; w32 (d + t1); e; f; g]
  | _ => st
  end.

Definition compress (h : list Z) (block : list Z) : list Z :=
  let w := rev (schedule 48 (rev (words 16 block))) in
  let st := fold_left round (combine K w) h in
  map (fun p => w32 (fst p + snd p)) (combine h st).

Fixpoint blocks (n : nat) (h : list Z) (bs : list Z) : list Z :=
  match n with
  | O => h
  | S n' =>
      match bs with
      | [] => h
      | _ => blocks n' (compress h (firstn 64 bs)) (skipn 64 bs)
      end
  end.

(** [sha256.Sum256]: the digest as eight 32-bit words. *)
Definition Sum256 (data : string) : list Z :=
  let bs := pad (bytes_of data) in
  blocks (length bs) H0 bs.

(** [binary.BigEndian.Uint64(h[:8])]. *)
Definition Uint64_prefix (h : list Z) : Z := nth 0 h 0 * 2 ^ 32 + nth 1 h 0.

End sha256.

(** ** strconv and fmt: decimal integers *)

Module strconv.

Definition is_digit (c : ascii) : bool :=
  let n := N_of_ascii c in ((48 <=? n) && (n <=? 57))%N.

Definition digit_val (c : ascii) : Z := Z.of_N (N_of_ascii c) - 48.

(** The digit loop of [ParseUint] in base 10: any byte outside ['0'..'9'] is
    a syntax error. The accumulator is unbounded here; the range is checked
    by the caller. *)
Fixpoint parse_digits (s : string) (acc : Z) : option Z :=
  match s with
  | EmptyString => Some acc
  | String c rest =>
      if is_digit c then parse_digits rest (acc * 10 + digit_val c) else None
  end.

(** [strconv.ParseInt(s, 10, 64)]: an optional sign, at least one digit, and
    a value in the [int64] range; [None] stands for a non-nil error
    ([ErrSyntax] or [ErrRange]). *)
Definition ParseInt (s : string) : option Z :=
  match s with
  | EmptyString => None
  | String c rest =>
      let neg := Ascii.eqb c "-" in
      let body := if Ascii.eqb c "+" || neg then rest else s in
      match body with
      | EmptyString => None
      | _ =>
          match parse_digits body 0 with
          | None => None
          | Some un =>
              if neg then (if un <=? 2 ^ 63 then Some (- un) else None)
              else (if un <? 2 ^ 63 then Some un else None)
          end
      end
  end.

(** [strconv.Atoi]: [ParseInt(s, 10, 0)] with a 64-bit [int]. *)
Definition Atoi (s : string) : option Z := ParseInt s.

Definition digit_char (d : Z) : ascii := ascii_of_N (Z.to_N (48 + d)).

Fixpoint format_digits (fuel : nat) (n : Z) : string :=
  match fuel with
  | O => EmptyString
  | S fuel' =>
      if n <? 10 then String (digit_char n) EmptyString
      else format_digits fuel' (n / 10) +:+ String (digit_char (n mod 10)) EmptyString
  end.

(** Decimal digits of [n >= 0], most significant first; the binary length of
    [n] bounds the number of digits. *)
Definition FormatUint (n : Z) : string :=
  format_digits (S (Z.to_nat (Z.log2 n))) n.

(** [strconv.FormatInt(i, 10)], which is what [%d] prints. *)
Definition FormatInt (i : Z) : string :=
  if i <? 0 then String "-" (FormatUint (- i)) else FormatUint i.

End strconv.

(** ** sort.Slice *)

Module sort.

Section Slice.
Context {A : Type} (less : A -> A -> bool).

(** Inner loop of [insertionSort]: the element at index [j] is swapped with
    its left neighbour while [less(j, j-1)]. [before] holds the elements to
    its left, nearest first. *)
Fixpoint sift (x : A) (before : list A) : list A :=
  match before with
  | [] => [x]
  | y :: rest => if less x y then y :: sift x rest else x :: y :: rest
  end.

(** [sort.Slice] on a slice of at most 12 elements is this insertion sort
    (Go 1.19 and later; longer slices go through pattern-defeating
    quicksort, which is not modelled). Version chains never exceed
    [MaxVersions = 10]. *)
Definition Slice (l : list A) : list A :=
  rev (fold_left (fun before x => sift x before) l []).
End Slice.

End sort.

(** ** internal/proto: the RESP codec *)

Module proto.

Definition CR : ascii := "013"%char.
Definition LF : ascii := "010"%char.
Definition CRLF : string := String CR (String LF EmptyString).

(** [type RESPType byte] and its five constants. *)
Definition RESPType : Type := ascii.

Definition SimpleString : RESPType := "+"%char.
Definition Error : RESPType := "-"%char.
Definition Integer : RESPType := ":"%char.
Definition BulkString : RESPType := "$"%char.
Definition Array : RESPType := "*"%char.

(** [type RESPValue struct]; a nil and an empty [Array] slice are both [[]]. *)
Inductive RESPValue : Type :=
  mkRESPValue {
    Type_ : RESPType;
    String_ : string;
    Int_ : Z;
    Array_ : list RESPValue;
    Null_ : bool
  }.

(** Composite literals: the fields left out are zero values. *)
Definition with_string (ty : RESPType) (s : string) : RESPValue :=
  mkRESPValue ty s 0 [] false.
Definition with_int (ty : RESPType) (i : Z) : RESPValue :=
  mkRESPValue ty EmptyString i [] false.
Definition with_array (ty : RESPType) (a : list RESPValue) : RESPValue :=
  mkRESPValue ty EmptyString 0 a false.
Definition null_of (ty : RESPType) : RESPValue :=
  mkRESPValue ty EmptyString 0 [] true.

Inductive error : Type :=
| io_EOF
| io_ErrUnexpectedEOF
| Errorf (msg : string)
| runtime_panic (msg : string)
| fuel_exhausted.
(* The last two are no Go errors. [runtime_panic] is a panic of the Go
   runtime; [fuel_exhausted] marks the recursion bound of [Read] below,
   which [parse] sets high enough never to reach. *)

Inductive result (A : Type) : Type :=
| Ok (a : A)
| Err (e : error).
Arguments Ok {A} a.
Arguments Err {A} e.

#[global] Instance result_bind : MBind result :=
  fun A B f m => match m with Ok a => f a | Err e => Err e end.

(** The reader's state is the input not yet consumed. *)
Definition reader (A : Type) : Type := string -> result (A * string).

(** [bufio.Reader.ReadString(LF)]: the bytes up to and including the first
    LF; [None] when the input ends first. *)
Fixpoint ReadString_LF (input : string) : option (string * string) :=
  match input with
  | EmptyString => None
  | String c rest =>
      if Ascii.eqb c LF then Some (String c EmptyString, rest)
      else
        match ReadString_LF rest with
        | Some (line, rest') => Some (String c line, rest')
        | None => None
        end
  end.

Fixpoint skip (n : nat) (s : string) : string :=
  match n, s with
  | S n', String _ rest => skip n' rest
  | _, _ => s
  end.

(** [io.ReadFull] into a buffer of [n] bytes. *)
Definition ReadFull (n : nat) : reader string :=
  fun input =>
    if (n <=? String.length input)%nat then Ok (substring 0 n input, skip n input)
    else Err (match input with EmptyString => io_EOF | _ => io_ErrUnexpectedEOF end).

Definition readLine : reader string :=
  fun input =>
    match ReadString_LF input with
    | None => Err io_EOF
    | Some (line, rest) =>
        let n := String.length line in
        let line :=
          if (2 <=? n)%nat && String.eqb (substring (n - 2) 2 line) CRLF
          then substring 0 (n - 2) line
          else if (1 <=? n)%nat
                  && String.eqb (substring (n - 1) 1 line) (String LF EmptyString)
          then substring 0 (n - 1) line
          else line in
        Ok (line, rest)
    end.

Definition readSimpleString : reader RESPValue :=
  fun input =>
    '(line, rest) ← readLine input;
    Ok (with_string SimpleString line, rest).

Definition readError : reader RESPValue :=
  fun input =>
    '(line, rest) ← readLine input;
    Ok (with_string Error line, rest).

Definition readInteger : reader RESPValue :=
  fun input =>
    '(line, rest) ← readLine input;
    match strconv.ParseInt line with
    | None => Err (Errorf ("invalid integer: " +:+ line))
    | Some val => Ok (with_int Integer val, rest)
    end.

Definition readBulkString : reader RESPValue :=
  fun input =>
    '(line, rest) ← readLine input;
    match strconv.Atoi line with
    | None => Err (Errorf ("invalid bulk string length: " +:+ line))
    | Some length =>
        if length =? -1 then Ok (null_of BulkString, rest)
        else if length <? 0 then
          Err (Errorf ("invalid bulk string length: " +:+ strconv.FormatInt length))
        else if int64.add length 2 <? 0 then
          Err (runtime_panic "makeslice: len out of range")
        else
          '(data, rest') ← ReadFull (Z.to_nat (int64.add length 2)) rest;
          Ok (with_string BulkString (substring 0 (Z.to_nat length) data), rest')
    end.

(** The element loop of [readArray], given [Read]. *)
Fixpoint readArray_loop (Read : reader RESPValue) (n : nat) : reader (list RESPValue) :=
  fun input =>
    match n with
    | O => Ok ([], input)
    | S n' =>
        '(value, rest) ← Read input;
        '(values, rest') ← readArray_loop Read n' rest;
        Ok (value :: values, rest')
    end.

(** Of the failures of [make], only the negative length that [length + 2]
    wraps to in [readBulkString] is modelled. Its panic on a length beyond
    what the runtime can allocate, and running out of memory below that, are
    not: on a header that announces such a length the model reads on and
    ends on the end of the input. What is proved about the reader keeps to
    frames whose lengths are those of payloads present in the input. *)
Definition readArray (Read : reader RESPValue) : reader RESPValue :=
  fun input =>
    '(line, rest) ← readLine input;
    match strconv.Atoi line with
    | None => Err (Errorf ("invalid array length: " +:+ line))
    | Some length =>
        if length =? -1 then Ok (null_of Array, rest)
        else if length <? 0 then
          Err (Errorf ("invalid array length: " +:+ strconv.FormatInt length))
        else
          '(array, rest') ← readArray_loop Read (Z.to_nat length) rest;
          Ok (with_array Array array, rest')
    end.

(** What [%c] prints for a byte: the UTF-8 encoding of the code point with
    that number, which takes two bytes from 0x80 on. *)
Definition format_c (b : ascii) : string :=
  let n := N_of_ascii b in
  if (n <? 128)%N then String b EmptyString
  else String (ascii_of_N (192 + n / 64))
         (String (ascii_of_N (128 + n mod 64)) EmptyString).

(** [RESPReader.Read]. [fuel] bounds the nesting of arrays. *)
Fixpoint Read (fuel : nat) : reader RESPValue :=
  fun input =>
    match fuel with
    | O => Err fuel_exhausted
    | S fuel' =>
        match input with
        | EmptyString => Err io_EOF
        | String typeByte rest =>
            if Ascii.eqb typeByte SimpleString then readSimpleString rest
            else if Ascii.eqb typeByte Error then readError rest
            else if Ascii.eqb typeByte Integer then readInteger rest
            else if Ascii.eqb typeByte BulkString then readBulkString rest
            else if Ascii.eqb typeByte Array then readArray (Read fuel') rest
            else Err (Errorf ("unknown RESP type: " +:+ format_c typeByte))
        end
    end.

(** Every nested [Read] consumes its type byte first, so the length of the
    input bounds the nesting. *)
Definition parse (input : string) : result (RESPValue * string) :=
  Read (S (String.length input)) input.

(** The writer's result: the bytes written and the error, if any. *)
Definition written : Type := string * option error.

Definition WriteSimpleString (s : string) : written :=
  (String "+" s +:+ CRLF, None).
Definition WriteError (s : string) : written :=
  (String "-" s +:+ CRLF, None).
Definition WriteInteger (i : Z) : written :=
  (String ":" (strconv.FormatInt i) +:+ CRLF, None).
Definition WriteBulkString (s : string) : written :=
  (String "$" (strconv.FormatInt (Z.of_nat (String.length s))) +:+ CRLF +:+ s +:+ CRLF,
   None).
Definition WriteNullBulkString : written := (String "$" "-1" +:+ CRLF, None).
Definition WriteNullArray : written := (String "*" "-1" +:+ CRLF, None).

(** [WriteValue] with [WriteArray] as its inner loop, which stops at the
    first element that fails. *)
Fixpoint WriteValue (value : RESPValue) : written :=
  let ty := Type_ value in
  if Ascii.eqb ty SimpleString then WriteSimpleString (String_ value)
  else if Ascii.eqb ty Error then WriteError (String_ value)
  else if Ascii.eqb ty Integer then WriteInteger (Int_ value)
  else if Ascii.eqb ty BulkString then
    if Null_ value then WriteNullBulkString else WriteBulkString (String_ value)
  else if Ascii.eqb ty Array then
    if Null_ value then WriteNullArray
    else
      let header :=
        String "*" (strconv.FormatInt (Z.of_nat (length (Array_ value)))) +:+ CRLF in
      let body :=
        (fix elements (arr : list RESPValue) : written :=
           match arr with
           | [] => (EmptyString, None)
           | v :: arr' =>
               match WriteValue v with
               | (out, None) =>
                   let '(out', err) := elements arr' in (out +:+ out', err)
               | (out, Some e) => (out, Some e)
               end
           end) (Array_ value) in
      (header +:+ fst body, snd body)
  else (EmptyString, Some (Errorf ("unknown RESP type: " +:+ format_c ty))).

Definition WriteArray (arr : list RESPValue) : written :=
  WriteValue (with_array Array arr).

End proto.

(** ** internal/store: the TTL wheel *)

Module store.

Record TTLWheel : Type := mkTTLWheel {
  entries : gmap string Z   (* key -> expiration timestamp *)
}.

Definition NewTTLWheel : TTLWheel := {| entries := ∅ |}.

Definition TTLWheel_Add (tw : TTLWheel) (key : string) (expiration : Z) : TTLWheel :=
  {| entries := <[key := expiration]> (entries tw) |}.

Definition TTLWheel_Remove (tw : TTLWheel) (key : string) : TTLWheel :=
  {| entries := delete key (entries tw) |}.

(** One iteration of the [range] loop of [GetExpired]. *)
Definition GetExpired_step (now : Z) (acc : list string * gmap string Z)
    (kv : string * Z) : list string * gmap string Z :=
  let '(expired, m) := acc in
  let '(key, expiration) := kv in
  if expiration <=? now then (expired ++ [key], delete key m) else (expired, m).

(** [GetExpired]: Go visits the entries in an unspecified order;
    [map_to_list] fixes one. *)
Definition TTLWheel_GetExpired (tw : TTLWheel) (now : Z) : list string * TTLWheel :=
  let '(expired, m) :=
    fold_left (GetExpired_step now) (map_to_list (entries tw)) ([], entries tw) in
  (expired, {| entries := m |}).

(** ** internal/store: the sharded, versioned store *)

Definition ShardCount : Z := 64.
Definition MaxVersions : nat := 10.

Record Value : Type := mkValue {
  Data : string;
  Timestamp : Z;   (* Unix milliseconds *)
  TTL : Z          (* Unix milliseconds when the key expires, 0: never *)
}.

Record KeyHistory : Type := mkKeyHistory {
  Versions : list Value
}.

Record Shard : Type := mkShard {
  data : gmap string KeyHistory
}.

(** The array of [ShardCount] shards is a function of the index; the wheel
    is shared by all shards. *)
Record Store : Type := mkStore {
  shards : nat -> Shard;
  ttlWheel : TTLWheel
}.

Definition NewStore : Store :=
  {| shards := fun _ => {| data := ∅ |}; ttlWheel := NewTTLWheel |}.

Definition hash (key : string) : nat :=
  Z.to_nat (sha256.Uint64_prefix (sha256.Sum256 key) mod ShardCount).

Definition getShard (s : Store) (key : string) : Shard := shards s (hash key).

(** The store after the shard of [key] became [sh] and the wheel [tw]. *)
Definition update (s : Store) (key : string) (sh : Shard) (tw : TTLWheel) : Store :=
  {| shards := fun i => if Nat.eqb i (hash key) then sh else shards s i;
     ttlWheel := tw |}.

Definition Store_Set (s : Store) (now : Z) (key value : string) (ttlMs : Z) : Store :=
  let shard := getShard s key in
  let expiration := if 0 <? ttlMs then int64.add now ttlMs else 0 in
  let tw :=
    if 0 <? ttlMs then TTLWheel_Add (ttlWheel s) key expiration else ttlWheel s in
  let val := {| Data := value; Timestamp := now; TTL := expiration |} in
  let history :=
    match data shard !! key with
    | Some history => history
    | None => {| Versions := [] |}
    end in
  let versions := Versions history ++ [val] in
  let versions :=
    if (MaxVersions <? length versions)%nat
    then drop (length versions - MaxVersions) versions
    else versions in
  update s key {| data := <[key := {| Versions := versions |}]> (data shard) |} tw.

(** The backward scan of [GetAt]: [n] is the loop index plus one. *)
Fixpoint GetAt_scan (versions : list Value) (n : nat) (timestamp : Z) : option string :=
  match n with
  | O => None
  | S i =>
      match versions !! i with
      | None => None
      | Some version =>
          if Timestamp version <=? timestamp then
            if (0 <? TTL version) && (TTL version <=? timestamp) then None
            else Some (Data version)
          else GetAt_scan versions i timestamp
      end
  end.

(** [GetAt]: [None] is the pair [("", false)]. *)
Definition Store_GetAt (s : Store) (key : string) (timestamp : Z) : option string :=
  match data (getShard s key) !! key with
  | None => None
  | Some history => GetAt_scan (Versions history) (length (Versions history)) timestamp
  end.

Definition Store_Get (s : Store) (now : Z) (key : string) : option string :=
  Store_GetAt s key now.

Definition Store_Delete (s : Store) (key : string) : Store * bool :=
  let shard := getShard s key in
  match data shard !! key with
  | Some _ =>
      (update s key {| data := delete key (data shard) |}
         (TTLWheel_Remove (ttlWheel s) key), true)
  | None => (s, false)
  end.

Definition Store_Expire (s : Store) (now : Z) (key : string) (ttlMs : Z) : Store * bool :=
  let shard := getShard s key in
  match data shard !! key with
  | None => (s, false)
  | Some history =>
      match last (Versions history) with
      | None => (s, false)
      | Some latestVersion =>
          let expiration := int64.add now ttlMs in
          let versions :=
            <[(length (Versions history) - 1)%nat :=
                {| Data := Data latestVersion;
                   Timestamp := Timestamp latestVersion;
                   TTL := expiration |}]> (Versions history) in
          (update s key {| data := <[key := {| Versions := versions |}]> (data shard) |}
             (TTLWheel_Add (ttlWheel s) key expiration), true)
      end
  end.

(** [Store.TTL], in milliseconds. *)
Definition Store_TTL (s : Store) (now : Z) (key : string) : Z :=
  match data (getShard s key) !! key with
  | None => -2
  | Some history =>
      match last (Versions history) with
      | None => -2
      | Some latestVersion =>
          if TTL latestVersion =? 0 then -1
          else if TTL latestVersion <=? now then -2
          else int64.sub (TTL latestVersion) now
      end
  end.

(** [limit] is a Go [int]. *)
Definition Store_History (s : Store) (key : string) (limit : Z) : list Value :=
  match data (getShard s key) !! key with
  | None => []
  | Some history =>
      let versions :=
        sort.Slice (fun a b => Timestamp b <? Timestamp a) (Versions history) in
      if (0 <? limit) && (limit <? Z.of_nat (length versions))
      then take (Z.to_nat limit) versions
      else versions
  end.

(** The body of the loop of [expireKeys] for one drained key. *)
Definition expireKeys_step (now : Z) (s : Store) (key : string) : Store :=
  let shard := getShard s key in
  match data shard !! key with
  | None => s
  | Some history =>
      match last (Versions history) with
      | None => s
      | Some latestVersion =>
          if (0 <? TTL latestVersion) && (TTL latestVersion <=? now)
          then update s key {| data := delete key (data shard) |} (ttlWheel s)
          else s
      end
  end.

Definition Store_expireKeys (s : Store) (now : Z) : Store :=
  let '(expiredKeys, tw) := TTLWheel_GetExpired (ttlWheel s) now in
  fold_left (expireKeys_step now) expiredKeys {| shards := shards s; ttlWheel := tw |}.

End store.

(** ** internal/server: the command handlers *)

Module server.

Import proto store.

(** Handlers that write return the store they leave behind. *)

Definition handleExpire (s : Store) (now : Z) (args : list string) : Store * RESPValue :=
  match args with
  | [key; seconds] =>
      match strconv.ParseInt seconds with
      | None =>
          (s, with_string Error "ERR value is not an integer or out of range")
      | Some ttl =>
          let '(s', ok) := Store_Expire s now key (int64.mul ttl 1000) in
          if ok then (s', with_int Integer 1) else (s', with_int Integer 0)
      end
  | _ => (s, with_string Error "ERR wrong number of arguments for 'expire' command")
  end.

Definition handleTTL (s : Store) (now : Z) (args : list string) : RESPValue :=
  match args with
  | [key] =>
      let ttlMs := Store_TTL s now key in
      let ttlSeconds := int64.div ttlMs 1000 in
      with_int Integer ttlSeconds
  | _ => with_string Error "ERR wrong number of arguments for 'ttl' command"
  end.

Definition handleGet (s : Store) (now : Z) (args : list string) : RESPValue :=
  match args with
  | [key] =>
      match Store_Get s now key with
      | None => null_of BulkString
      | Some value => with_string BulkString value
      end
  | _ => with_string Error "ERR wrong number of arguments for 'get' command"
  end.

(** The response array of [handleHist]: slot [2i] holds the timestamp and
    slot [2i+1] the data of [history[i]]. *)
Fixpoint hist_result (history : list Value) : list RESPValue :=
  match history with
  | [] => []
  | version :: rest =>
      with_int Integer (Timestamp version)
      :: with_string BulkString (Data version)
      :: hist_result rest
  end.

Definition handleHist (s : Store) (args : list string) : RESPValue :=
  let run (key : string) (limit : Z) :=
    with_array Array (hist_result (Store_History s key limit)) in
  match args with
  | [key] => run key 0
  | [key; limitStr] =>
      match strconv.Atoi limitStr with
      | None => with_string Error "ERR value is not a valid limit"
      | Some limit =>
          if limit <? 0 then with_string Error "ERR value is not a valid limit"
          else run key limit
      end
  | _ => with_string Error "ERR wrong number of arguments for 'hist' command"
  end.

End server.

(** ** Definitions used to state the properties *)

Module wire.

Import proto.

(** The bytes [WriteValue] produces. *)
Definition serialize (v : RESPValue) : string := fst (WriteValue v).

Fixpoint no_LF (s : string) : bool :=
  match s with
  | EmptyString => true
  | String c rest => negb (Ascii.eqb c LF) && no_LF rest
  end.

Fixpoint all_digits (s : string) : bool :=
  match s with
  | EmptyString => true
  | String c rest => strconv.is_digit c && all_digits rest
  end.

Definition is_empty (s : string) : bool :=
  match s with EmptyString => true | _ => false end.

Definition is_nil {A : Type} (l : list A) : bool :=
  match l with [] => true | _ => false end.

(** A well-formed value is one of the five arms with the fields of the other
    arms at their zero values; the line of a [SimpleString] or [Error] holds
    no line feed, an [Integer] is an [int64], lengths are Go [int]s (with
    room for the two bytes after a bulk payload), and the elements of an
    [Array] are well-formed. *)
Fixpoint well_formedb (v : RESPValue) : bool :=
  let ty := Type_ v in
  if Ascii.eqb ty SimpleString || Ascii.eqb ty Error then
    no_LF (String_ v) && (Int_ v =? 0) && is_nil (Array_ v) && negb (Null_ v)
  else if Ascii.eqb ty Integer then
    is_empty (String_ v) && int64.in_rangeb (Int_ v) && is_nil (Array_ v)
    && negb (Null_ v)
  else if Ascii.eqb ty BulkString then
    (Int_ v =? 0) && is_nil (Array_ v)
    && (if Null_ v then is_empty (String_ v)
        else Z.of_nat (String.length (String_ v)) + 2 <=? int64.max)
  else if Ascii.eqb ty Array then
    is_empty (String_ v) && (Int_ v =? 0)
    && (if Null_ v then is_nil (Array_ v)
        else (Z.of_nat (length (Array_ v)) <=? int64.max)
             && (fix all (l : list RESPValue) : bool :=
                   match l with
                   | [] => true
                   | x :: rest => well_formedb x && all rest
                   end) (Array_ v))
  else false.

Definition well_formed (v : RESPValue) : Prop := well_formedb v = true.

(** An array holding every arm, both nulls and a nested array. *)
Definition every_arm : RESPValue :=
  with_array Array
    [ with_string SimpleString "OK"; with_string Error "ERR syntax error";
      with_int Integer (-9223372036854775808); with_string BulkString "foo";
      null_of BulkString; null_of Array;
      with_array Array [with_string BulkString EmptyString] ].

(** Nesting depth of arrays, counting the value itself. *)
Fixpoint depth (v : RESPValue) : nat :=
  S ((fix deepest (l : list RESPValue) : nat :=
        match l with
        | [] => O
        | x :: rest => Nat.max (depth x) (deepest rest)
        end) (Array_ v)).

(** The loop of [WriteArray] and the deepest element of an array, as
    functions of their own. *)
Fixpoint write_elements (arr : list RESPValue) : written :=
  match arr with
  | [] => (EmptyString, None)
  | v :: arr' =>
      match WriteValue v with
      | (out, None) => let '(out', err) := write_elements arr' in (out +:+ out', err)
      | (out, Some e) => (out, Some e)
      end
  end.

Fixpoint deepest (arr : list RESPValue) : nat :=
  match arr with
  | [] => O
  | x :: rest => Nat.max (depth x) (deepest rest)
  end.

(** Induction on a value with the hypothesis for every array element. *)
Fixpoint RESPValue_nested_ind (P : RESPValue -> Prop)
    (step : forall ty s i arr null, Forall P arr -> P (mkRESPValue ty s i arr null))
    (v : RESPValue) : P v :=
  match v with
  | mkRESPValue ty s i arr null =>
      step ty s i arr null
        ((fix all (l : list RESPValue) : Forall P l :=
            match l with
            | [] => @List.Forall_nil _ P
            | x :: rest =>
                @List.Forall_cons _ P x rest (RESPValue_nested_ind P step x) (all rest)
            end) arr)
  end.

End wire.

Module trace.

Import store.

(** The version chain stored under [key], if any. *)
Definition lookup_chain (s : Store) (key : string) : option KeyHistory :=
  data (getShard s key) !! key.

(** The tail of the chain of [key]: its most recent version. *)
Definition tail (s : Store) (key : string) : option Value :=
  match lookup_chain s key with
  | Some history => last (Versions history)
  | None => None
  end.

(** The TTL-index entry of [key]. *)
Definition index_entry (s : Store) (key : string) : option Z :=
  entries (ttlWheel s) !! key.

Definition chain_versions (chain : option KeyHistory) : list Value :=
  match chain with
  | Some history => Versions history
  | None => []
  end.

(** The chain [Store_Set] stores: the new version appended, then cut to the
    latest [MaxVersions]. *)
Definition appended (old : list Value) (val : Value) : list Value :=
  let versions := old ++ [val] in
  if (MaxVersions <? length versions)%nat
  then drop (length versions - MaxVersions) versions
  else versions.

(** The latest [MaxVersions] elements of a list. *)
Definition retained {A : Type} (l : list A) : list A :=
  drop (length l - MaxVersions) l.

(** The tail with its expiry replaced, as [Store_Expire] stores it. *)
Definition with_expiry (v : Value) (expiration : Z) : Value :=
  {| Data := Data v; Timestamp := Timestamp v; TTL := expiration |}.

(** Every TTL-index entry belongs to a key with a tail, and equals the
    expiry of that tail unless the tail was written without one. *)
Definition index_tracks_tail (s : Store) : Prop :=
  forall k x,
    index_entry s k = Some x ->
    exists v, tail s k = Some v /\ (TTL v <> 0 -> TTL v = x).

(** The public operations of the store and the sweep of the expirer. *)
Inductive Op : Type :=
| OpSet (key value : string) (ttlMs : Z)
| OpGet (key : string)
| OpGetAt (key : string) (timestamp : Z)
| OpDelete (key : string)
| OpExpire (key : string) (ttlMs : Z)
| OpTTL (key : string)
| OpHistory (key : string) (limit : Z)
| OpExpireKeys.

(** One operation, run when the clock reads [now]. *)
Definition step (s : Store) (e : Z * Op) : Store :=
  let '(now, op) := e in
  match op with
  | OpSet key value ttlMs => Store_Set s now key value ttlMs
  | OpDelete key => fst (Store_Delete s key)
  | OpExpire key ttlMs => fst (Store_Expire s now key ttlMs)
  | OpExpireKeys => Store_expireKeys s now
  | OpGet _ | OpGetAt _ _ | OpTTL _ | OpHistory _ _ => s
  end.

Definition run (s : Store) (es : list (Z * Op)) : Store := fold_left step es s.

(** A write with a TTL followed, one millisecond later, by one without. *)
Definition set_then_set_without_ttl : list (Z * Op) :=
  [(1700000000000, OpSet "k" "v" 100); (1700000000001, OpSet "k" "w" 0)].

(** A write [(now, value, ttlMs)] to one key. *)
Definition Write : Type := Z * string * Z.

Definition write_now (w : Write) : Z := w.1.1.
Definition write_value (w : Write) : string := w.1.2.
Definition write_ttl (w : Write) : Z := w.2.

Definition set_all (s : Store) (key : string) (ws : list Write) : Store :=
  fold_left (fun s w => Store_Set s (write_now w) key (write_value w) (write_ttl w)) ws s.

(** The version a write appends. *)
Definition version_of (w : Write) : Value :=
  {| Data := write_value w;
     Timestamp := write_now w;
     TTL := if 0 <? write_ttl w then int64.add (write_now w) (write_ttl w) else 0 |}.

(** [n] writes without expiry, one millisecond apart from [start]; the
    value of write [i] is the letter v followed by [i] in decimal. *)
Definition numbered_writes (start : Z) (n : nat) : list Write :=
  map (fun i : nat =>
         (start + Z.of_nat i, String "v" (strconv.FormatInt (Z.of_nat i)), 0))
      (seq 1 n).

(** [n] writes without expiry that all read the same clock value [now]. *)
Definition simultaneous_writes (now : Z) (n : nat) : list Write :=
  map (fun i : nat => (now, String "v" (strconv.FormatInt (Z.of_nat i)), 0))
      (seq 1 n).

(** The specification's reading of [GetAt]: the last version of the chain
    written at or before [ts] is selected, and it is visible unless it
    carries an expiry that [ts] has reached. *)
Definition select_at (versions : list Value) (ts : Z) : option Value :=
  last (filter (fun v => Timestamp v <= ts) versions).

Definition visible_at (v : Value) (ts : Z) : bool :=
  negb ((0 <? TTL v) && (TTL v <=? ts)).

Definition GetAt_spec (chain : option KeyHistory) (ts : Z) : option string :=
  match chain with
  | None => None
  | Some history =>
      match select_at (Versions history) ts with
      | None => None
      | Some v => if visible_at v ts then Some (Data v) else None
      end
  end.

End trace.

(** ** strings.ToUpper *)

Module gostrings.

Fixpoint isASCII (s : string) : bool :=
  match s with
  | EmptyString => true
  | String c rest => (N_of_ascii c <? 128)%N && isASCII rest
  end.

Definition upper_byte (c : ascii) : ascii :=
  let n := N_of_ascii c in
  if ((97 <=? n) && (n <=? 122))%N then ascii_of_N (n - 32) else c.

Fixpoint map_bytes (f : ascii -> ascii) (s : string) : string :=
  match s with
  | EmptyString => EmptyString
  | String c rest => String (f c) (map_bytes f rest)
  end.

Section ToUpper.
(** [strings.Map(unicode.ToUpper, s)], which [ToUpper] runs on a string
    with a byte outside ASCII; the Unicode tables are not modelled. *)
Variable unicode_ToUpper : string -> string.

(** [strings.ToUpper]: an all-ASCII string is mapped byte by byte. *)
Definition ToUpper (s : string) : string :=
  if isASCII s then map_bytes upper_byte s else unicode_ToUpper s.
End ToUpper.

End gostrings.

(** ** internal/proto: from a value to a command *)

Module proto_command.

Import proto.

(** [err.Error()]. *)
Definition Error_text (e : error) : string :=
  match e with
  | io_EOF => "EOF"
  | io_ErrUnexpectedEOF => "unexpected EOF"
  | Errorf msg => msg
  | runtime_panic msg => msg
  | fuel_exhausted => EmptyString
  end.

(** The loop of [ToStringArray] from index [i] on. *)
Fixpoint ToStringArray_loop (i : Z) (arr : list RESPValue) : result (list string) :=
  match arr with
  | [] => Ok []
  | val :: rest =>
      if (Ascii.eqb (Type_ val) BulkString && negb (Null_ val))
         || Ascii.eqb (Type_ val) SimpleString
      then
        strs ← ToStringArray_loop (i + 1) rest;
        Ok (String_ val :: strs)
      else
        Err (Errorf ("array element " +:+ strconv.FormatInt i +:+ " is not a string"))
  end.

(** [RESPValue.ToStringArray]; the nil slice of a null array is [[]]. *)
Definition ToStringArray (v : RESPValue) : result (list string) :=
  if negb (Ascii.eqb (Type_ v) Array) then Err (Errorf "value is not an array")
  else if Null_ v then Ok []
  else ToStringArray_loop 0 (Array_ v).

Section ToCommand.
Variable unicode_ToUpper : string -> string.

Definition ToCommand (v : RESPValue) : result (string * list string) :=
  args ← ToStringArray v;
  match args with
  | [] => Err (Errorf "empty command")
  | name :: rest => Ok (gostrings.ToUpper unicode_ToUpper name, rest)
  end.
End ToCommand.

End proto_command.

(** ** internal/server: the remaining handlers, the dispatcher and the
       connection loop *)

Module dispatcher.

Import proto store server proto_command.

Definition handlePing (args : list string) : RESPValue :=
  match args with
  | [] => with_string SimpleString "PONG"
  | [arg] => with_string BulkString arg
  | _ => with_string Error "ERR wrong number of arguments for 'ping' command"
  end.

Definition handleDel_step (acc : Store * Z) (key : string) : Store * Z :=
  let '(s, deleted) := acc in
  let '(s', ok) := Store_Delete s key in
  if ok then (s', int64.add deleted 1) else (s', deleted).

Definition handleDel (s : Store) (args : list string) : Store * RESPValue :=
  match args with
  | [] => (s, with_string Error "ERR wrong number of arguments for 'del' command")
  | _ =>
      let '(s', deleted) := fold_left handleDel_step args (s, 0) in
      (s', with_int Integer deleted)
  end.

Definition handleGetAt (s : Store) (args : list string) : RESPValue :=
  match args with
  | [key; ts] =>
      match strconv.ParseInt ts with
      | None => with_string Error "ERR value is not an integer or out of range"
      | Some timestamp =>
          match Store_GetAt s key timestamp with
          | None => null_of BulkString
          | Some value => with_string BulkString value
          end
      end
  | _ => with_string Error "ERR wrong number of arguments for 'getat' command"
  end.

(** How [HandleConnection] ends: it returns after an error of [Read] or of
    [WriteValue], or the Go runtime panics and takes the process down.
    [bound_reached] marks the bound of the loop below, which
    [HandleConnection] sets high enough never to reach. *)
Inductive ending : Type :=
| returned
| panicked (msg : string)
| bound_reached.

Section commands.
Variable unicode_ToUpper : string -> string.

(** The option loop of [handleSet] over [args[2:]]: the TTL in milliseconds
    it ends with, or the error response it returns. *)
Fixpoint handleSet_options (opts : list string) (ttlMs : Z) : RESPValue + Z :=
  match opts with
  | [] => inr ttlMs
  | [_] => inl (with_string Error "ERR syntax error")
  | opt :: ttlStr :: rest =>
      let option := gostrings.ToUpper unicode_ToUpper opt in
      if String.eqb option "PX" then
        match strconv.ParseInt ttlStr with
        | Some ttl =>
            if ttl <=? 0
            then inl (with_string Error "ERR invalid expire time in 'set' command")
            else handleSet_options rest ttl
        | None => inl (with_string Error "ERR invalid expire time in 'set' command")
        end
      else if String.eqb option "EX" then
        match strconv.ParseInt ttlStr with
        | Some ttl =>
            if ttl <=? 0
            then inl (with_string Error "ERR invalid expire time in 'set' command")
            else handleSet_options rest (int64.mul ttl 1000)
        | None => inl (with_string Error "ERR invalid expire time in 'set' command")
        end
      else
        inl (with_string Error ("ERR syntax error near '" +:+ option +:+ "'"))
  end.

Definition handleSet (s : Store) (now : Z) (args : list string) : Store * RESPValue :=
  match args with
  | key :: value :: opts =>
      match handleSet_options opts 0 with
      | inl response => (s, response)
      | inr ttlMs => (Store_Set s now key value ttlMs, with_string SimpleString "OK")
      end
  | _ => (s, with_string Error "ERR wrong number of arguments for 'set' command")
  end.

(** A handler with the store it leaves behind; [now] is what the clock
    reads while the command runs (no handler reads it twice). *)
Definition CommandHandler : Type := Store -> Z -> list string -> Store * RESPValue.

(** The table that [registerCommands] fills. *)
Definition commands (cmd : string) : option CommandHandler :=
  if String.eqb cmd "PING" then Some (fun s _ args => (s, handlePing args))
  else if String.eqb cmd "SET" then Some handleSet
  else if String.eqb cmd "GET" then Some (fun s now args => (s, handleGet s now args))
  else if String.eqb cmd "DEL" then Some (fun s _ args => handleDel s args)
  else if String.eqb cmd "EXPIRE" then Some handleExpire
  else if String.eqb cmd "TTL" then Some (fun s now args => (s, handleTTL s now args))
  else if String.eqb cmd "GETAT" then Some (fun s _ args => (s, handleGetAt s args))
  else if String.eqb cmd "HIST" then Some (fun s _ args => (s, handleHist s args))
  else None.

Definition Dispatch (s : Store) (now : Z) (value : RESPValue) : Store * RESPValue :=
  match ToCommand unicode_ToUpper value with
  | Err err => (s, with_string Error ("ERR " +:+ Error_text err))
  | Ok (cmd, args) =>
      match commands cmd with
      | None => (s, with_string Error ("ERR unknown command '" +:+ cmd +:+ "'"))
      | Some handler => handler s now args
      end
  end.

(** [Server.HandleConnection] on the bytes the client sends before it closes
    the connection: the store it leaves, the bytes written and how it ended.
    Iteration [i] runs while the clock reads [clock i]. A panic inside [Read]
    is not an error that [Read] returns: the loop does not go on to its
    [return], and since nothing recovers it the process stops. The connection
    is taken alone: read deadlines, other connections and the sweeps of the
    expirer in between are not modelled. *)
Fixpoint HandleConnection_loop (fuel : nat) (clock : nat -> Z) (i : nat)
    (s : Store) (input : string) : Store * string * ending :=
  match fuel with
  | O => (s, EmptyString, bound_reached)
  | S fuel' =>
      match parse input with
      | Err (runtime_panic msg) => (s, EmptyString, panicked msg)
      | Err fuel_exhausted => (s, EmptyString, bound_reached)
      | Err _ => (s, EmptyString, returned)
      | Ok (value, rest) =>
          let '(s', response) := Dispatch s (clock i) value in
          match WriteValue response with
          | (out, Some _) => (s', out, returned)
          | (out, None) =>
              let '(s'', out', how) :=
                HandleConnection_loop fuel' clock (S i) s' rest in
              (s'', out +:+ out', how)
          end
      end
  end.

End commands.

End dispatcher.

(** ** internal/store: statistics *)

Module store_stats.

Import store.

Definition shard_versions (sh : Shard) : nat :=
  map_fold (fun _ history total => (total + length (Versions history))%nat) 0%nat
    (data sh).

(** [Store.Stats]: [(total_keys, total_versions, shard_count)]. The counts
    are sums of lengths of maps and slices that are all in memory at once;
    they are kept as naturals. *)
Definition Stats (s : Store) : nat * nat * Z :=
  let indices := seq 0 (Z.to_nat ShardCount) in
  (fold_left (fun total i => (total + size (data (shards s i)))%nat) indices 0%nat,
   fold_left (fun total i => (total + shard_versions (shards s i))%nat) indices 0%nat,
   ShardCount).

End store_stats.

(** ** Definitions used to state the further properties *)

Module laws.

Import proto store trace wire dispatcher.

(** The latest version of [k] carries an expiry that [now] has reached. *)
Definition due_tail (s : Store) (k : string) (now : Z) : bool :=
  match tail s k with
  | Some v => (0 <? TTL v) && (TTL v <=? now)
  | None => false
  end.

(** Every stored chain holds between one and [MaxVersions] versions. *)
Definition chains_bounded (s : Store) : Prop :=
  forall k history,
    lookup_chain s k = Some history ->
    (1 <= length (Versions history) <= MaxVersions)%nat.

(** Every stored version was written at or before [bound]. *)
Definition chains_before (s : Store) (bound : Z) : Prop :=
  forall k history,
    lookup_chain s k = Some history ->
    Forall (fun v => Timestamp v <= bound) (Versions history).

(** Every chain is in the order of its timestamps. *)
Definition chains_sorted (s : Store) : Prop :=
  forall k history,
    lookup_chain s k = Some history ->
    StronglySorted (fun a b => Timestamp a <= Timestamp b) (Versions history).

(** A latest version with a positive expiry is in the TTL index. *)
Definition timed_tail_indexed (s : Store) : Prop :=
  forall k v,
    tail s k = Some v -> 0 < TTL v -> index_entry s k = Some (TTL v).

(** The clock readings of a trace never go back. *)
Definition clock_monotone (es : list (Z * Op)) : Prop :=
  StronglySorted Z.le (map fst es).

(** Every key is stored in the shard that its hash selects. *)
Definition well_placed (s : Store) : Prop :=
  forall i k history, data (shards s i) !! k = Some history -> i = hash k.

(** A command as a client sends it: an array of bulk strings. *)
Definition command (words : list string) : RESPValue :=
  with_array Array (map (with_string BulkString) words).

(** The elements that [ToStringArray] takes for strings. *)
Definition is_string (val : RESPValue) : bool :=
  (Ascii.eqb (Type_ val) BulkString && negb (Null_ val))
  || Ascii.eqb (Type_ val) SimpleString.

Definition stored (s : Store) (k : string) : bool :=
  match lookup_chain s k with Some _ => true | None => false end.

(** Frames one after the other, as they travel on a connection. *)
Fixpoint frames (vs : list RESPValue) : string :=
  match vs with
  | [] => EmptyString
  | v :: rest => serialize v +:+ frames rest
  end.


(** A response that [WriteValue] writes without an error. *)
Definition writable (r : RESPValue) : Prop := snd (WriteValue r) = None.

(** What [handleSet] answers on success. *)
Definition OK : RESPValue := with_string SimpleString "OK".


End laws.

(** ** 64-bit arithmetic *)

Module int64_facts.

Import int64.

Lemma wrap64_in_range (z : Z) : in_range (wrap64 z).
Proof.
  unfold in_range, wrap64, min, max.
  pose proof (Z.mod_pos_bound (z + 2 ^ 63) (2 ^ 64)). lia.
Qed.

Lemma wrap64_id (z : Z) : in_range z -> wrap64 z = z.
Proof.
  unfold in_range, wrap64, min, max. intros Hz.
  rewrite Z.mod_small by lia. lia.
Qed.

Lemma quot_1000_in_range (z : Z) : in_range z -> in_range (Z.quot z 1000).
Proof.
  unfold in_range, min, max. intros Hz.
  destruct (Z.le_gt_cases 0 z) as [Hpos | Hneg].
  - pose proof (Z.quot_pos z 1000 Hpos ltac:(lia)).
    pose proof (Z.quot_le_upper_bound z 1000 z ltac:(lia) ltac:(lia)). lia.
  - assert (Hq : Z.quot z 1000 = - Z.quot (- z) 1000)
      by (rewrite Z.quot_opp_l by lia; lia).
    pose proof (Z.quot_pos (- z) 1000 ltac:(lia) ltac:(lia)).
    pose proof (Z.quot_le_upper_bound (- z) 1000 (- z) ltac:(lia) ltac:(lia)). lia.
Qed.

End int64_facts.

(** ** The shard index *)

Module hash_facts.

(** The digest of the FIPS 180-4 one-block example. *)
Example Sum256_abc :
  sha256.Sum256 "abc"
  = [ 0xba7816bf; 0x8f01cfea; 0x414140de; 0x5dae2223;
      0xb00361a3; 0x96177a9c; 0xb410ff61; 0xf20015ad ].
Proof. vm_compute. reflexivity. Qed.

Lemma hash_in_range (key : string) : (store.hash key < 64)%nat.
Proof.
  unfold store.hash, store.ShardCount.
  pose proof (Z.mod_pos_bound (sha256.Uint64_prefix (sha256.Sum256 key)) 64).
  lia.
Qed.

End hash_facts.

(** ** Decimal integers: printing and parsing agree *)

Module strconv_facts.

Import strconv wire.

Lemma digit_char_spec (d : Z) :
  0 <= d < 10 -> is_digit (digit_char d) = true /\ digit_val (digit_char d) = d.
Proof.
  intros Hd.
  assert (Hcases : d = 0 \/ d = 1 \/ d = 2 \/ d = 3 \/ d = 4 \/ d = 5 \/ d = 6
                   \/ d = 7 \/ d = 8 \/ d = 9) by lia.
  repeat (destruct Hcases as [-> | Hcases]; [split; reflexivity |]).
  subst d. split; reflexivity.
Qed.

Lemma parse_digits_app (s1 s2 : string) (acc : Z) :
  parse_digits (s1 +:+ s2) acc =
  match parse_digits s1 acc with
  | Some a => parse_digits s2 a
  | None => None
  end.
Proof.
  revert acc. induction s1 as [| c s1 IH]; intros acc; simpl; [reflexivity |].
  destruct (is_digit c); [apply IH | reflexivity].
Qed.

Lemma all_digits_app (s1 s2 : string) :
  all_digits (s1 +:+ s2) = all_digits s1 && all_digits s2.
Proof.
  induction s1 as [| c s1 IH]; simpl; [reflexivity |].
  rewrite IH. apply andb_assoc.
Qed.

Lemma format_digits_spec (fuel : nat) :
  forall n, 0 <= n < 10 ^ Z.of_nat (S fuel) ->
    parse_digits (format_digits (S fuel) n) 0 = Some n
    /\ all_digits (format_digits (S fuel) n) = true
    /\ format_digits (S fuel) n <> EmptyString.
Proof.
  induction fuel as [| fuel IH]; intros n Hn.
  - change (10 ^ Z.of_nat 1) with 10 in Hn.
    cbn [format_digits]. destruct (Z.ltb_spec n 10) as [_ | Hge]; [| lia].
    destruct (digit_char_spec n Hn) as [Hd Hv].
    cbn [parse_digits all_digits]. rewrite Hd, Hv.
    split; [f_equal; lia | split; [reflexivity | discriminate]].
  - remember (S fuel) as f eqn:Hf.
    cbn [format_digits]. destruct (Z.ltb_spec n 10) as [Hlt | Hge].
    + destruct (digit_char_spec n) as [Hd Hv]; [lia |].
      cbn [parse_digits all_digits]. rewrite Hd, Hv.
      split; [f_equal; lia | split; [reflexivity | discriminate]].
    + assert (Hq : 0 <= n / 10 < 10 ^ Z.of_nat f).
      { split; [apply Z.div_pos; lia |].
        apply Z.div_lt_upper_bound; [lia |].
        replace (Z.of_nat (S f)) with (Z.succ (Z.of_nat f)) in Hn by lia.
        rewrite Z.pow_succ_r in Hn by lia. lia. }
      subst f. destruct (IH (n / 10) Hq) as (Hp & Ha & Hne).
      destruct (digit_char_spec (n mod 10)) as [Hd Hv];
        [apply Z.mod_pos_bound; lia |].
      rewrite parse_digits_app, Hp, all_digits_app, Ha.
      cbn [parse_digits all_digits]. rewrite Hd, Hv.
      split; [| split; [reflexivity |]].
      * f_equal. pose proof (Z.div_mod n 10). lia.
      * destruct (format_digits (S fuel) (n / 10)); [congruence | discriminate].
Qed.

Lemma FormatUint_spec (n : Z) :
  0 <= n ->
  parse_digits (FormatUint n) 0 = Some n
  /\ all_digits (FormatUint n) = true
  /\ FormatUint n <> EmptyString.
Proof.
  intros Hn. apply format_digits_spec. split; [exact Hn |].
  destruct (Z.eq_dec n 0) as [-> | Hne]; [reflexivity |].
  assert (Hlog : n < 2 ^ Z.succ (Z.log2 n)) by (apply Z.log2_spec; lia).
  pose proof (Z.log2_nonneg n) as Hl.
  replace (Z.of_nat (S (Z.to_nat (Z.log2 n)))) with (Z.succ (Z.log2 n)) by lia.
  eapply Z.lt_le_trans; [exact Hlog |].
  apply Z.pow_le_mono_l. lia.
Qed.

Lemma all_digits_head (c : ascii) (s : string) :
  all_digits (String c s) = true ->
  Ascii.eqb c "+" = false /\ Ascii.eqb c "-" = false.
Proof.
  simpl. intros [Hc _]%andb_prop. unfold is_digit in Hc.
  split; apply Ascii.eqb_neq; intros ->; discriminate Hc.
Qed.

(** [ParseInt] reads back what [FormatInt] printed, over the whole [int64]
    range. *)
Lemma ParseInt_FormatInt (i : Z) :
  int64.in_range i -> ParseInt (FormatInt i) = Some i.
Proof.
  unfold int64.in_range, int64.min, int64.max. intros Hi.
  unfold FormatInt. destruct (Z.ltb_spec i 0) as [Hneg | Hpos].
  - destruct (FormatUint_spec (- i)) as (Hp & _ & Hne); [lia |].
    unfold ParseInt. cbn [Ascii.eqb Bool.eqb orb].
    change (Ascii.eqb "-" "+") with false. cbn [orb].
    destruct (FormatUint (- i)) as [| c s] eqn:Hf; [congruence |].
    rewrite Hp. destruct (Z.leb_spec (- i) (2 ^ 63)); [f_equal; lia | lia].
  - destruct (FormatUint_spec i Hpos) as (Hp & Ha & Hne).
    unfold ParseInt.
    destruct (FormatUint i) as [| c s] eqn:Hf; [congruence |].
    destruct (all_digits_head c s Ha) as [-> ->]. cbn [orb].
    rewrite Hp. destruct (Z.ltb_spec i (2 ^ 63)); [reflexivity | lia].
Qed.

Lemma all_digits_FormatInt_tail (i : Z) :
  exists s, all_digits s = true
            /\ (FormatInt i = s \/ FormatInt i = String "-" s).
Proof.
  unfold FormatInt. destruct (Z.ltb_spec i 0).
  - exists (FormatUint (- i)). split; [apply FormatUint_spec; lia | now right].
  - exists (FormatUint i). split; [apply FormatUint_spec; lia | now left].
Qed.

End strconv_facts.

(** ** The RESP codec *)

Module proto_facts.

Import proto wire.

Lemma app_cons (c : ascii) (a b : string) : String c a +:+ b = String c (a +:+ b).
Proof. reflexivity. Qed.

Lemma app_nil_l (b : string) : EmptyString +:+ b = b.
Proof. reflexivity. Qed.

Lemma length_app (a b : string) :
  String.length (a +:+ b) = (String.length a + String.length b)%nat.
Proof.
  induction a as [| c a IH]; [reflexivity |].
  rewrite app_cons. simpl. now rewrite IH.
Qed.

Lemma app_assoc (a b c : string) : (a +:+ b) +:+ c = a +:+ (b +:+ c).
Proof.
  induction a as [| x a IH]; [reflexivity |].
  rewrite !app_cons. now rewrite IH.
Qed.

Lemma app_nil_r (a : string) : a +:+ EmptyString = a.
Proof.
  induction a as [| x a IH]; [reflexivity |].
  rewrite app_cons. now rewrite IH.
Qed.

Lemma substring_0_app (a b : string) : substring 0 (String.length a) (a +:+ b) = a.
Proof.
  induction a as [| c a IH]; [rewrite app_nil_l; now destruct b |].
  rewrite app_cons. simpl. now rewrite IH.
Qed.

Lemma substring_skip_app (a b : string) (n : nat) :
  substring (String.length a) n (a +:+ b) = substring 0 n b.
Proof.
  induction a as [| c a IH]; [reflexivity |].
  rewrite app_cons. simpl. exact IH.
Qed.

Lemma skip_app (a b : string) : skip (String.length a) (a +:+ b) = b.
Proof.
  induction a as [| c a IH]; [rewrite app_nil_l; now destruct b |].
  rewrite app_cons. simpl. exact IH.
Qed.

Lemma no_LF_app (a b : string) : no_LF (a +:+ b) = no_LF a && no_LF b.
Proof.
  induction a as [| c a IH]; [reflexivity |].
  rewrite app_cons. simpl. rewrite IH. apply andb_assoc.
Qed.

Lemma all_digits_no_LF (s : string) : all_digits s = true -> no_LF s = true.
Proof.
  induction s as [| c s IH]; simpl; [reflexivity |].
  intros [Hc Hs]%andb_prop. rewrite (IH Hs), andb_true_r.
  apply negb_true_iff, Ascii.eqb_neq. intros ->. discriminate Hc.
Qed.

Lemma no_LF_FormatInt (i : Z) : no_LF (strconv.FormatInt i) = true.
Proof.
  destruct (strconv_facts.all_digits_FormatInt_tail i) as (s & Hs & [-> | ->]).
  - now apply all_digits_no_LF.
  - simpl. now apply all_digits_no_LF.
Qed.

Lemma ReadString_LF_line (s rest : string) :
  no_LF s = true ->
  ReadString_LF (s +:+ String LF rest) = Some (s +:+ String LF EmptyString, rest).
Proof.
  induction s as [| c s IH]; [reflexivity |].
  rewrite !app_cons. simpl.
  intros [Hc Hs]%andb_prop. apply negb_true_iff in Hc. rewrite Hc.
  now rewrite (IH Hs).
Qed.

(** A line without LF, terminated by CR LF, is read back whole. *)
Lemma readLine_CRLF (s rest : string) :
  no_LF s = true -> readLine (s +:+ CRLF +:+ rest) = Ok (s, rest).
Proof.
  intros Hs. unfold readLine.
  replace (s +:+ CRLF +:+ rest)
    with ((s +:+ String CR EmptyString) +:+ String LF rest)
    by (now rewrite app_assoc).
  rewrite ReadString_LF_line by (now rewrite no_LF_app, Hs).
  rewrite app_assoc. change (String CR EmptyString +:+ String LF EmptyString) with CRLF.
  rewrite length_app. change (String.length CRLF) with 2%nat.
  replace (String.length s + 2 - 2)%nat with (String.length s) by lia.
  rewrite substring_skip_app, substring_0_app.
  destruct (2 <=? String.length s + 2)%nat eqn:Hle; [reflexivity |].
  apply Nat.leb_gt in Hle. lia.
Qed.

Lemma ReadFull_exact (data rest : string) :
  ReadFull (String.length data) (data +:+ rest) = Ok (data, rest).
Proof.
  unfold ReadFull. rewrite length_app.
  destruct (String.length data <=? String.length data + String.length rest)%nat eqn:Hle.
  - now rewrite substring_0_app, skip_app.
  - apply Nat.leb_gt in Hle. lia.
Qed.

(** The frame of a bulk string is accepted whatever the two bytes after the
    payload are. *)
Lemma readBulkString_any_trailer (p : string) (x y : ascii) (rest : string) :
  Z.of_nat (String.length p) + 2 <= int64.max ->
  readBulkString
    (strconv.FormatInt (Z.of_nat (String.length p)) +:+ CRLF +:+ p
     +:+ String x (String y rest))
  = Ok (with_string BulkString p, rest).
Proof.
  intros Hlen. unfold readBulkString.
  rewrite readLine_CRLF by apply no_LF_FormatInt.
  cbn [mbind result_bind]. unfold strconv.Atoi.
  assert (Hr : int64.in_range (Z.of_nat (String.length p) + 2))
    by (unfold int64.in_range, int64.min, int64.max in *; lia).
  rewrite strconv_facts.ParseInt_FormatInt
    by (unfold int64.in_range, int64.min, int64.max in *; lia).
  destruct (Z.eqb_spec (Z.of_nat (String.length p)) (-1)) as [Heq | _]; [lia |].
  destruct (Z.ltb_spec (Z.of_nat (String.length p)) 0) as [Hlt | _]; [lia |].
  unfold int64.add. rewrite (int64_facts.wrap64_id _ Hr).
  destruct (Z.ltb_spec (Z.of_nat (String.length p) + 2) 0) as [Hlt | _]; [lia |].
  replace (Z.to_nat (Z.of_nat (String.length p) + 2))
    with (String.length (p +:+ String x (String y EmptyString)))
    by (rewrite length_app; simpl; lia).
  replace (p +:+ String x (String y rest))
    with ((p +:+ String x (String y EmptyString)) +:+ rest)
    by (now rewrite app_assoc).
  rewrite ReadFull_exact. cbn [mbind result_bind].
  now rewrite Nat2Z.id, substring_0_app.
Qed.

(** The bulk-string frame with an arbitrary two-byte trailer, through [parse]. *)
Lemma parse_bulk_any_trailer (p : string) (x y : ascii) (rest : string) :
  Z.of_nat (String.length p) + 2 <= int64.max ->
  parse
    (String "$"
       (strconv.FormatInt (Z.of_nat (String.length p)) +:+ CRLF +:+ p
        +:+ String x (String y rest)))
  = Ok (with_string BulkString p, rest).
Proof.
  intros Hlen. unfold parse. cbn [Read].
  change (Ascii.eqb "$" SimpleString) with false.
  change (Ascii.eqb "$" Error) with false.
  change (Ascii.eqb "$" Integer) with false.
  change (Ascii.eqb "$" BulkString) with true.
  cbv iota. now apply readBulkString_any_trailer.
Qed.

Lemma Read_tag (fuel : nat) (tag : ascii) (rest : string) :
  Read (S fuel) (String tag rest) =
  if Ascii.eqb tag SimpleString then readSimpleString rest
  else if Ascii.eqb tag Error then readError rest
  else if Ascii.eqb tag Integer then readInteger rest
  else if Ascii.eqb tag BulkString then readBulkString rest
  else if Ascii.eqb tag Array then readArray (Read fuel) rest
  else Err (Errorf ("unknown RESP type: " +:+ format_c tag)).
Proof. reflexivity. Qed.

(** *** The recursion bound of [Read] is never reached *)

Lemma ReadString_LF_shorter (input line rest : string) :
  ReadString_LF input = Some (line, rest) ->
  (String.length rest < String.length input)%nat.
Proof.
  revert line. induction input as [| c input IH]; intros line; [discriminate |].
  cbn [ReadString_LF]. destruct (Ascii.eqb c LF).
  - intros [= <- <-]. simpl. lia.
  - destruct (ReadString_LF input) as [[l r] |]; [| discriminate].
    intros [= <- <-]. specialize (IH l eq_refl). simpl. lia.
Qed.

Lemma readLine_shorter (input line rest : string) :
  readLine input = Ok (line, rest) ->
  (String.length rest < String.length input)%nat.
Proof.
  unfold readLine. destruct (ReadString_LF input) as [[l r] |] eqn:Hl; [| discriminate].
  intros [= _ <-]. exact (ReadString_LF_shorter _ _ _ Hl).
Qed.

Lemma skip_length (n : nat) (s : string) :
  (String.length (skip n s) <= String.length s)%nat.
Proof.
  revert s. induction n as [| n IH]; intros [| c s]; simpl; try lia.
  specialize (IH s). lia.
Qed.

Lemma ReadFull_shorter (n : nat) (input data rest : string) :
  ReadFull n input = Ok (data, rest) ->
  (String.length rest <= String.length input)%nat.
Proof.
  unfold ReadFull. destruct (n <=? String.length input)%nat; [| discriminate].
  intros [= _ <-]. apply skip_length.
Qed.

(** Whether a result is anything but the exhausted bound, and whether a
    reader leaves less input than it was given. *)
Lemma readBulkString_shorter (input : string) (v : RESPValue) (rest : string) :
  readBulkString input = Ok (v, rest) ->
  (String.length rest < String.length input)%nat.
Proof.
  unfold readBulkString. destruct (readLine input) as [[line r] | e] eqn:Hl;
    cbn [mbind result_bind]; [| discriminate].
  apply readLine_shorter in Hl.
  destruct (strconv.Atoi line) as [len |]; [| discriminate].
  destruct (len =? -1); [intros [= _ <-]; exact Hl |].
  destruct (len <? 0); [discriminate |].
  destruct (int64.add len 2 <? 0); [discriminate |].
  destruct (ReadFull (Z.to_nat (int64.add len 2)) r) as [[d r'] | e] eqn:Hf;
    cbn [mbind result_bind]; [| discriminate].
  apply ReadFull_shorter in Hf. intros [= _ <-]. lia.
Qed.

Lemma readArray_loop_shorter (Read : reader RESPValue) (bound : nat) :
  (forall input v rest,
      (String.length input <= bound)%nat -> Read input = Ok (v, rest) ->
      (String.length rest < String.length input)%nat) ->
  forall n input vs rest,
    (String.length input <= bound)%nat ->
    readArray_loop Read n input = Ok (vs, rest) ->
    (String.length rest <= String.length input)%nat.
Proof.
  intros HRead. induction n as [| n IH]; intros input vs rest Hb; cbn [readArray_loop].
  - intros [= _ <-]. lia.
  - destruct (Read input) as [[v r] | e] eqn:Hv; cbn [mbind result_bind]; [| discriminate].
    apply HRead in Hv; [| exact Hb].
    destruct (readArray_loop Read n r) as [[vs' r'] | e] eqn:Hvs;
      cbn [mbind result_bind]; [| discriminate].
    apply IH in Hvs; [| lia]. intros [= _ <-]. lia.
Qed.

Lemma Read_shorter (fuel : nat) (input : string) (v : RESPValue) (rest : string) :
  Read fuel input = Ok (v, rest) ->
  (String.length rest < String.length input)%nat.
Proof.
  revert input v rest. induction fuel as [| fuel IH]; intros input v rest;
    [discriminate |].
  destruct input as [| tag input]; [discriminate |].
  rewrite Read_tag. cbn [String.length].
  destruct (Ascii.eqb tag SimpleString).
  { unfold readSimpleString.
    destruct (readLine input) as [[line r] | e] eqn:Hl; cbn [mbind result_bind];
      [| discriminate].
    apply readLine_shorter in Hl. intros [= _ <-]. lia. }
  destruct (Ascii.eqb tag Error).
  { unfold readError.
    destruct (readLine input) as [[line r] | e] eqn:Hl; cbn [mbind result_bind];
      [| discriminate].
    apply readLine_shorter in Hl. intros [= _ <-]. lia. }
  destruct (Ascii.eqb tag Integer).
  { unfold readInteger.
    destruct (readLine input) as [[line r] | e] eqn:Hl; cbn [mbind result_bind];
      [| discriminate].
    apply readLine_shorter in Hl.
    destruct (strconv.ParseInt line); [| discriminate]. intros [= _ <-]. lia. }
  destruct (Ascii.eqb tag BulkString).
  { intros Hb%readBulkString_shorter. lia. }
  destruct (Ascii.eqb tag Array); [| discriminate].
  unfold readArray.
  destruct (readLine input) as [[line r] | e] eqn:Hl; cbn [mbind result_bind];
    [| discriminate].
  apply readLine_shorter in Hl.
  destruct (strconv.Atoi line) as [len |]; [| discriminate].
  destruct (len =? -1); [intros [= _ <-]; lia |].
  destruct (len <? 0); [discriminate |].
  destruct (readArray_loop (Read fuel) (Z.to_nat len) r) as [[vs r'] | e] eqn:Hvs;
    cbn [mbind result_bind]; [| discriminate].
  apply (readArray_loop_shorter (Read fuel) (String.length r)) in Hvs;
    [| intros i v' r'' _; apply IH | lia].
  intros [= _ <-]. lia.
Qed.

Lemma readArray_loop_bounded (Read : reader RESPValue) (bound : nat) :
  (forall input, (String.length input < bound)%nat -> Read input <> Err fuel_exhausted) ->
  (forall input v rest,
      Read input = Ok (v, rest) -> (String.length rest < String.length input)%nat) ->
  forall n input,
    (String.length input < bound)%nat ->
    readArray_loop Read n input <> Err fuel_exhausted.
Proof.
  intros Hfuel Hshort. induction n as [| n IH]; intros input Hb; cbn [readArray_loop];
    [discriminate |].
  destruct (Read input) as [[v r] | e] eqn:Hv; cbn [mbind result_bind].
  - apply Hshort in Hv. specialize (IH r ltac:(lia)).
    destruct (readArray_loop Read n r) as [[vs r'] | e]; cbn [mbind result_bind];
      [discriminate | exact IH].
  - intros [= ->]. exact (Hfuel input Hb Hv).
Qed.

(** With a bound above the length of the input, [Read] never stops at the
    bound: [parse] loses no behaviour of the reader. *)
Lemma Read_bound_not_reached (fuel : nat) (input : string) :
  (String.length input < fuel)%nat -> Read fuel input <> Err fuel_exhausted.
Proof.
  revert input. induction fuel as [| fuel IH]; intros input Hlen; [lia |].
  destruct input as [| tag input]; [discriminate |].
  rewrite Read_tag. cbn [String.length] in Hlen.
  destruct (Ascii.eqb tag SimpleString).
  { unfold readSimpleString. destruct (readLine input) as [[line r] | e] eqn:Hl;
      cbn [mbind result_bind]; [discriminate |].
    unfold readLine in Hl. destruct (ReadString_LF input) as [[l r] |]; now inversion Hl. }
  destruct (Ascii.eqb tag Error).
  { unfold readError. destruct (readLine input) as [[line r] | e] eqn:Hl;
      cbn [mbind result_bind]; [discriminate |].
    unfold readLine in Hl. destruct (ReadString_LF input) as [[l r] |]; now inversion Hl. }
  destruct (Ascii.eqb tag Integer).
  { unfold readInteger. destruct (readLine input) as [[line r] | e] eqn:Hl;
      cbn [mbind result_bind].
    - destruct (strconv.ParseInt line); discriminate.
    - unfold readLine in Hl.
      destruct (ReadString_LF input) as [[l r] |]; now inversion Hl. }
  destruct (Ascii.eqb tag BulkString).
  { unfold readBulkString. destruct (readLine input) as [[line r] | e] eqn:Hl;
      cbn [mbind result_bind].
    - destruct (strconv.Atoi line) as [len |]; [| discriminate].
      destruct (len =? -1); [discriminate |].
      destruct (len <? 0); [discriminate |].
      destruct (int64.add len 2 <? 0); [discriminate |].
      unfold ReadFull.
      destruct (Z.to_nat (int64.add len 2) <=? String.length r)%nat;
        cbn [mbind result_bind]; [discriminate | now destruct r].
    - unfold readLine in Hl.
      destruct (ReadString_LF input) as [[l r] |]; now inversion Hl. }
  destruct (Ascii.eqb tag Array); [| discriminate].
  unfold readArray. destruct (readLine input) as [[line r] | e] eqn:Hl;
    cbn [mbind result_bind].
  - apply readLine_shorter in Hl.
    destruct (strconv.Atoi line) as [len |]; [| discriminate].
    destruct (len =? -1); [discriminate |].
    destruct (len <? 0); [discriminate |].
    pose proof (readArray_loop_bounded (Read fuel) fuel IH (Read_shorter fuel)
                  (Z.to_nat len) r ltac:(lia)) as Hloop.
    destruct (readArray_loop (Read fuel) (Z.to_nat len) r) as [[vs r'] | e];
      cbn [mbind result_bind]; [discriminate |].
    intros [= ->]. now apply Hloop.
  - unfold readLine in Hl.
    destruct (ReadString_LF input) as [[l r] |]; now inversion Hl.
Qed.

Lemma parse_bound_not_reached (input : string) : parse input <> Err fuel_exhausted.
Proof. apply Read_bound_not_reached. lia. Qed.

(** *** Unfolding the nested loops *)

Lemma well_formedb_elements (arr : list RESPValue) :
  (fix all (l : list RESPValue) : bool :=
     match l with
     | [] => true
     | x :: rest => well_formedb x && all rest
     end) arr = forallb well_formedb arr.
Proof. induction arr as [| x arr IH]; [reflexivity | simpl; now rewrite IH]. Qed.

Lemma depth_unfold (v : RESPValue) : depth v = S (deepest (Array_ v)).
Proof. destruct v. reflexivity. Qed.

Lemma WriteValue_Array (arr : list RESPValue) :
  WriteValue (with_array Array arr) =
  (String "*"
     (strconv.FormatInt (Z.of_nat (length arr)) +:+ CRLF +:+ fst (write_elements arr)),
   snd (write_elements arr)).
Proof.
  rewrite <- app_assoc, <- app_cons. reflexivity.
Qed.

Ltac split_andb :=
  repeat match goal with
         | H : _ && _ = true |- _ => apply andb_prop in H as [? ?]
         end.

Lemma is_nil_true {A : Type} (l : list A) : is_nil l = true -> l = [].
Proof. destruct l; [reflexivity | discriminate]. Qed.

Lemma is_empty_true (s : string) : is_empty s = true -> s = EmptyString.
Proof. destruct s; [reflexivity | discriminate]. Qed.

Lemma in_rangeb_true (z : Z) : int64.in_rangeb z = true -> int64.in_range z.
Proof.
  unfold int64.in_rangeb, int64.in_range. intros [H1 H2]%andb_prop.
  split; [now apply Z.leb_le | now apply Z.leb_le].
Qed.

Lemma length_in_range (n : nat) :
  Z.of_nat n <= int64.max -> int64.in_range (Z.of_nat n).
Proof. unfold int64.in_range, int64.min. lia. Qed.

(** What one value must satisfy for its array to round-trip. *)
Lemma elements_round_trip (arr : list RESPValue) :
  Forall (fun v =>
            well_formed v ->
            snd (WriteValue v) = None
            /\ (depth v <= String.length (serialize v))%nat
            /\ forall fuel rest, (depth v <= fuel)%nat ->
                 Read fuel (serialize v +:+ rest) = Ok (v, rest)) arr ->
  forallb well_formedb arr = true ->
  snd (write_elements arr) = None
  /\ (deepest arr <= String.length (fst (write_elements arr)))%nat
  /\ forall fuel rest, (deepest arr <= fuel)%nat ->
       readArray_loop (Read fuel) (length arr) (fst (write_elements arr) +:+ rest)
       = Ok (arr, rest).
Proof.
  induction 1 as [| x arr Hx _ IH]; intros Hwf.
  - split; [reflexivity | split; [simpl; lia | reflexivity]].
  - simpl in Hwf. apply andb_prop in Hwf as [Hwx Hwarr].
    destruct (Hx Hwx) as (Hex & Hdx & Hrx).
    destruct (IH Hwarr) as (Hea & Hda & Hra).
    unfold serialize in *. cbn [write_elements deepest length].
    destruct (WriteValue x) as [out ex]. cbn [fst snd] in *. subst ex.
    destruct (write_elements arr) as [out' ea]. cbn [fst snd] in *. subst ea.
    cbn [fst snd]. split; [reflexivity | split].
    + rewrite length_app. lia.
    + intros fuel rest Hfuel. cbn [readArray_loop]. rewrite app_assoc.
      rewrite Hrx by lia. cbn [mbind result_bind].
      rewrite Hra by lia. reflexivity.
Qed.

(** Reading back what [WriteValue] wrote, for any sufficient recursion bound. *)
Ltac decode_wf :=
  split_andb;
  repeat match goal with
         | H : is_nil _ = true |- _ => apply is_nil_true in H
         | H : is_empty _ = true |- _ => apply is_empty_true in H
         | H : negb _ = true |- _ => apply negb_true_iff in H
         | H : int64.in_rangeb _ = true |- _ => apply in_rangeb_true in H
         | H : (_ =? _) = true |- _ => apply Z.eqb_eq in H
         | H : (_ <=? _) = true |- _ => apply Z.leb_le in H
         end;
  subst.

Lemma Read_WriteValue (v : RESPValue) :
  well_formed v ->
  snd (WriteValue v) = None
  /\ (depth v <= String.length (serialize v))%nat
  /\ forall fuel rest, (depth v <= fuel)%nat ->
       Read fuel (serialize v +:+ rest) = Ok (v, rest).
Proof.
  induction v as [ty s i arr null IH] using RESPValue_nested_ind.
  unfold well_formed. rewrite depth_unfold. cbn [Array_].
  unfold serialize.
  cbn [well_formedb WriteValue Type_ String_ Int_ Array_ Null_].
  rewrite well_formedb_elements.
  destruct (Ascii.eqb_spec ty SimpleString) as [-> | HnS].
  { cbn [orb]. intros Hwf. decode_wf. cbn [deepest fst snd WriteSimpleString].
    split; [reflexivity | split; [simpl; lia |]].
    intros [| fuel] rest Hfuel; [lia |].
    rewrite app_assoc, (app_cons "+"), Read_tag. cbn -[readSimpleString].
    unfold readSimpleString. rewrite readLine_CRLF by assumption.
    reflexivity. }
  destruct (Ascii.eqb_spec ty Error) as [-> | HnE].
  { cbn [orb]. intros Hwf. decode_wf. cbn [deepest fst snd WriteError].
    split; [reflexivity | split; [simpl; lia |]].
    intros [| fuel] rest Hfuel; [lia |].
    rewrite app_assoc, (app_cons "-"), Read_tag. cbn -[readError].
    unfold readError. rewrite readLine_CRLF by assumption.
    reflexivity. }
  cbn [orb].
  destruct (Ascii.eqb_spec ty Integer) as [-> | HnI].
  { intros Hwf. decode_wf. cbn [deepest fst snd WriteInteger].
    split; [reflexivity | split; [simpl; lia |]].
    intros [| fuel] rest Hfuel; [lia |].
    rewrite app_assoc, (app_cons ":"), Read_tag. cbn -[readInteger].
    unfold readInteger. rewrite readLine_CRLF by apply no_LF_FormatInt.
    cbn [mbind result_bind]. now rewrite strconv_facts.ParseInt_FormatInt. }
  destruct (Ascii.eqb_spec ty BulkString) as [-> | HnB].
  { intros Hwf. destruct null; decode_wf.
    - cbn [deepest fst snd WriteNullBulkString].
      split; [reflexivity | split; [simpl; lia |]].
      intros [| fuel] rest Hfuel; [lia |]. reflexivity.
    - cbn [deepest fst snd WriteBulkString].
      split; [reflexivity | split; [simpl; lia |]].
      intros [| fuel] rest Hfuel; [lia |].
      rewrite !app_assoc, (app_cons "$"), Read_tag. cbn -[readBulkString].
      change (CRLF +:+ rest) with (String CR (String LF rest)).
      now apply readBulkString_any_trailer. }
  destruct (Ascii.eqb_spec ty Array) as [-> | HnA]; [| discriminate].
  intros Hwf. destruct null; decode_wf.
  - cbn [deepest fst snd WriteNullArray].
    split; [reflexivity | split; [simpl; lia |]].
    intros [| fuel] rest Hfuel; [lia |]. reflexivity.
  - match goal with
    | H : forallb well_formedb arr = true |- _ =>
        destruct (elements_round_trip arr IH H) as (He & Hd & Hr)
    end.
    pose proof (WriteValue_Array arr) as HW. unfold with_array in HW.
    cbn [WriteValue Type_ String_ Int_ Array_ Null_] in HW.
    change (Ascii.eqb Array SimpleString) with false in HW.
    change (Ascii.eqb Array Error) with false in HW.
    change (Ascii.eqb Array Integer) with false in HW.
    change (Ascii.eqb Array BulkString) with false in HW.
    change (Ascii.eqb Array Array) with true in HW.
    cbv iota in HW.
    pose proof (f_equal fst HW) as HW1. pose proof (f_equal snd HW) as HW2.
    cbn [fst snd] in HW1, HW2. rewrite HW1, HW2. clear HW HW1 HW2.
    cbn [fst snd]. split; [exact He | split].
    + simpl. rewrite !length_app. lia.
    + intros [| fuel] rest Hfuel; [lia |].
      rewrite (app_cons "*"), Read_tag. cbn -[readArray].
      unfold readArray. rewrite !app_assoc, readLine_CRLF by apply no_LF_FormatInt.
      cbn [mbind result_bind]. unfold strconv.Atoi.
      rewrite strconv_facts.ParseInt_FormatInt by (now apply length_in_range).
      destruct (Z.eqb_spec (Z.of_nat (length arr)) (-1)) as [Heq | _]; [lia |].
      destruct (Z.ltb_spec (Z.of_nat (length arr)) 0) as [Hlt | _]; [lia |].
      rewrite Nat2Z.id, Hr by lia. reflexivity.
Qed.

End proto_facts.

(** ** sort.Slice with a comparison on integer keys *)

Module sort_facts.

Section keyed.
Context {A : Type} (key : A -> Z).

(** The comparison of [History]: [a] goes before [b] when its key is larger. *)
Local Abbreviation less := (fun a b : A => key b <? key a).

Lemma sift_perm (x : A) (before : list A) :
  sort.sift less x before ≡ₚ x :: before.
Proof.
  induction before as [| y rest IH]; [reflexivity |].
  cbn [sort.sift]. destruct (less x y); [| reflexivity].
  rewrite IH. apply perm_swap.
Qed.

Lemma fold_sift_perm (l acc : list A) :
  fold_left (fun before x => sort.sift less x before) l acc ≡ₚ acc ++ l.
Proof.
  revert acc. induction l as [| x l IH]; intros acc; cbn [fold_left].
  - now rewrite app_nil_r.
  - rewrite IH, sift_perm. rewrite (Permutation_middle acc l x). reflexivity.
Qed.

Lemma Slice_perm (l : list A) : sort.Slice less l ≡ₚ l.
Proof.
  unfold sort.Slice. rewrite <- Permutation_rev. apply fold_sift_perm.
Qed.

Lemma Slice_length (l : list A) : length (sort.Slice less l) = length l.
Proof. apply Permutation_length, Slice_perm. Qed.

Lemma sift_sorted (x : A) (before : list A) :
  StronglySorted (fun a b => key a <= key b) before ->
  StronglySorted (fun a b => key a <= key b) (sort.sift less x before).
Proof.
  induction 1 as [| y rest Hrest IH Hy]; cbn [sort.sift].
  - repeat constructor.
  - cbv beta. destruct (Z.ltb_spec (key y) (key x)) as [Hlt | Hge].
    + constructor; [exact IH |].
      rewrite sift_perm. constructor; [lia | exact Hy].
    + constructor; [now constructor |].
      constructor; [exact Hge |].
      eapply Forall_impl; [exact Hy |]. cbn. intros z Hz. lia.
Qed.

Lemma fold_sift_sorted (l acc : list A) :
  StronglySorted (fun a b => key a <= key b) acc ->
  StronglySorted (fun a b => key a <= key b)
    (fold_left (fun before x => sort.sift less x before) l acc).
Proof.
  revert acc. induction l as [| x l IH]; intros acc Hacc; cbn [fold_left];
    [exact Hacc | apply IH, sift_sorted, Hacc].
Qed.

Lemma rev_sorted (R : A -> A -> Prop) (l : list A) :
  StronglySorted R l -> StronglySorted (fun a b => R b a) (rev l).
Proof.
  induction 1 as [| x l Hl IH Hx]; cbn [rev]; [constructor |].
  apply StronglySorted_app_2; [| exact IH | repeat constructor].
  intros a b Ha Hb. apply list_elem_of_singleton in Hb as ->.
  rewrite Forall_forall in Hx. apply Hx.
  apply list_elem_of_In, in_rev, list_elem_of_In. exact Ha.
Qed.

(** The result is in non-increasing order of keys. *)
Lemma Slice_sorted (l : list A) :
  StronglySorted (fun a b => key b <= key a) (sort.Slice less l).
Proof.
  unfold sort.Slice.
  apply (rev_sorted (fun a b => key a <= key b)), fold_sift_sorted. constructor.
Qed.

Lemma sift_largest (x : A) (before : list A) :
  Forall (fun y => key y < key x) before ->
  sort.sift less x before = before ++ [x].
Proof.
  induction 1 as [| y rest Hy _ IH]; [reflexivity |].
  cbn [sort.sift]. cbv beta.
  destruct (Z.ltb_spec (key y) (key x)); [| lia]. now rewrite IH.
Qed.

Lemma fold_sift_increasing (l acc : list A) :
  StronglySorted (fun a b => key a < key b) (acc ++ l) ->
  fold_left (fun before x => sort.sift less x before) l acc = acc ++ l.
Proof.
  revert acc. induction l as [| x l IH]; intros acc Hs; cbn [fold_left].
  - now rewrite app_nil_r.
  - rewrite sift_largest.
    + rewrite IH; rewrite <- app_assoc; [reflexivity | exact Hs].
    + apply Forall_forall. intros y Hy.
      apply (StronglySorted_app_1_elem_of _ _ _ _ _ Hs Hy). now left.
Qed.

(** On strictly increasing keys the result is the input reversed. *)
Lemma Slice_increasing (l : list A) :
  StronglySorted (fun a b => key a < key b) l -> sort.Slice less l = rev l.
Proof.
  intros Hs. unfold sort.Slice. now rewrite (fold_sift_increasing l []).
Qed.

End keyed.

End sort_facts.

(** ** The store: how each operation changes a chain and the TTL index *)

Module store_facts.

Import store trace.

Lemma lookup_chain_update (s : Store) (key : string) (sh : Shard) (tw : TTLWheel)
    (k : string) :
  lookup_chain (update s key sh tw) k =
  if decide (hash k = hash key) then data sh !! k else lookup_chain s k.
Proof.
  unfold lookup_chain, getShard, update. cbn [shards].
  destruct (Nat.eqb_spec (hash k) (hash key)) as [Heq | Hne];
    destruct (decide (hash k = hash key)); congruence.
Qed.

Lemma index_entry_update (s : Store) (key : string) (sh : Shard) (tw : TTLWheel)
    (k : string) :
  index_entry (update s key sh tw) k = entries tw !! k.
Proof. reflexivity. Qed.

Lemma lookup_chain_Set (s : Store) (now : Z) (key value : string) (ttlMs : Z)
    (k : string) :
  lookup_chain (Store_Set s now key value ttlMs) k =
  if decide (k = key)
  then Some {| Versions :=
                 appended (chain_versions (lookup_chain s key))
                   (version_of (now, value, ttlMs)) |}
  else lookup_chain s k.
Proof.
  unfold Store_Set. rewrite lookup_chain_update. cbn [data].
  destruct (decide (k = key)) as [-> | Hne].
  - rewrite decide_True by reflexivity. rewrite lookup_insert_eq.
    unfold lookup_chain, chain_versions, appended, version_of.
    now destruct (data (getShard s key) !! key).
  - destruct (decide (hash k = hash key)) as [Hh | Hh]; [| reflexivity].
    rewrite lookup_insert_ne by congruence.
    unfold lookup_chain, getShard. now rewrite Hh.
Qed.

Lemma index_entry_Set (s : Store) (now : Z) (key value : string) (ttlMs : Z)
    (k : string) :
  index_entry (Store_Set s now key value ttlMs) k =
  if decide (k = key)
  then (if 0 <? ttlMs then Some (int64.add now ttlMs) else index_entry s key)
  else index_entry s k.
Proof.
  unfold index_entry, Store_Set, update. cbn [ttlWheel].
  destruct (0 <? ttlMs); cbn [TTLWheel_Add entries].
  - destruct (decide (k = key)) as [-> | Hne];
      [apply lookup_insert_eq | now apply lookup_insert_ne].
  - now destruct (decide (k = key)) as [-> | Hne].
Qed.

Lemma lookup_chain_Delete (s : Store) (key k : string) :
  lookup_chain (fst (Store_Delete s key)) k =
  if decide (k = key) then None else lookup_chain s k.
Proof.
  unfold Store_Delete.
  destruct (data (getShard s key) !! key) as [h |] eqn:Hk; cbn [fst].
  - rewrite lookup_chain_update. cbn [data].
    destruct (decide (k = key)) as [-> | Hne].
    + rewrite decide_True by reflexivity. apply lookup_delete_eq.
    + destruct (decide (hash k = hash key)) as [Hh | Hh]; [| reflexivity].
      rewrite lookup_delete_ne by congruence.
      unfold lookup_chain, getShard. now rewrite Hh.
  - destruct (decide (k = key)) as [-> | Hne]; [exact Hk | reflexivity].
Qed.

Lemma index_entry_Delete (s : Store) (key k : string) :
  index_entry (fst (Store_Delete s key)) k =
  if decide (k = key)
  then match lookup_chain s key with
       | Some _ => None
       | None => index_entry s key
       end
  else index_entry s k.
Proof.
  unfold Store_Delete, lookup_chain.
  destruct (data (getShard s key) !! key) as [h |] eqn:Hk; cbn [fst].
  - unfold index_entry, update. cbn [ttlWheel TTLWheel_Remove entries].
    destruct (decide (k = key)) as [-> | Hne];
      [apply lookup_delete_eq | now apply lookup_delete_ne].
  - now destruct (decide (k = key)) as [-> | Hne].
Qed.

Lemma Expire_true (s : Store) (now : Z) (key : string) (ttlMs : Z)
    (history : KeyHistory) (front : list Value) (latest : Value) :
  lookup_chain s key = Some history ->
  Versions history = front ++ [latest] ->
  Store_Expire s now key ttlMs =
  (update s key
     {| data :=
          <[key := {| Versions := front ++ [with_expiry latest (int64.add now ttlMs)] |}]>
            (data (getShard s key)) |}
     (TTLWheel_Add (ttlWheel s) key (int64.add now ttlMs)),
   true).
Proof.
  unfold lookup_chain, Store_Expire. intros -> Hv.
  rewrite Hv, last_snoc, length_app. cbn [length].
  replace (length front + 1 - 1)%nat with (length front + 0)%nat by lia.
  rewrite insert_app_r. reflexivity.
Qed.

Lemma Expire_false (s : Store) (now : Z) (key : string) (ttlMs : Z) :
  chain_versions (lookup_chain s key) = [] ->
  Store_Expire s now key ttlMs = (s, false).
Proof.
  unfold lookup_chain, Store_Expire, chain_versions.
  destruct (data (getShard s key) !! key) as [h |]; [| reflexivity].
  now intros ->.
Qed.

Lemma lookup_chain_Expire (s : Store) (now : Z) (key : string) (ttlMs : Z)
    (k : string) :
  k <> key ->
  lookup_chain (fst (Store_Expire s now key ttlMs)) k = lookup_chain s k.
Proof.
  intros Hne. unfold Store_Expire.
  destruct (data (getShard s key) !! key) as [h |]; [| reflexivity].
  destruct (last (Versions h)); [| reflexivity]. cbn [fst].
  rewrite lookup_chain_update. cbn [data].
  destruct (decide (hash k = hash key)) as [Hh | Hh]; [| reflexivity].
  rewrite lookup_insert_ne by congruence.
  unfold lookup_chain, getShard. now rewrite Hh.
Qed.

Lemma index_entry_Expire (s : Store) (now : Z) (key : string) (ttlMs : Z)
    (k : string) :
  k <> key ->
  index_entry (fst (Store_Expire s now key ttlMs)) k = index_entry s k.
Proof.
  intros Hne. unfold Store_Expire.
  destruct (data (getShard s key) !! key) as [h |]; [| reflexivity].
  destruct (last (Versions h)); [| reflexivity]. cbn [fst].
  unfold index_entry, update. cbn [ttlWheel TTLWheel_Add entries].
  now apply lookup_insert_ne.
Qed.

Lemma tail_Some (s : Store) (k : string) (v : Value) :
  tail s k = Some v <->
  exists history front,
    lookup_chain s k = Some history /\ Versions history = front ++ [v].
Proof.
  unfold tail. split.
  - destruct (lookup_chain s k) as [h |]; [| discriminate].
    intros [front Hf]%last_Some. now exists h, front.
  - intros (h & front & -> & ->). apply last_snoc.
Qed.

Lemma Store_TTL_in_range (s : Store) (now : Z) (k : string) :
  int64.in_range (Store_TTL s now k).
Proof.
  unfold Store_TTL.
  destruct (data (getShard s k) !! k) as [h |]; [| now vm_compute].
  destruct (last (Versions h)) as [v |]; [| now vm_compute].
  destruct (TTL v =? 0); [now vm_compute |].
  destruct (TTL v <=? now); [now vm_compute |].
  apply int64_facts.wrap64_in_range.
Qed.

(** C6. [Store.TTL] follows the sentinel protocol: -2 for a key that is
    missing, has an empty chain, or whose tail carries an expiry the clock
    has reached; -1 for a tail with [expiry_ts = 0]; otherwise the tail's
    expiry minus the clock, computed in [int64], which is that difference
    and positive whenever the stored expiry is an [int64] and the clock is
    not before the epoch. *)
Theorem TTL_sentinel_protocol (s : Store) (now : Z) (k : string) :
  (lookup_chain s k = None -> Store_TTL s now k = -2)
  /\ (forall history,
        lookup_chain s k = Some history -> Versions history = [] ->
        Store_TTL s now k = -2)
  /\ (forall v,
        tail s k = Some v ->
        (TTL v = 0 -> Store_TTL s now k = -1)
        /\ (TTL v <> 0 -> TTL v <= now -> Store_TTL s now k = -2)
        /\ (TTL v <> 0 -> now < TTL v ->
            Store_TTL s now k = int64.sub (TTL v) now
            /\ (int64.in_range (TTL v) -> 0 <= now ->
                Store_TTL s now k = TTL v - now /\ 0 < Store_TTL s now k))).
Proof.
  unfold tail, lookup_chain, Store_TTL.
  split; [now intros -> | split].
  - intros history -> ->. reflexivity.
  - intros v Hv.
    destruct (data (getShard s k) !! k) as [h |]; [| discriminate].
    rewrite Hv. split; [| split].
    + intros ->. reflexivity.
    + intros Hnz Hle.
      destruct (Z.eqb_spec (TTL v) 0) as [? | _]; [contradiction |].
      destruct (Z.leb_spec (TTL v) now); [reflexivity | lia].
    + intros Hnz Hlt.
      destruct (Z.eqb_spec (TTL v) 0) as [? | _]; [contradiction |].
      destruct (Z.leb_spec (TTL v) now); [lia |].
      split; [reflexivity |]. intros Hr Hnow.
      unfold int64.sub. rewrite int64_facts.wrap64_id; [lia |].
      unfold int64.in_range, int64.min, int64.max in *. lia.
Qed.

(** C7. [Store.Expire] reports [true] exactly when the key has a tail; it
    then replaces the tail's expiry by [now + ttlMs] (in [int64]), leaves
    the versions before the tail as they were and records the same value in
    the TTL index; when it reports [false] the store is unchanged. *)
Theorem Expire_applies_iff_key_has_tail (s : Store) (now : Z) (k : string) (ttlMs : Z) :
  let r := Store_Expire s now k ttlMs in
  (snd r = true <-> exists v, tail s k = Some v)
  /\ (forall history front latest,
        lookup_chain s k = Some history ->
        Versions history = front ++ [latest] ->
        let expiration := int64.add now ttlMs in
        snd r = true
        /\ lookup_chain (fst r) k
           = Some {| Versions := front ++ [with_expiry latest expiration] |}
        /\ tail (fst r) k = Some (with_expiry latest expiration)
        /\ index_entry (fst r) k = Some expiration
        /\ (int64.in_range (now + ttlMs) -> expiration = now + ttlMs))
  /\ (snd r = false -> fst r = s).
Proof.
  cbv zeta. split; [| split].
  - split.
    + unfold Store_Expire, tail, lookup_chain.
      destruct (data (getShard s k) !! k) as [h |]; [| discriminate].
      destruct (last (Versions h)) as [v |]; [eauto | discriminate].
    + intros [v (h & front & Hh & Hv)%tail_Some].
      now rewrite (Expire_true s now k ttlMs h front v Hh Hv).
  - intros history front latest Hh Hv.
    rewrite (Expire_true s now k ttlMs history front latest Hh Hv). cbn [fst snd].
    assert (Hc : lookup_chain
                   (update s k
                      {| data :=
                           <[k := {| Versions :=
                                       front ++ [with_expiry latest (int64.add now ttlMs)] |}]>
                             (data (getShard s k)) |}
                      (TTLWheel_Add (ttlWheel s) k (int64.add now ttlMs))) k
                 = Some {| Versions :=
                             front ++ [with_expiry latest (int64.add now ttlMs)] |}).
    { rewrite lookup_chain_update, decide_True by reflexivity.
      cbn [data]. apply lookup_insert_eq. }
    split; [reflexivity | split; [exact Hc | split; [| split]]].
    + unfold tail. rewrite Hc. cbn [Versions]. apply last_snoc.
    + unfold index_entry, update. cbn [ttlWheel TTLWheel_Add entries].
      apply lookup_insert_eq.
    + intros Hr. unfold int64.add. now apply int64_facts.wrap64_id.
  - unfold Store_Expire.
    destruct (data (getShard s k) !! k) as [h |]; [| reflexivity].
    destruct (last (Versions h)); [discriminate | reflexivity].
Qed.

End store_facts.

(** ** The command handlers *)

Module server_facts.

Import proto store server trace wire.

Lemma handleTTL_quot (s : Store) (now : Z) (k : string) :
  handleTTL s now [k] = with_int Integer (Z.quot (Store_TTL s now k) 1000).
Proof.
  unfold handleTTL, int64.div.
  rewrite int64_facts.wrap64_id; [reflexivity |].
  apply int64_facts.quot_1000_in_range, store_facts.Store_TTL_in_range.
Qed.

(** C1. The response of [TTL key] is the Integer [store.TTL(key) / 1000]
    with Go's truncating division, so the sentinels do not survive: for a
    missing or expired key ([-2]) and for a key without expiration ([-1])
    the response is Integer 0, and the frame written for a key that was
    never set is [:0] followed by CR LF. *)
Theorem handleTTL_truncates_sentinels (s : Store) (now : Z) (k : string) :
  handleTTL s now [k] = with_int Integer (Z.quot (Store_TTL s now k) 1000)
  /\ (Store_TTL s now k = -2 -> handleTTL s now [k] = with_int Integer 0)
  /\ (Store_TTL s now k = -1 -> handleTTL s now [k] = with_int Integer 0)
  /\ Store_TTL NewStore now k = -2
  /\ serialize (handleTTL NewStore now [k]) = String ":" (String "0" CRLF).
Proof.
  split; [apply handleTTL_quot | split; [| split; [| split]]].
  - intros H. now rewrite handleTTL_quot, H.
  - intros H. now rewrite handleTTL_quot, H.
  - reflexivity.
  - rewrite handleTTL_quot. reflexivity.
Qed.

Lemma hist_result_length (history : list Value) :
  length (hist_result history) = (2 * length history)%nat.
Proof. induction history as [| v l IH]; simpl; lia. Qed.

Lemma hist_result_lookup (history : list Value) (i : nat) (version : Value) :
  history !! i = Some version ->
  hist_result history !! (2 * i)%nat = Some (with_int Integer (Timestamp version))
  /\ hist_result history !! (2 * i + 1)%nat
     = Some (with_string BulkString (Data version)).
Proof.
  revert i. induction history as [| v l IH]; intros i Hi; [discriminate |].
  destruct i as [| i].
  - injection Hi as ->. split; reflexivity.
  - replace (2 * S i)%nat with (S (S (2 * i))) by lia.
    replace (S (S (2 * i)) + 1)%nat with (S (S (2 * i + 1))) by lia.
    cbn [hist_result]. simpl in Hi. exact (IH i Hi).
Qed.

End server_facts.

(** ** Version chains: retention, snapshot reads and history *)

Module mvcc_facts.

Import store trace.

Lemma appended_retained (old : list Value) (val : Value) :
  appended old val = retained (old ++ [val]).
Proof.
  unfold appended, retained.
  destruct (Nat.ltb_spec MaxVersions (length (old ++ [val]))) as [Hlt | Hge];
    [reflexivity |].
  replace (length (old ++ [val]) - MaxVersions)%nat with 0%nat by lia.
  reflexivity.
Qed.

Lemma retained_snoc {A : Type} (l : list A) (x : A) :
  retained (retained l ++ [x]) = retained (l ++ [x]).
Proof.
  unfold retained, MaxVersions.
  rewrite !length_app, length_drop. cbn [length].
  rewrite !drop_app_le by (rewrite ?length_drop; lia).
  rewrite drop_drop. f_equal. f_equal. lia.
Qed.

Lemma retained_length {A : Type} (l : list A) :
  length (retained l) = Nat.min (length l) MaxVersions.
Proof. unfold retained. rewrite length_drop. lia. Qed.

Lemma set_all_snoc (s : Store) (k : string) (ws : list Write) (w : Write) :
  set_all s k (ws ++ [w])
  = Store_Set (set_all s k ws) (write_now w) k (write_value w) (write_ttl w).
Proof. unfold set_all. now rewrite fold_left_app. Qed.

(** After the writes [ws] to a key that had no chain, its chain holds the
    versions of the latest [MaxVersions] writes, oldest first. *)
Lemma set_all_chain (s : Store) (k : string) (ws : list Write) :
  chain_versions (lookup_chain s k) = [] ->
  chain_versions (lookup_chain (set_all s k ws) k) = retained (map version_of ws).
Proof.
  intros Hk. induction ws as [| w ws IH] using rev_ind; [exact Hk |].
  rewrite set_all_snoc, store_facts.lookup_chain_Set, decide_True by reflexivity.
  cbn [chain_versions Versions]. rewrite IH, appended_retained, map_app.
  destruct w as [[now value] ttlMs]. apply retained_snoc.
Qed.

Lemma GetAt_chain (s : Store) (k : string) (ts : Z) :
  Store_GetAt s k ts =
  GetAt_scan (chain_versions (lookup_chain s k))
    (length (chain_versions (lookup_chain s k))) ts.
Proof.
  unfold Store_GetAt, lookup_chain.
  now destruct (data (getShard s k) !! k).
Qed.

Lemma History_chain (s : Store) (k : string) (limit : Z) :
  Store_History s k limit =
  let versions :=
    sort.Slice (fun a b => Timestamp b <? Timestamp a)
      (chain_versions (lookup_chain s k)) in
  if (0 <? limit) && (limit <? Z.of_nat (length versions))
  then take (Z.to_nat limit) versions
  else versions.
Proof.
  unfold Store_History, lookup_chain.
  destruct (data (getShard s k) !! k); [reflexivity |].
  change (sort.Slice (fun a b => Timestamp b <? Timestamp a) (chain_versions None))
    with (@nil Value).
  cbv zeta. rewrite take_nil. now destruct ((0 <? limit) && _).
Qed.

Lemma select_at_snoc (l : list Value) (v : Value) (ts : Z) :
  select_at (l ++ [v]) ts =
  if Timestamp v <=? ts then Some v else select_at l ts.
Proof.
  unfold select_at. rewrite filter_app.
  destruct (Z.leb_spec (Timestamp v) ts) as [Hle | Hgt].
  - rewrite (filter_cons_True _ v []) by exact Hle. apply last_snoc.
  - rewrite (filter_cons_False _ v []) by lia. now rewrite app_nil_r.
Qed.

(** The backward scan finds what the specification selects. *)
Lemma GetAt_scan_select (versions : list Value) (n : nat) (ts : Z) :
  (n <= length versions)%nat ->
  GetAt_scan versions n ts =
  match select_at (take n versions) ts with
  | None => None
  | Some v => if visible_at v ts then Some (Data v) else None
  end.
Proof.
  induction n as [| i IH]; intros Hn.
  - reflexivity.
  - destruct (lookup_lt_is_Some_2 versions i ltac:(lia)) as [v Hv].
    cbn [GetAt_scan]. rewrite Hv, (take_S_r _ _ _ Hv), select_at_snoc.
    destruct (Timestamp v <=? ts).
    + unfold visible_at. now destruct ((0 <? TTL v) && (TTL v <=? ts)).
    + apply IH. lia.
Qed.

Lemma GetAt_refines_spec (s : Store) (k : string) (ts : Z) :
  Store_GetAt s k ts = GetAt_spec (lookup_chain s k) ts.
Proof.
  unfold Store_GetAt, GetAt_spec, lookup_chain.
  destruct (data (getShard s k) !! k) as [h |]; [| reflexivity].
  rewrite GetAt_scan_select by lia. now rewrite firstn_all.
Qed.

Lemma select_at_later (l : list Value) (v : Value) (later : list Value) (ts : Z) :
  Forall (fun b => ts < Timestamp b) later ->
  select_at (l ++ v :: later) ts = select_at (l ++ [v]) ts.
Proof.
  induction later as [| b later IH] using rev_ind; intros Hl; [reflexivity |].
  apply Forall_app in Hl as [Hl Hb]. rewrite Forall_singleton in Hb.
  replace (l ++ v :: later ++ [b]) with ((l ++ v :: later) ++ [b])
    by (now rewrite <- app_assoc).
  rewrite select_at_snoc. destruct (Z.leb_spec (Timestamp b) ts); [lia |].
  now apply IH.
Qed.

Lemma select_at_all (l : list Value) (ts : Z) :
  Forall (fun a => Timestamp a <= ts) l -> select_at l ts = last l.
Proof.
  induction l as [| a l IH] using rev_ind; intros Hl; [reflexivity |].
  apply Forall_app in Hl as [Hl Ha]. rewrite Forall_singleton in Ha.
  rewrite select_at_snoc, last_snoc.
  destruct (Z.leb_spec (Timestamp a) ts); [reflexivity | lia].
Qed.

Lemma last_drop {A : Type} (l : list A) (d : nat) :
  last (drop d l) = if (d <? length l)%nat then last l else None.
Proof.
  destruct (Nat.ltb_spec d (length l)) as [Hlt | Hge].
  - rewrite !last_lookup, length_drop, lookup_drop. f_equal. lia.
  - now rewrite drop_ge.
Qed.

Lemma sorted_writes_split (before : list Write) (w : Write) (after : list Write) :
  StronglySorted Z.lt (map write_now (before ++ w :: after)) ->
  Forall (fun a => write_now a < write_now w) before
  /\ Forall (fun b => write_now w < write_now b) after.
Proof.
  rewrite map_app. cbn [map]. intros Hs.
  apply StronglySorted_app in Hs as (Hlt & _ & Hw).
  apply StronglySorted_cons in Hw as [Hw _]. split.
  - apply Forall_forall. intros a Ha. apply Hlt.
    + apply list_elem_of_fmap. now exists a.
    + now left.
  - rewrite Forall_fmap in Hw. exact Hw.
Qed.

(** C3. [GetAt] returns what the specification describes: the last version
    of the chain written at or before [ts], unless none exists or that
    version carries an expiry that [ts] has reached. After writes
    [Set(k, v_i, 0)] at strictly increasing timestamps to a key without a
    chain, every write [w] that is still retained (fewer than [MaxVersions]
    writes follow it) is read back at its own timestamp, and one millisecond
    earlier the read yields the value of the write before it when that one is
    retained too, and nothing otherwise. *)
Theorem GetAt_snapshot_of_retained_writes (s0 : Store) (k : string) (ws : list Write) :
  chain_versions (lookup_chain s0 k) = [] ->
  Forall (fun w => write_ttl w = 0) ws ->
  StronglySorted Z.lt (map write_now ws) ->
  (forall (s : Store) (key : string) (ts : Z),
      Store_GetAt s key ts = GetAt_spec (lookup_chain s key) ts)
  /\ forall before w after,
       ws = before ++ w :: after ->
       (length after < MaxVersions)%nat ->
       Store_GetAt (set_all s0 k ws) k (write_now w) = Some (write_value w)
       /\ Store_GetAt (set_all s0 k ws) k (write_now w - 1)
          = match last before with
            | Some prev =>
                if (length after + 1 <? MaxVersions)%nat
                then Some (write_value prev)
                else None
            | None => None
            end.
Proof.
  intros Hk Httl Hsorted. split; [apply GetAt_refines_spec |].
  intros before w after -> Hafter.
  destruct (sorted_writes_split _ _ _ Hsorted) as [Hbefore Hlater].
  apply Forall_app in Httl as [Htb Htw].
  apply Forall_cons in Htw as [Htw _].
  rewrite !GetAt_chain, (set_all_chain _ _ _ Hk), !GetAt_scan_select by lia.
  rewrite firstn_all. unfold retained. rewrite map_app. cbn [map].
  rewrite length_app, length_map. cbn [length]. rewrite length_map.
  set (d := (length before + S (length after) - MaxVersions)%nat).
  assert (Hd : (d <= length before)%nat) by (unfold d, MaxVersions in *; lia).
  rewrite drop_app_le by (now rewrite length_map).
  assert (Hl : Forall (fun b => write_now w < Timestamp b) (map version_of after)).
  { rewrite Forall_fmap. exact Hlater. }
  split.
  - rewrite select_at_later by exact Hl. rewrite select_at_snoc.
    cbn [version_of Timestamp]. destruct (Z.leb_spec (write_now w) (write_now w)); [| lia].
    unfold visible_at, version_of. cbn [TTL Data]. rewrite Htw. reflexivity.
  - rewrite select_at_later
      by (eapply Forall_impl; [exact Hl |]; cbn; intros; lia).
    rewrite select_at_snoc. cbn [version_of Timestamp].
    destruct (Z.leb_spec (write_now w) (write_now w - 1)); [lia |].
    rewrite select_at_all.
    + rewrite last_drop, length_map, fmap_last.
      assert (Hcase : before = [] \/ before <> []) by (destruct before; [now left | now right]).
      destruct Hcase as [-> | Hne]; [now destruct (d <? 0)%nat |].
      destruct (last before) as [prev |] eqn:Hlast;
        [| now apply last_None in Hlast].
      assert (Hlen : (0 < length before)%nat) by (destruct before; [congruence | cbn; lia]).
      assert (Hprev : write_ttl prev = 0).
      { apply last_Some in Hlast as [front ->].
        apply Forall_app in Htb as [_ Hp]. now rewrite Forall_singleton in Hp. }
      destruct (Nat.ltb_spec d (length before)) as [Hlt | Hge];
        destruct (Nat.ltb_spec (length after + 1) MaxVersions) as [Hlt' | Hge'];
        unfold d, MaxVersions in *; try lia.
      * cbn [fmap option_fmap option_map]. unfold visible_at, version_of.
        cbn [TTL Data]. rewrite Hprev. reflexivity.
      * reflexivity.
    + apply Forall_drop. rewrite Forall_fmap.
      eapply Forall_impl; [exact Hbefore |].
      cbn. unfold version_of. cbn [Timestamp]. intros a Ha. lia.
Qed.

(** Witness of C3: three writes, all retained. *)
Lemma GetAt_snapshot_of_retained_writes_witness :
  Store_GetAt (set_all NewStore "k" (numbered_writes 1700000000000 3)) "k"
    1700000000002 = Some "v2"
  /\ Store_GetAt (set_all NewStore "k" (numbered_writes 1700000000000 3)) "k"
       (1700000000002 - 1) = Some "v1".
Proof.
  destruct (GetAt_snapshot_of_retained_writes NewStore "k"
              (numbered_writes 1700000000000 3) eq_refl
              ltac:(vm_compute; repeat constructor)
              ltac:(vm_compute; repeat constructor)) as [_ H].
  exact (H [(1700000000001, "v1", 0)] (1700000000002, "v2", 0)
           [(1700000000003, "v3", 0)] eq_refl ltac:(cbn; unfold MaxVersions; lia)).
Defined.

(** Counterexample to C3 as stated: after eleven writes the first one is no
    longer retained, so a read at its timestamp finds nothing. *)
Lemma GetAt_first_of_eleven_writes :
  map write_now (numbered_writes 1700000000000 11)
  = [1700000000001; 1700000000002; 1700000000003; 1700000000004;
     1700000000005; 1700000000006; 1700000000007; 1700000000008;
     1700000000009; 1700000000010; 1700000000011]
  /\ head (numbered_writes 1700000000000 11) = Some (1700000000001, "v1", 0)
  /\ Store_GetAt (set_all NewStore "k" (numbered_writes 1700000000000 11)) "k"
       1700000000001 = None
  /\ Store_GetAt (set_all NewStore "k" (numbered_writes 1700000000000 11)) "k"
       (1700000000002 - 1) = None.
Proof. vm_compute. repeat split. Qed.

Lemma sorted_fmap {A : Type} (key : A -> Z) (l : list A) :
  StronglySorted Z.lt (map key l) ->
  StronglySorted (fun a b => key a < key b) l.
Proof.
  induction l as [| x l IH]; cbn [map]; [constructor |].
  intros [Hx Hl]%StronglySorted_cons. constructor; [now apply IH |].
  now rewrite Forall_fmap in Hx.
Qed.

Lemma sorted_drop {A : Type} (R : A -> A -> Prop) (l : list A) (n : nat) :
  StronglySorted R l -> StronglySorted R (drop n l).
Proof.
  intros Hs. rewrite <- (take_drop n l) in Hs.
  now apply StronglySorted_app_1_r in Hs.
Qed.

Lemma rev_retained {A : Type} (l : list A) :
  rev (retained l) = take MaxVersions (rev l).
Proof. unfold retained. symmetry. apply firstn_rev. Qed.

Lemma Data_version_of (ws : list Write) :
  map Data (map version_of ws) = map write_value ws.
Proof. rewrite map_map. reflexivity. Qed.

Lemma History_limit (s : Store) (k : string) (limit : Z) :
  0 < limit ->
  Store_History s k limit = take (Z.to_nat limit) (Store_History s k 0).
Proof.
  intros Hl. rewrite !History_chain. cbv zeta.
  change (0 <? 0) with false. cbn [andb].
  destruct (Z.ltb_spec 0 limit); [| lia]. cbn [andb].
  destruct (Z.ltb_spec limit
              (Z.of_nat (length (sort.Slice (fun a b => Timestamp b <? Timestamp a)
                                   (chain_versions (lookup_chain s k))))));
    [reflexivity | rewrite take_ge; [reflexivity | lia]].
Qed.

(** C4. After the writes [ws] to key [k] of an empty store, [History(k, 0)]
    holds [min(n, MaxVersions)] versions in non-increasing order of write
    timestamp, and they are the retained versions; when the write timestamps
    increase strictly their values are those of the latest writes, most
    recent first; a positive [limit] cuts the result to its first [limit]
    entries. *)
Theorem History_after_writes (k : string) (ws : list Write) :
  let history := Store_History (set_all NewStore k ws) k 0 in
  length history = Nat.min (length ws) MaxVersions
  /\ StronglySorted (fun a b => Timestamp b <= Timestamp a) history
  /\ history ≡ₚ retained (map version_of ws)
  /\ (StronglySorted Z.lt (map write_now ws) ->
      map Data history = take MaxVersions (rev (map write_value ws)))
  /\ (forall limit,
        0 < limit ->
        Store_History (set_all NewStore k ws) k limit
        = take (Z.to_nat limit) history).
Proof.
  cbv zeta. rewrite History_chain. cbv zeta.
  change (0 <? 0) with false. cbn [andb].
  rewrite (set_all_chain NewStore k ws eq_refl).
  split; [| split; [| split; [| split]]].
  - rewrite (sort_facts.Slice_length Timestamp), retained_length, length_map.
    reflexivity.
  - apply (sort_facts.Slice_sorted Timestamp).
  - apply (sort_facts.Slice_perm Timestamp).
  - intros Hs.
    rewrite (sort_facts.Slice_increasing Timestamp).
    + rewrite rev_retained, <- map_rev, <- (map_rev write_value).
      rewrite <- !firstn_map, !map_rev, Data_version_of. reflexivity.
    + apply sorted_drop, (sorted_fmap Timestamp).
      rewrite map_map. exact Hs.
  - intros limit Hl. rewrite (History_limit _ _ _ Hl), History_chain. cbv zeta.
    change (0 <? 0) with false. cbn [andb].
    now rewrite (set_all_chain NewStore k ws eq_refl).
Qed.

(** Witness of C4: fifteen writes one millisecond apart. *)
Lemma History_after_writes_witness :
  map Data (Store_History (set_all NewStore "k" (numbered_writes 1700000000000 15)) "k" 0)
  = ["v15"; "v14"; "v13"; "v12"; "v11"; "v10"; "v9"; "v8"; "v7"; "v6"].
Proof.
  destruct (History_after_writes "k" (numbered_writes 1700000000000 15))
    as (_ & _ & _ & H & _).
  exact (H ltac:(vm_compute; repeat constructor)).
Defined.

(** Counterexample to C4 as stated: fifteen writes within one millisecond
    carry the same timestamp, the comparison of [History] never holds, and the
    ten retained values come back oldest first. *)
Lemma History_of_simultaneous_writes :
  map write_value (simultaneous_writes 1700000000000 15)
  = ["v1"; "v2"; "v3"; "v4"; "v5"; "v6"; "v7"; "v8"; "v9"; "v10"; "v11"; "v12";
     "v13"; "v14"; "v15"]
  /\ map Data
       (Store_History (set_all NewStore "k" (simultaneous_writes 1700000000000 15))
          "k" 0)
     = ["v6"; "v7"; "v8"; "v9"; "v10"; "v11"; "v12"; "v13"; "v14"; "v15"].
Proof. vm_compute. split; reflexivity. Qed.

End mvcc_facts.

(** ** internal/server: the response of HIST *)

Module hist_facts.

Import proto store server trace.

Lemma sorted_take {A : Type} (R : A -> A -> Prop) (l : list A) (n : nat) :
  StronglySorted R l -> StronglySorted R (take n l).
Proof.
  intros H. rewrite <- (take_drop n l) in H.
  now apply StronglySorted_app_1_l in H.
Qed.

Lemma History_all (s : Store) (k : string) :
  Store_History s k 0
  = sort.Slice (fun a b => Timestamp b <? Timestamp a)
      (chain_versions (lookup_chain s k)).
Proof. now rewrite mvcc_facts.History_chain. Qed.

Lemma History_sorted (s : Store) (k : string) (limit : Z) :
  StronglySorted (fun a b => Timestamp b <= Timestamp a) (Store_History s k limit).
Proof.
  rewrite mvcc_facts.History_chain. cbv zeta.
  destruct ((0 <? limit) && _); [apply sorted_take |];
    apply (sort_facts.Slice_sorted Timestamp).
Qed.

(** C10. [HIST key [limit]] answers with a non-null Array that flattens
    [History(key, limit)] in its order: slot [2i] is the Integer write
    timestamp and slot [2i+1] the BulkString value of entry [i], so it has
    twice as many elements as the history. That order is the one of
    non-increasing write timestamps over the versions of the chain, cut to
    the first [limit] entries for a positive limit; it is newest pair first,
    the chain in reverse, when the write timestamps along the chain are
    strictly increasing. For a key that is not stored the history is empty
    and the frame is the empty array, star 0 CR LF. *)
Theorem handleHist_flattens_history (s : Store) (key : string) :
  handleHist s [key] = with_array Array (hist_result (Store_History s key 0))
  /\ (forall limitStr limit,
        strconv.Atoi limitStr = Some limit -> 0 <= limit ->
        handleHist s [key; limitStr]
        = with_array Array (hist_result (Store_History s key limit)))
  /\ (forall history,
        Null_ (with_array Array (hist_result history)) = false
        /\ length (Array_ (with_array Array (hist_result history)))
           = (2 * length history)%nat
        /\ forall i version,
             history !! i = Some version ->
             hist_result history !! (2 * i)%nat
             = Some (with_int Integer (Timestamp version))
             /\ hist_result history !! (2 * i + 1)%nat
                = Some (with_string BulkString (Data version)))
  /\ (forall limit,
        StronglySorted (fun a b => Timestamp b <= Timestamp a)
          (Store_History s key limit))
  /\ Store_History s key 0 ≡ₚ chain_versions (lookup_chain s key)
  /\ (forall limit,
        0 < limit ->
        Store_History s key limit = take (Z.to_nat limit) (Store_History s key 0))
  /\ (StronglySorted (fun a b => Timestamp a < Timestamp b)
        (chain_versions (lookup_chain s key)) ->
      Store_History s key 0 = rev (chain_versions (lookup_chain s key)))
  /\ (lookup_chain s key = None ->
      (forall limit, Store_History s key limit = [])
      /\ handleHist s [key] = with_array Array []
      /\ WriteValue (handleHist s [key]) = (String "*" (String "0" CRLF), None)).
Proof.
  split; [reflexivity | split; [| split; [| split; [| split; [| split; [| split]]]]]].
  - intros limitStr limit HA Hl. unfold handleHist. rewrite HA.
    destruct (Z.ltb_spec limit 0); [lia | reflexivity].
  - intros history. split; [reflexivity | split].
    + apply server_facts.hist_result_length.
    + apply server_facts.hist_result_lookup.
  - intros limit. apply History_sorted.
  - rewrite History_all. apply (sort_facts.Slice_perm Timestamp).
  - intros limit. apply mvcc_facts.History_limit.
  - intros Hincreasing. rewrite History_all.
    now apply (sort_facts.Slice_increasing Timestamp).
  - unfold lookup_chain. intros Hk.
    assert (HH : forall limit, Store_History s key limit = [])
      by (intros limit; unfold Store_History; now rewrite Hk).
    split; [exact HH | ]. unfold handleHist. rewrite HH. split; reflexivity.
Qed.

(** Counterexample to C10 as stated: two writes within one millisecond.
    The comparison of [History] is strict and the sort of at most twelve
    elements moves no element past an equal one, so the pair of the first
    write comes first, and [HIST] with limit 1 answers the older value. *)
Lemma HIST_of_two_writes_in_one_millisecond :
  map write_value (simultaneous_writes 1700000000000 2) = ["v1"; "v2"]
  /\ handleHist (set_all NewStore "k" (simultaneous_writes 1700000000000 2)) ["k"]
     = with_array Array
         [with_int Integer 1700000000000; with_string BulkString "v1";
          with_int Integer 1700000000000; with_string BulkString "v2"]
  /\ handleHist (set_all NewStore "k" (simultaneous_writes 1700000000000 2))
       ["k"; "1"]
     = with_array Array
         [with_int Integer 1700000000000; with_string BulkString "v1"].
Proof. vm_compute. repeat split. Qed.

End hist_facts.

(** ** The TTL index against the chain tails *)

Module ttl_index_facts.

Import store trace.

Lemma tail_Set (s : Store) (now : Z) (key value : string) (ttlMs : Z) :
  tail (Store_Set s now key value ttlMs) key = Some (version_of (now, value, ttlMs)).
Proof.
  unfold tail. rewrite store_facts.lookup_chain_Set, decide_True by reflexivity.
  cbn [Versions]. rewrite mvcc_facts.appended_retained. unfold retained.
  rewrite mvcc_facts.last_drop, last_snoc, length_app. cbn [length].
  destruct (Nat.ltb_spec (length (chain_versions (lookup_chain s key)) + 1
                          - MaxVersions)
              (length (chain_versions (lookup_chain s key)) + 1));
    [reflexivity | unfold MaxVersions in *; lia].
Qed.

Lemma tail_other (s s' : Store) (k : string) :
  lookup_chain s' k = lookup_chain s k -> tail s' k = tail s k.
Proof. unfold tail. now intros ->. Qed.

Lemma Set_preserves (s : Store) (now : Z) (key value : string) (ttlMs : Z) :
  index_tracks_tail s -> index_tracks_tail (Store_Set s now key value ttlMs).
Proof.
  intros Hinv k x. rewrite store_facts.index_entry_Set.
  destruct (decide (k = key)) as [-> | Hne].
  - intros Hx. exists (version_of (now, value, ttlMs)).
    split; [apply tail_Set |]. unfold version_of, write_ttl, write_now.
    cbn [fst snd TTL]. destruct (0 <? ttlMs); [congruence | contradiction].
  - intros Hx. destruct (Hinv k x Hx) as (v & Hv & Httl).
    exists v. split; [| exact Httl]. rewrite <- Hv. apply tail_other.
    now rewrite store_facts.lookup_chain_Set, decide_False.
Qed.

Lemma Delete_preserves (s : Store) (key : string) :
  index_tracks_tail s -> index_tracks_tail (fst (Store_Delete s key)).
Proof.
  intros Hinv k x. rewrite store_facts.index_entry_Delete.
  destruct (decide (k = key)) as [-> | Hne].
  - destruct (lookup_chain s key) as [h |] eqn:Hk; [discriminate |].
    intros Hx. destruct (Hinv key x Hx) as (v & Hv & _).
    unfold tail in Hv. now rewrite Hk in Hv.
  - intros Hx. destruct (Hinv k x Hx) as (v & Hv & Httl).
    exists v. split; [| exact Httl]. rewrite <- Hv. apply tail_other.
    now rewrite store_facts.lookup_chain_Delete, decide_False.
Qed.

Lemma Expire_preserves (s : Store) (now : Z) (key : string) (ttlMs : Z) :
  index_tracks_tail s -> index_tracks_tail (fst (Store_Expire s now key ttlMs)).
Proof.
  intros Hinv k x. destruct (decide (k = key)) as [-> | Hne].
  - destruct (tail s key) as [latest |] eqn:Ht.
    + apply store_facts.tail_Some in Ht as (h & front & Hh & Hv).
      rewrite (store_facts.Expire_true s now key ttlMs h front latest Hh Hv).
      cbn [fst]. rewrite store_facts.index_entry_update.
      cbn [TTLWheel_Add entries]. rewrite lookup_insert_eq. intros [= <-].
      exists (with_expiry latest (int64.add now ttlMs)). split; [| reflexivity].
      unfold tail. rewrite store_facts.lookup_chain_update, decide_True by reflexivity.
      cbn [data]. rewrite lookup_insert_eq. cbn [Versions]. apply last_snoc.
    + rewrite store_facts.Expire_false; [cbn [fst]; apply Hinv |].
      unfold tail in Ht. unfold chain_versions.
      destruct (lookup_chain s key) as [h |]; [| reflexivity].
      now apply last_None.
  - rewrite store_facts.index_entry_Expire by exact Hne.
    intros Hx. destruct (Hinv k x Hx) as (v & Hv & Httl).
    exists v. split; [| exact Httl]. rewrite <- Hv. apply tail_other.
    now apply store_facts.lookup_chain_Expire.
Qed.

(** [GetExpired] only removes entries, and every key it returns is gone
    from the wheel. *)
Lemma GetExpired_fold (now : Z) (l : list (string * Z))
    (expired0 : list string) (m0 : gmap string Z) :
  (forall k, k ∈ expired0 -> m0 !! k = None) ->
  let r := fold_left (GetExpired_step now) l (expired0, m0) in
  (forall k x, snd r !! k = Some x -> m0 !! k = Some x)
  /\ (forall k, k ∈ fst r -> snd r !! k = None).
Proof.
  revert expired0 m0. induction l as [| [key expiration] l IH];
    intros expired0 m0 Hgone; cbn [fold_left].
  - split; [auto | exact Hgone].
  - cbn [GetExpired_step]. destruct (expiration <=? now).
    + destruct (IH (expired0 ++ [key]) (delete key m0)) as [Hsub Hdel].
      { intros k [Hk | Hk]%elem_of_app.
        - destruct (decide (k = key)) as [-> | Hne];
            [apply lookup_delete_eq | rewrite lookup_delete_ne by congruence; auto].
        - apply list_elem_of_singleton in Hk as ->. apply lookup_delete_eq. }
      split; [| exact Hdel]. intros k x Hx. specialize (Hsub k x Hx).
      destruct (decide (key = k)) as [-> | Hne];
        [now rewrite lookup_delete_eq in Hsub
        | now rewrite lookup_delete_ne in Hsub].
    + now apply IH.
Qed.

Lemma expireKeys_step_wheel (now : Z) (s : Store) (key : string) :
  ttlWheel (expireKeys_step now s key) = ttlWheel s.
Proof.
  unfold expireKeys_step.
  destruct (data (getShard s key) !! key) as [h |]; [| reflexivity].
  destruct (last (Versions h)) as [v |]; [| reflexivity].
  now destruct ((0 <? TTL v) && (TTL v <=? now)).
Qed.

Lemma expireKeys_step_other (now : Z) (s : Store) (key k : string) :
  k <> key -> lookup_chain (expireKeys_step now s key) k = lookup_chain s k.
Proof.
  intros Hne. unfold expireKeys_step.
  destruct (data (getShard s key) !! key) as [h |]; [| reflexivity].
  destruct (last (Versions h)) as [v |]; [| reflexivity].
  destruct ((0 <? TTL v) && (TTL v <=? now)); [| reflexivity].
  rewrite store_facts.lookup_chain_update. cbn [data].
  destruct (decide (hash k = hash key)) as [Hh | Hh]; [| reflexivity].
  rewrite lookup_delete_ne by congruence.
  unfold lookup_chain, getShard. now rewrite Hh.
Qed.

Lemma expireKeys_fold (now : Z) (keys : list string) (s : Store) (k : string) :
  k ∉ keys ->
  ttlWheel (fold_left (expireKeys_step now) keys s) = ttlWheel s
  /\ lookup_chain (fold_left (expireKeys_step now) keys s) k = lookup_chain s k.
Proof.
  revert s. induction keys as [| key keys IH]; intros s Hk; cbn [fold_left];
    [now split |].
  apply not_elem_of_cons in Hk as [Hne Hk].
  destruct (IH (expireKeys_step now s key) Hk) as [Hw Hc].
  rewrite Hw, Hc, expireKeys_step_wheel.
  split; [reflexivity | now apply expireKeys_step_other].
Qed.

Lemma expireKeys_fold_wheel (now : Z) (keys : list string) (s : Store) :
  ttlWheel (fold_left (expireKeys_step now) keys s) = ttlWheel s.
Proof.
  revert s. induction keys as [| key keys IH]; intros s; cbn [fold_left];
    [reflexivity | now rewrite IH, expireKeys_step_wheel].
Qed.

Lemma expireKeys_preserves (s : Store) (now : Z) :
  index_tracks_tail s -> index_tracks_tail (Store_expireKeys s now).
Proof.
  intros Hinv k x. unfold Store_expireKeys, TTLWheel_GetExpired.
  pose proof (GetExpired_fold now (map_to_list (entries (ttlWheel s))) []
                (entries (ttlWheel s))) as Hfold.
  destruct (fold_left (GetExpired_step now) (map_to_list (entries (ttlWheel s)))
              ([], entries (ttlWheel s))) as [expired m].
  cbv zeta in Hfold. cbn [fst snd] in Hfold.
  destruct Hfold as [Hsub Hdel]; [intros k' Hk'; now apply elem_of_nil in Hk' |].
  unfold index_entry. rewrite expireKeys_fold_wheel. cbn [ttlWheel entries].
  intros Hx.
  assert (Hk : k ∉ expired).
  { intros Hin. specialize (Hdel k Hin). congruence. }
  destruct (Hinv k x (Hsub k x Hx)) as (v & Hv & Httl).
  exists v. split; [| exact Httl]. rewrite <- Hv. apply tail_other.
  destruct (expireKeys_fold now expired
              {| shards := shards s; ttlWheel := {| entries := m |} |} k Hk)
    as [_ Hc].
  rewrite Hc. reflexivity.
Qed.

Lemma step_preserves (s : Store) (e : Z * Op) :
  index_tracks_tail s -> index_tracks_tail (step s e).
Proof.
  destruct e as [now op]. destruct op; cbn [step]; intros Hinv;
    [ now apply Set_preserves | exact Hinv | exact Hinv | now apply Delete_preserves
    | now apply Expire_preserves | exact Hinv | exact Hinv
    | now apply expireKeys_preserves ].
Qed.

Lemma run_preserves (es : list (Z * Op)) (s : Store) :
  index_tracks_tail s -> index_tracks_tail (run s es).
Proof.
  revert s. induction es as [| e es IH]; intros s Hinv; cbn [run fold_left];
    [exact Hinv | apply IH, step_preserves, Hinv].
Qed.

Lemma NewStore_index_tracks_tail : index_tracks_tail NewStore.
Proof. intros k x Hx. discriminate Hx. Qed.

(** C2. [Set] with [ttlMs = 0] leaves the TTL index as it was: an entry of
    the key stays. After any sequence of store operations from the empty
    store, a key with a TTL-index entry has a chain tail, and the entry
    equals the tail's expiry whenever that expiry is not zero. *)
Theorem index_entry_matches_timed_tail (es : list (Z * Op)) (k : string) (x : Z) :
  index_entry (run NewStore es) k = Some x ->
  (exists v, tail (run NewStore es) k = Some v /\ (TTL v <> 0 -> TTL v = x))
  /\ (forall now key value,
        ttlWheel (Store_Set (run NewStore es) now key value 0)
        = ttlWheel (run NewStore es))
  /\ (forall now value,
        index_entry (Store_Set (run NewStore es) now k value 0) k = Some x).
Proof.
  intros Hx. split; [| split].
  - exact (run_preserves es NewStore NewStore_index_tracks_tail k x Hx).
  - reflexivity.
  - intros now value. rewrite store_facts.index_entry_Set, decide_True by reflexivity.
    exact Hx.
Qed.

(** Witness of C2: the entry left by a write with a TTL of 100 ms. *)
Lemma index_entry_matches_timed_tail_witness :
  exists v,
    tail (run NewStore [(1700000000000, OpSet "k" "v" 100)]) "k" = Some v
    /\ (TTL v <> 0 -> TTL v = 1700000000100).
Proof.
  exact (proj1 (index_entry_matches_timed_tail
                  [(1700000000000, OpSet "k" "v" 100)] "k" 1700000000100
                  ltac:(vm_compute; reflexivity))).
Defined.

(** Counterexample to C2 as stated: the second write clears nothing, so the
    index keeps the expiry of the first while the tail has none. *)
Lemma ttl_index_entry_survives_Set_without_ttl :
  index_entry (run NewStore set_then_set_without_ttl) "k" = Some 1700000000100
  /\ tail (run NewStore set_then_set_without_ttl) "k"
     = Some {| Data := "w"; Timestamp := 1700000000001; TTL := 0 |}.
Proof. vm_compute. split; reflexivity. Qed.

End ttl_index_facts.

(** ** EXPIRE with an arbitrary number of seconds *)

Module expire_facts.

Import proto store server trace.

Lemma handleExpire_on_tail (s0 : Store) (now : Z) (k secondsStr : string)
    (seconds : Z) (history : KeyHistory) (front : list Value) (latest : Value) :
  lookup_chain s0 k = Some history ->
  Versions history = front ++ [latest] ->
  strconv.ParseInt secondsStr = Some seconds ->
  let expiration := int64.add now (int64.mul seconds 1000) in
  snd (handleExpire s0 now [k; secondsStr]) = with_int Integer 1
  /\ lookup_chain (fst (handleExpire s0 now [k; secondsStr])) k
     = Some {| Versions := front ++ [with_expiry latest expiration] |}
  /\ index_entry (fst (handleExpire s0 now [k; secondsStr])) k = Some expiration.
Proof.
  intros Hh Hv Hp. cbv zeta. unfold handleExpire. rewrite Hp.
  rewrite (store_facts.Expire_true s0 now k _ history front latest Hh Hv).
  cbn [fst snd]. split; [reflexivity | split].
  - rewrite store_facts.lookup_chain_update, decide_True by reflexivity.
    cbn [data]. apply lookup_insert_eq.
  - rewrite store_facts.index_entry_update. cbn [TTLWheel_Add entries].
    apply lookup_insert_eq.
Qed.

(** C9. For a key with a tail and any [seconds] that [ParseInt] accepts,
    negative ones included, [EXPIRE] answers Integer 1 and sets the tail's
    expiry and the TTL-index entry to [now + seconds * 1000] in [int64]
    arithmetic, exactly that sum when nothing overflows. When [seconds] is
    negative, the product does not overflow and the sum is still positive,
    the expiry lies in the past: at every later clock reading [TTL] returns
    -2; [Get] finds nothing at every later reading that is not before the
    write of the tail, which is every later reading when the clock never
    went back, and at a reading before the write of the tail it answers
    what it answered before the [EXPIRE]. *)
Theorem handleExpire_accepts_any_seconds (s0 : Store) (now : Z)
    (k secondsStr : string) (seconds : Z) (latest : Value) :
  tail s0 k = Some latest ->
  strconv.ParseInt secondsStr = Some seconds ->
  let r := handleExpire s0 now [k; secondsStr] in
  let expiration := int64.add now (int64.mul seconds 1000) in
  snd r = with_int Integer 1
  /\ tail (fst r) k = Some (with_expiry latest expiration)
  /\ index_entry (fst r) k = Some expiration
  /\ (int64.in_range (seconds * 1000) -> int64.in_range (now + seconds * 1000) ->
      expiration = now + seconds * 1000)
  /\ (seconds < 0 -> int64.min <= seconds * 1000 -> 0 < now + seconds * 1000 ->
      now <= int64.max ->
      forall now',
        now <= now' ->
        Store_TTL (fst r) now' k = -2
        /\ (Timestamp latest <= now' -> Store_Get (fst r) now' k = None)
        /\ (now' < Timestamp latest ->
            Store_Get (fst r) now' k = Store_Get s0 now' k)).
Proof.
  intros (history & front & Hh & Hv)%store_facts.tail_Some Hp. cbv zeta.
  destruct (handleExpire_on_tail s0 now k secondsStr seconds history front latest
              Hh Hv Hp) as (Hresp & Hchain & Hidx).
  cbv zeta in Hchain, Hidx.
  assert (Hexact : int64.in_range (seconds * 1000) ->
                   int64.in_range (now + seconds * 1000) ->
                   int64.add now (int64.mul seconds 1000) = now + seconds * 1000).
  { intros H1 H2. unfold int64.add, int64.mul.
    rewrite (int64_facts.wrap64_id _ H1). now apply int64_facts.wrap64_id. }
  split; [exact Hresp | split; [| split; [exact Hidx | split; [exact Hexact |]]]].
  - unfold tail. rewrite Hchain. cbn [Versions]. apply last_snoc.
  - intros Hneg Hmul Hpos Hnow now' Hlater.
    rewrite Hexact in Hchain
      by (unfold int64.in_range, int64.min, int64.max in *; lia).
    split; [| split].
    + unfold Store_TTL. fold (lookup_chain (fst (handleExpire s0 now [k; secondsStr])) k).
      rewrite Hchain. cbn [Versions]. rewrite last_snoc. cbn [with_expiry TTL].
      destruct (Z.eqb_spec (now + seconds * 1000) 0); [lia |].
      destruct (Z.leb_spec (now + seconds * 1000) now'); [reflexivity | lia].
    + intros Hwritten. unfold Store_Get. rewrite mvcc_facts.GetAt_chain, Hchain.
      cbn [chain_versions Versions].
      rewrite mvcc_facts.GetAt_scan_select by lia.
      rewrite firstn_all, mvcc_facts.select_at_snoc.
      unfold with_expiry at 1. cbn [Timestamp].
      destruct (Z.leb_spec (Timestamp latest) now'); [| lia].
      unfold visible_at, with_expiry. cbn [TTL Data].
      destruct (Z.ltb_spec 0 (now + seconds * 1000)); [| lia].
      destruct (Z.leb_spec (now + seconds * 1000) now'); [reflexivity | lia].
    + intros Hbefore. unfold Store_Get. rewrite !mvcc_facts.GetAt_chain, Hchain, Hh.
      cbn [chain_versions Versions]. rewrite Hv.
      rewrite !mvcc_facts.GetAt_scan_select by lia.
      rewrite !firstn_all, !mvcc_facts.select_at_snoc.
      unfold with_expiry at 1. cbn [Timestamp].
      destruct (Z.leb_spec (Timestamp latest) now'); [lia | reflexivity].
Qed.

(** Witness of C9: one second into the past. *)
Lemma handleExpire_accepts_any_seconds_witness :
  Store_TTL
    (fst (handleExpire (Store_Set NewStore 1700000000000 "k" "v" 0) 1700000000500
            ["k"; "-1"])) 1700000000500 "k" = -2
  /\ Store_Get
       (fst (handleExpire (Store_Set NewStore 1700000000000 "k" "v" 0) 1700000000500
               ["k"; "-1"])) 1700000000500 "k" = None.
Proof.
  destruct (handleExpire_accepts_any_seconds
              (Store_Set NewStore 1700000000000 "k" "v" 0) 1700000000500 "k" "-1" (-1)
              {| Data := "v"; Timestamp := 1700000000000; TTL := 0 |}
              ltac:(vm_compute; reflexivity) eq_refl) as (_ & _ & _ & _ & H).
  specialize (H ltac:(lia) ltac:(now vm_compute) ltac:(lia) ltac:(now vm_compute)
                1700000000500 ltac:(lia)).
  exact (conj (proj1 H) (proj1 (proj2 H) ltac:(simpl; lia))).
Defined.

(** Counterexample to C9 as stated. Seconds so far back that the expiry is
    negative: [TTL] reports -2, yet [Get] still returns the value, since
    [GetAt] treats only a positive expiry as set. Seconds whose product
    with 1000 wraps around: the expiry lies one second in the future. And a
    clock that went back: the tail was written at 2000, [EXPIRE] with -1
    runs at 1500 and sets the expiry 500; at 1600 [TTL] reports -2 and
    [Get] returns the older version, as it did before the [EXPIRE]. *)
Lemma negative_seconds_leave_key_readable :
  strconv.ParseInt "-1700000001" = Some (-1700000001)
  /\ snd (handleExpire (Store_Set NewStore 1700000000000 "k" "v" 0) 1700000000000
            ["k"; "-1700000001"]) = with_int Integer 1
  /\ tail (fst (handleExpire (Store_Set NewStore 1700000000000 "k" "v" 0)
                  1700000000000 ["k"; "-1700000001"])) "k"
     = Some {| Data := "v"; Timestamp := 1700000000000; TTL := -1000 |}
  /\ Store_TTL (fst (handleExpire (Store_Set NewStore 1700000000000 "k" "v" 0)
                       1700000000000 ["k"; "-1700000001"])) 1700000000001 "k" = -2
  /\ Store_Get (fst (handleExpire (Store_Set NewStore 1700000000000 "k" "v" 0)
                       1700000000000 ["k"; "-1700000001"])) 1700000000001 "k"
     = Some "v"
  /\ handleGet (fst (handleExpire (Store_Set NewStore 1700000000000 "k" "v" 0)
                       1700000000000 ["k"; "-1700000001"])) 1700000000001 ["k"]
     = with_string BulkString "v"
  /\ strconv.ParseInt "-9223372036854775807" = Some (-9223372036854775807)
  /\ tail (fst (handleExpire (Store_Set NewStore 1700000000000 "k" "v" 0)
                  1700000000000 ["k"; "-9223372036854775807"])) "k"
     = Some {| Data := "v"; Timestamp := 1700000000000; TTL := 1700000001000 |}
  /\ Store_TTL (fst (handleExpire (Store_Set NewStore 1700000000000 "k" "v" 0)
                       1700000000000 ["k"; "-9223372036854775807"]))
       1700000000001 "k" = 999
  /\ tail (fst (handleExpire
                  (Store_Set (Store_Set NewStore 1000 "k" "a" 0) 2000 "k" "b" 0)
                  1500 ["k"; "-1"])) "k"
     = Some {| Data := "b"; Timestamp := 2000; TTL := 500 |}
  /\ Store_TTL (fst (handleExpire
                       (Store_Set (Store_Set NewStore 1000 "k" "a" 0) 2000 "k" "b" 0)
                       1500 ["k"; "-1"])) 1600 "k" = -2
  /\ Store_Get (fst (handleExpire
                       (Store_Set (Store_Set NewStore 1000 "k" "a" 0) 2000 "k" "b" 0)
                       1500 ["k"; "-1"])) 1600 "k" = Some "a".
Proof. vm_compute. repeat split. Qed.

End expire_facts.

(** ** The wire format: round trip and the unchecked trailer *)

Module wire_facts.

Import proto wire.

(** C5. For every well-formed value, [WriteValue] succeeds and parsing the
    bytes it wrote yields the value again, with nothing left when nothing
    follows and with what follows left untouched otherwise; the null
    BulkString and the null Array are among the well-formed values. *)
Theorem parse_serialize_round_trip (v : RESPValue) :
  well_formed v ->
  WriteValue v = (serialize v, None)
  /\ parse (serialize v) = Ok (v, EmptyString)
  /\ forall rest, parse (serialize v +:+ rest) = Ok (v, rest).
Proof.
  intros Hwf. destruct (proto_facts.Read_WriteValue v Hwf) as (Herr & Hdepth & Hread).
  assert (Hrest : forall rest, parse (serialize v +:+ rest) = Ok (v, rest)).
  { intros rest. unfold parse. apply Hread.
    rewrite proto_facts.length_app. lia. }
  split; [| split; [| exact Hrest]].
  - unfold serialize. destruct (WriteValue v) as [out err]. cbn [fst snd] in *.
    now subst err.
  - specialize (Hrest EmptyString). now rewrite proto_facts.app_nil_r in Hrest.
Qed.

(** Witness of C5: an array holding every arm, both nulls and a nested
    array. *)
Lemma parse_serialize_round_trip_witness :
  parse (serialize every_arm) = Ok (every_arm, EmptyString).
Proof.
  exact (proj1 (proj2 (parse_serialize_round_trip every_arm
                         ltac:(vm_compute; reflexivity)))).
Defined.

(** A line feed inside a [SimpleString] ends its line on the way back: such
    a value is outside [well_formed]. *)
Example line_feed_ends_the_line :
  parse (serialize (with_string SimpleString (String "a" (String LF "b"))))
  = Ok (with_string SimpleString "a", String "b" CRLF).
Proof. vm_compute. reflexivity. Qed.

(** C8. A bulk-string frame whose length line announces the [n] bytes of the
    payload is accepted with any two bytes after the payload: they are
    consumed, never compared with CR LF, and the payload is returned. *)
Theorem bulk_string_trailer_is_not_checked (n : Z) (p : string) (x y : ascii)
    (rest : string) :
  Z.of_nat (String.length p) = n ->
  n + 2 <= int64.max ->
  parse (String "$" (strconv.FormatInt n +:+ CRLF +:+ p +:+ String x (String y rest)))
  = Ok (with_string BulkString p, rest).
Proof.
  intros <- Hn. now apply proto_facts.parse_bulk_any_trailer.
Qed.

(** Witness of C8: the payload foo followed by the bytes X and Y. *)
Lemma bulk_string_trailer_is_not_checked_witness :
  parse (String "$" (strconv.FormatInt 3 +:+ CRLF +:+ "foo" +:+ "XY"))
  = Ok (with_string BulkString "foo", EmptyString).
Proof.
  exact (bulk_string_trailer_is_not_checked 3 "foo" "X" "Y" EmptyString eq_refl
           ltac:(now vm_compute)).
Defined.

End wire_facts.

(** ** Instances used as witnesses *)

Module instances.

Import proto store server trace.

(** Witness of C6: a key written with a TTL of 100 ms, read 40 ms later. *)
Lemma TTL_sentinel_protocol_witness :
  Store_TTL (Store_Set NewStore 1700000000000 "k" "v" 100) 1700000000040 "k" = 60
  /\ 0 < Store_TTL (Store_Set NewStore 1700000000000 "k" "v" 100) 1700000000040 "k".
Proof.
  destruct (store_facts.TTL_sentinel_protocol
              (Store_Set NewStore 1700000000000 "k" "v" 100) 1700000000040 "k")
    as (_ & _ & H).
  destruct (H {| Data := "v"; Timestamp := 1700000000000; TTL := 1700000000100 |}
              ltac:(vm_compute; reflexivity)) as (_ & _ & H').
  destruct (H' ltac:(now vm_compute) ltac:(now vm_compute)) as [_ H''].
  exact (H'' ltac:(now vm_compute) ltac:(now vm_compute)).
Defined.

(** Witness of C7: EXPIRE on a stored key. *)
Lemma Expire_applies_iff_key_has_tail_witness :
  snd (Store_Expire (Store_Set NewStore 1700000000000 "k" "v" 0) 1700000000001 "k" 5000)
  = true
  /\ tail (fst (Store_Expire (Store_Set NewStore 1700000000000 "k" "v" 0)
                  1700000000001 "k" 5000)) "k"
     = Some {| Data := "v"; Timestamp := 1700000000000; TTL := 1700000005001 |}.
Proof.
  destruct (store_facts.Expire_applies_iff_key_has_tail
              (Store_Set NewStore 1700000000000 "k" "v" 0) 1700000000001 "k" 5000)
    as (_ & H & _).
  destruct (H {| Versions := [{| Data := "v"; Timestamp := 1700000000000; TTL := 0 |}] |}
              [] {| Data := "v"; Timestamp := 1700000000000; TTL := 0 |}
              ltac:(vm_compute; reflexivity) eq_refl) as (Hok & _ & Htail & _ & _).
  split; [exact Hok | exact Htail].
Defined.

(** Witness of C10: HIST with a limit of 1 after two writes. *)
Lemma handleHist_flattens_history_witness :
  handleHist (set_all NewStore "k" (numbered_writes 1700000000000 2)) ["k"; "1"]
  = with_array Array
      (hist_result
         (Store_History (set_all NewStore "k" (numbered_writes 1700000000000 2)) "k" 1)).
Proof.
  destruct (hist_facts.handleHist_flattens_history
              (set_all NewStore "k" (numbered_writes 1700000000000 2)) "k")
    as (_ & H & _).
  exact (H "1" 1 eq_refl ltac:(lia)).
Defined.

End instances.

(** ** The store: reads after writes, deletion, the sweep and what every
       reachable store satisfies *)

Module store_laws.

Import store trace laws.

Lemma TTL_tail (s : Store) (now : Z) (k : string) :
  Store_TTL s now k =
  match tail s k with
  | None => -2
  | Some v =>
      if TTL v =? 0 then -1
      else if TTL v <=? now then -2
      else int64.sub (TTL v) now
  end.
Proof.
  unfold Store_TTL, tail, lookup_chain.
  destruct (data (getShard s k) !! k) as [history|]; reflexivity.
Qed.

Lemma appended_split (old : list Value) (val : Value) :
  appended old val = drop (length old + 1 - MaxVersions) old ++ [val].
Proof.
  rewrite mvcc_facts.appended_retained. unfold retained.
  rewrite length_app. cbn [length].
  apply drop_app_le. unfold MaxVersions. lia.
Qed.

Lemma GetAt_tail (s : Store) (k : string) (v : Value) (ts : Z) :
  tail s k = Some v ->
  Timestamp v <= ts ->
  Store_GetAt s k ts = if visible_at v ts then Some (Data v) else None.
Proof.
  intros Ht Hts. apply store_facts.tail_Some in Ht as (history & front & Hc & Hv).
  rewrite mvcc_facts.GetAt_refines_spec, Hc. unfold GetAt_spec.
  rewrite Hv, mvcc_facts.select_at_snoc.
  destruct (Z.leb_spec (Timestamp v) ts); [reflexivity | lia].
Qed.

Lemma GetAt_no_chain (s : Store) (k : string) (ts : Z) :
  lookup_chain s k = None -> Store_GetAt s k ts = None.
Proof. intros H. now rewrite mvcc_facts.GetAt_refines_spec, H. Qed.

(** What is read under a key depends on its chain alone. *)
Lemma reads_of_chain (s s' : Store) (k : string) :
  lookup_chain s' k = lookup_chain s k ->
  (forall ts, Store_GetAt s' k ts = Store_GetAt s k ts)
  /\ (forall now, Store_TTL s' now k = Store_TTL s now k)
  /\ (forall limit, Store_History s' k limit = Store_History s k limit).
Proof.
  intros H. split; [|split].
  - intros ts. now rewrite !mvcc_facts.GetAt_chain, H.
  - intros now. now rewrite !TTL_tail, (ttl_index_facts.tail_other s s' k H).
  - intros limit. now rewrite !mvcc_facts.History_chain, H.
Qed.

Lemma Set_read (s : Store) (now : Z) (k v : string) (ttlMs now' : Z) :
  now <= now' ->
  let s' := Store_Set s now k v ttlMs in
  (ttlMs <= 0 -> Store_Get s' now' k = Some v /\ Store_TTL s' now' k = -1)
  /\ (0 < ttlMs -> 0 <= now -> now + ttlMs <= int64.max ->
      (now' < now + ttlMs ->
       Store_Get s' now' k = Some v /\ Store_TTL s' now' k = now + ttlMs - now')
      /\ (now + ttlMs <= now' ->
          Store_Get s' now' k = None /\ Store_TTL s' now' k = -2)).
Proof.
  intros Hnow s'. unfold Store_Get.
  pose proof (ttl_index_facts.tail_Set s now k v ttlMs) as Ht. fold s' in Ht.
  rewrite (GetAt_tail _ _ _ _ Ht) by exact Hnow.
  rewrite TTL_tail, Ht.
  unfold visible_at, version_of, write_ttl, write_now, write_value. cbn.
  split.
  - intros Hnone. destruct (Z.ltb_spec 0 ttlMs); [lia|]. now split.
  - intros Hpos Hclock Hfit.
    destruct (Z.ltb_spec 0 ttlMs); [|lia].
    assert (Hexp : int64.add now ttlMs = now + ttlMs).
    { apply int64_facts.wrap64_id. unfold int64.in_range, int64.min, int64.max in *.
      lia. }
    rewrite Hexp.
    destruct (Z.ltb_spec 0 (now + ttlMs)); [|lia].
    destruct (Z.eqb_spec (now + ttlMs) 0); [lia|].
    split; intros Hcmp.
    + destruct (Z.leb_spec (now + ttlMs) now'); [lia|]. split; [reflexivity|].
      apply int64_facts.wrap64_id. unfold int64.in_range, int64.min, int64.max in *.
      lia.
    + destruct (Z.leb_spec (now + ttlMs) now'); [|lia]. now split.
Qed.

(** X2. [Set], [Delete] and [Expire] on one key change nothing under
    any other key, in the same shard or not: [GetAt] at every timestamp,
    [TTL] at every clock reading, [History] with every limit and the
    TTL-index entry of the other key are what they were. *)
Theorem other_keys_unaffected (s : Store) (now : Z) (key value : string) (ttlMs : Z)
    (k : string) :
  k <> key ->
  forall s',
    s' = Store_Set s now key value ttlMs
    \/ s' = fst (Store_Delete s key)
    \/ s' = fst (Store_Expire s now key ttlMs) ->
    (forall ts, Store_GetAt s' k ts = Store_GetAt s k ts)
    /\ (forall t, Store_TTL s' t k = Store_TTL s t k)
    /\ (forall limit, Store_History s' k limit = Store_History s k limit)
    /\ index_entry s' k = index_entry s k.
Proof.
  intros Hk s' Hs'.
  assert (lookup_chain s' k = lookup_chain s k /\ index_entry s' k = index_entry s k)
    as [Hchain Hindex].
  { destruct Hs' as [-> | [-> | ->]].
    - rewrite store_facts.lookup_chain_Set, store_facts.index_entry_Set.
      now destruct (decide (k = key)).
    - rewrite store_facts.lookup_chain_Delete, store_facts.index_entry_Delete.
      now destruct (decide (k = key)).
    - now rewrite store_facts.lookup_chain_Expire, store_facts.index_entry_Expire. }
  destruct (reads_of_chain s s' k Hchain) as (Hget & Httl & Hhist).
  repeat split; assumption.
Qed.

Lemma other_keys_unaffected_witness :
  Store_GetAt (Store_Set (Store_Set NewStore 5 "a" "x" 0) 7 "b" "y" 0) "a" 9 = Some "x".
Proof.
  pose proof (other_keys_unaffected (Store_Set NewStore 5 "a" "x" 0) 7 "b" "y" 0 "a"
                ltac:(discriminate)
                (Store_Set (Store_Set NewStore 5 "a" "x" 0) 7 "b" "y" 0)
                (or_introl eq_refl)) as [Hget _].
  rewrite Hget. reflexivity.
Defined.

(** X3. [Delete] returns true exactly when the key has a chain, and
    leaves the store as it was when it returns false. After it the key has
    no chain and, if it had one, no TTL-index entry: [GetAt] finds nothing at
    any timestamp, [TTL] returns -2, [History] is empty, and a second
    [Delete] returns false. *)
Theorem Delete_forgets_key (s : Store) (key : string) :
  let r := Store_Delete s key in
  (snd r = true <-> exists history, lookup_chain s key = Some history)
  /\ (snd r = false -> fst r = s)
  /\ lookup_chain (fst r) key = None
  /\ (snd r = true -> index_entry (fst r) key = None)
  /\ (forall ts, Store_GetAt (fst r) key ts = None)
  /\ (forall now, Store_TTL (fst r) now key = -2)
  /\ (forall limit, Store_History (fst r) key limit = [])
  /\ Store_Delete (fst r) key = (fst r, false).
Proof.
  intros r.
  assert (Hgone : lookup_chain (fst r) key = None).
  { unfold r. rewrite store_facts.lookup_chain_Delete. now destruct (decide (key = key)). }
  assert (Hidx := store_facts.index_entry_Delete s key key). fold r in Hidx.
  destruct (decide (key = key)) as [_|]; [|congruence].
  assert (Hr : r = Store_Delete s key) by reflexivity.
  unfold Store_Delete in Hr. fold (lookup_chain s key) in Hr.
  split; [|split; [|split; [exact Hgone|split; [|split; [|split; [|split]]]]]].
  - destruct (lookup_chain s key) as [history|]; rewrite Hr; cbn.
    + split; [eauto | reflexivity].
    + split; [discriminate | intros [? ?]; discriminate].
  - destruct (lookup_chain s key) as [history|]; rewrite Hr; cbn;
      [discriminate | reflexivity].
  - destruct (lookup_chain s key) as [history|]; [now rewrite Hidx|].
    rewrite Hr. cbn. discriminate.
  - intros ts. now apply GetAt_no_chain.
  - intros now. rewrite TTL_tail. unfold tail. now rewrite Hgone.
  - intros limit. unfold Store_History. fold (lookup_chain (fst r) key).
    now rewrite Hgone.
  - unfold Store_Delete at 1. fold (lookup_chain (fst r) key). now rewrite Hgone.
Qed.

(** * The sweep *)

Lemma GetExpired_fold_exact (now : Z) (l : list (string * Z)) :
  forall (expired0 : list string) (m0 : gmap string Z),
    let due := (filter (fun kv : string * Z => kv.2 <= now) l).*1 in
    let r := fold_left (GetExpired_step now) l (expired0, m0) in
    fst r = expired0 ++ due
    /\ forall k, snd r !! k = if decide (k ∈ due) then None else m0 !! k.
Proof.
  induction l as [|[key x] rest IH]; intros expired0 m0; cbn zeta.
  - cbn. rewrite app_nil_r. split; [reflexivity|]. intros k.
    destruct (decide (k ∈ [])) as [Hin|]; [|reflexivity]. now apply elem_of_nil in Hin.
  - cbn [fold_left].
    change (GetExpired_step now (expired0, m0) (key, x))
      with (if x <=? now then (expired0 ++ [key], delete key m0) else (expired0, m0)).
    destruct (Z.leb_spec x now) as [Hdue|Hlater].
    + rewrite filter_cons_True by exact Hdue. cbn [fmap list_fmap fst].
      destruct (IH (expired0 ++ [key]) (delete key m0)) as [Hfst Hsnd].
      split.
      * rewrite Hfst, <- app_assoc. reflexivity.
      * intros k. rewrite Hsnd.
        destruct (decide (k ∈ (filter (fun kv : string * Z => kv.2 <= now) rest).*1))
          as [Hin|Hout].
        -- rewrite decide_True by (apply elem_of_cons; now right). reflexivity.
        -- destruct (decide (k = key)) as [->|Hne].
           ++ rewrite decide_True by (apply elem_of_cons; now left). apply lookup_delete_eq.
           ++ rewrite decide_False.
              ** now apply lookup_delete_ne.
              ** intros [?|?]%elem_of_cons; congruence.
    + rewrite filter_cons_False by (cbn; lia). apply IH.
Qed.

Lemma GetExpired_exact (tw : TTLWheel) (now : Z) :
  let r := TTLWheel_GetExpired tw now in
  (forall k, k ∈ fst r <-> exists x, entries tw !! k = Some x /\ x <= now)
  /\ NoDup (fst r)
  /\ (forall k,
        entries (snd r) !! k =
        match entries tw !! k with
        | Some x => if x <=? now then None else Some x
        | None => None
        end).
Proof.
  intros r.
  pose proof (GetExpired_fold_exact now (map_to_list (entries tw)) [] (entries tw))
    as [Hfst Hsnd].
  cbn zeta in Hfst, Hsnd.
  assert (Hr : r = ((filter (fun kv : string * Z => kv.2 <= now)
                       (map_to_list (entries tw))).*1,
                    {| entries :=
                         snd (fold_left (GetExpired_step now) (map_to_list (entries tw))
                                ([], entries tw)) |})).
  { unfold r, TTLWheel_GetExpired.
    destruct (fold_left (GetExpired_step now) (map_to_list (entries tw)) ([], entries tw))
      as [expired m] eqn:E.
    cbn in Hfst. now rewrite Hfst. }
  assert (Hmem : forall k,
             k ∈ (filter (fun kv : string * Z => kv.2 <= now)
                    (map_to_list (entries tw))).*1
             <-> exists x, entries tw !! k = Some x /\ x <= now).
  { intros k. rewrite list_elem_of_fmap. split.
    - intros ([k' x] & -> & Hin). apply list_elem_of_filter in Hin as [Hdue Hin].
      apply elem_of_map_to_list in Hin. eauto.
    - intros (x & Hx & Hdue). exists (k, x). split; [reflexivity|].
      apply list_elem_of_filter. split; [exact Hdue|]. now apply elem_of_map_to_list. }
  rewrite Hr. cbn [fst snd entries].
  split; [exact Hmem | split].
  - apply (sublist_NoDup _ (map_to_list (entries tw)).*1).
    + apply NoDup_fst_map_to_list.
    + apply fmap_sublist, sublist_filter.
  - intros k. rewrite Hsnd.
    destruct (decide (k ∈ (filter (fun kv : string * Z => kv.2 <= now)
                             (map_to_list (entries tw))).*1)) as [Hin|Hout].
    + apply Hmem in Hin as (x & -> & Hdue).
      destruct (Z.leb_spec x now); [reflexivity | lia].
    + destruct (entries tw !! k) as [x|] eqn:Hx; [|reflexivity].
      destruct (Z.leb_spec x now); [|reflexivity].
      exfalso. apply Hout, Hmem. eauto.
Qed.

Lemma due_tail_chain (s s' : Store) (k : string) (now : Z) :
  lookup_chain s' k = lookup_chain s k -> due_tail s' k now = due_tail s k now.
Proof. intros H. unfold due_tail. now rewrite (ttl_index_facts.tail_other s s' k H). Qed.

Lemma expireKeys_step_chain (now : Z) (s : Store) (key k : string) :
  lookup_chain (expireKeys_step now s key) k =
  if decide (k = key)
  then (if due_tail s key now then None else lookup_chain s key)
  else lookup_chain s k.
Proof.
  destruct (decide (k = key)) as [->|Hne];
    [|now apply ttl_index_facts.expireKeys_step_other].
  unfold expireKeys_step, due_tail, tail. fold (lookup_chain s key).
  destruct (lookup_chain s key) as [history|] eqn:Hc; [|exact Hc].
  destruct (last (Versions history)) as [latest|]; [|exact Hc].
  destruct ((0 <? TTL latest) && (TTL latest <=? now)); [|exact Hc].
  rewrite store_facts.lookup_chain_update.
  rewrite decide_True by reflexivity. cbn. apply lookup_delete_eq.
Qed.

Lemma expireKeys_fold_chain (now : Z) (keys : list string) :
  forall (s : Store) (k : string),
    lookup_chain (fold_left (expireKeys_step now) keys s) k =
    if bool_decide (k ∈ keys) && due_tail s k now then None else lookup_chain s k.
Proof.
  induction keys as [|key rest IH]; intros s k.
  - cbn. rewrite bool_decide_eq_false_2 by apply not_elem_of_nil. reflexivity.
  - cbn [fold_left]. rewrite IH.
    pose proof (expireKeys_step_chain now s key k) as Hstep.
    destruct (decide (k = key)) as [->|Hne].
    + rewrite (bool_decide_eq_true_2 (key ∈ key :: rest)) by (apply elem_of_cons; now left).
      cbn [andb]. destruct (due_tail s key now) eqn:Hdue.
      * unfold due_tail at 1, tail. rewrite Hstep, andb_false_r. reflexivity.
      * rewrite (due_tail_chain s _ key now Hstep), Hdue, andb_false_r. exact Hstep.
    + rewrite (due_tail_chain s _ k now Hstep), Hstep.
      assert (Hmem : bool_decide (k ∈ key :: rest) = bool_decide (k ∈ rest)).
      { apply bool_decide_ext. rewrite elem_of_cons. tauto. }
      now rewrite Hmem.
Qed.

Lemma expireKeys_exact (s : Store) (now : Z) (k : string) :
  let due :=
    match index_entry s k with
    | Some x => (x <=? now) && due_tail s k now
    | None => false
    end in
  lookup_chain (Store_expireKeys s now) k = (if due then None else lookup_chain s k)
  /\ index_entry (Store_expireKeys s now) k =
     match index_entry s k with
     | Some x => if x <=? now then None else Some x
     | None => None
     end.
Proof.
  cbn zeta. unfold Store_expireKeys.
  pose proof (GetExpired_exact (ttlWheel s) now) as (Hmem & _ & Hrest).
  cbn zeta in Hmem, Hrest.
  destruct (TTLWheel_GetExpired (ttlWheel s) now) as [expiredKeys tw].
  cbn [fst snd] in Hmem, Hrest.
  split.
  - rewrite expireKeys_fold_chain.
    change (lookup_chain {| shards := shards s; ttlWheel := tw |} k)
      with (lookup_chain s k).
    rewrite (due_tail_chain s {| shards := shards s; ttlWheel := tw |} k now eq_refl).
    unfold index_entry.
    destruct (entries (ttlWheel s) !! k) as [x|] eqn:Hx.
    + destruct (Z.leb_spec x now) as [Hdue|Hlater].
      * rewrite bool_decide_eq_true_2 by (apply Hmem; eauto). reflexivity.
      * rewrite bool_decide_eq_false_2; [reflexivity|].
        intros (y & Hy & Hdue)%Hmem. rewrite Hx in Hy. injection Hy as <-. lia.
    + rewrite bool_decide_eq_false_2; [reflexivity|].
      intros (y & Hy & _)%Hmem. congruence.
  - unfold index_entry. rewrite ttl_index_facts.expireKeys_fold_wheel. apply Hrest.
Qed.


(** X4. [TTLWheel.GetExpired(now)] returns exactly the keys whose entry
    is at or before [now], each once, and removes exactly those entries: an
    entry after [now] stays as it is. *)
Theorem GetExpired_drains_due_entries (tw : TTLWheel) (now : Z) :
  let r := TTLWheel_GetExpired tw now in
  (forall k, k ∈ fst r <-> exists x, entries tw !! k = Some x /\ x <= now)
  /\ NoDup (fst r)
  /\ (forall k,
        entries (snd r) !! k =
        match entries tw !! k with
        | Some x => if x <=? now then None else Some x
        | None => None
        end).
Proof. exact (GetExpired_exact tw now). Qed.

(** X5. One sweep of the expirer. [expireKeys] at [now] removes the
    chain of a key exactly when its TTL-index entry is at or before [now] and
    its latest version carries a positive expiry at or before [now]; every
    other chain is left as it is, with all its versions. The index loses
    exactly the entries at or before [now], also those of keys it keeps. *)
Theorem expireKeys_removes_due_keys_only (s : Store) (now : Z) (k : string) :
  let due :=
    match index_entry s k with
    | Some x => (x <=? now) && due_tail s k now
    | None => false
    end in
  lookup_chain (Store_expireKeys s now) k = (if due then None else lookup_chain s k)
  /\ index_entry (Store_expireKeys s now) k =
     match index_entry s k with
     | Some x => if x <=? now then None else Some x
     | None => None
     end.
Proof. exact (expireKeys_exact s now k). Qed.

(** A sweep at or before a reading changes nothing that [Get] and [TTL]
    return at that reading for a key whose latest version was written at or
    before it: what the sweep removes was already invisible. *)
Lemma sweep_keeps_reads (s : Store) (t now' : Z) (k : string) :
  t <= now' ->
  (forall v, tail s k = Some v -> Timestamp v <= now') ->
  Store_Get (Store_expireKeys s t) now' k = Store_Get s now' k
  /\ Store_TTL (Store_expireKeys s t) now' k = Store_TTL s now' k
  /\ (forall v, tail (Store_expireKeys s t) k = Some v -> Timestamp v <= now').
Proof.
  intros Ht Hwritten.
  destruct (expireKeys_exact s t k) as [Hc _]. cbn zeta in Hc.
  destruct (match index_entry s k with
            | Some x => (x <=? t) && due_tail s k t
            | None => false
            end) eqn:Hdue.
  - assert (Hd : due_tail s k t = true).
    { destruct (index_entry s k); [|discriminate].
      now apply andb_prop in Hdue as [_ ?]. }
    unfold due_tail in Hd. destruct (tail s k) as [v|] eqn:Htail; [|discriminate].
    apply andb_prop in Hd as [Hpos%Z.ltb_lt Hle%Z.leb_le].
    split; [|split].
    + unfold Store_Get. rewrite (GetAt_no_chain _ _ _ Hc).
      rewrite (GetAt_tail s k v now' Htail) by (now apply Hwritten).
      unfold visible_at.
      destruct (Z.ltb_spec 0 (TTL v)); [|lia].
      destruct (Z.leb_spec (TTL v) now'); [reflexivity | lia].
    + rewrite !TTL_tail. unfold tail at 1. rewrite Hc, Htail.
      destruct (Z.eqb_spec (TTL v) 0); [lia|].
      destruct (Z.leb_spec (TTL v) now'); [reflexivity | lia].
    + intros v'. unfold tail. rewrite Hc. discriminate.
  - destruct (reads_of_chain s (Store_expireKeys s t) k Hc) as (Hget & Httl & _).
    split; [apply Hget | split; [apply Httl|]].
    intros v. rewrite (ttl_index_facts.tail_other s _ k Hc). apply Hwritten.
Qed.

Lemma sweeps_keep_reads (sweeps : list Z) (now' : Z) (k : string) :
  Forall (fun t => t <= now') sweeps ->
  forall s,
    (forall v, tail s k = Some v -> Timestamp v <= now') ->
    Store_Get (fold_left Store_expireKeys sweeps s) now' k = Store_Get s now' k
    /\ Store_TTL (fold_left Store_expireKeys sweeps s) now' k = Store_TTL s now' k.
Proof.
  induction 1 as [|t rest Ht _ IH]; intros s Hwritten; [now split|].
  cbn [fold_left].
  destruct (sweep_keeps_reads s t now' k Ht Hwritten) as (Hget & Httl & Hnext).
  destruct (IH _ Hnext) as [-> ->]. now split.
Qed.

(** X1. A write is read back. After [Set(key, value, ttlMs)] run when
    the clock reads [now], followed by any number of sweeps of the expirer,
    a read at a reading [now'] that is not before [now] nor before any of
    those sweeps sees the write: without a TTL ([ttlMs <= 0]) [Get] returns
    the value and [TTL] returns -1; with a TTL that fits ([0 <= now],
    [now + ttlMs] an [int64]) [Get] returns the value and [TTL] returns
    [now + ttlMs - now'] as long as [now' < now + ttlMs], and from
    [now + ttlMs] on [Get] finds nothing and [TTL] returns -2. No sweeps is
    a case: what is read does not depend on whether the expirer has run. *)
Theorem Set_then_read (s : Store) (now : Z) (k v : string) (ttlMs : Z)
    (sweeps : list Z) (now' : Z) :
  now <= now' ->
  Forall (fun t => t <= now') sweeps ->
  let s' := fold_left Store_expireKeys sweeps (Store_Set s now k v ttlMs) in
  (ttlMs <= 0 -> Store_Get s' now' k = Some v /\ Store_TTL s' now' k = -1)
  /\ (0 < ttlMs -> 0 <= now -> now + ttlMs <= int64.max ->
      (now' < now + ttlMs ->
       Store_Get s' now' k = Some v /\ Store_TTL s' now' k = now + ttlMs - now')
      /\ (now + ttlMs <= now' ->
          Store_Get s' now' k = None /\ Store_TTL s' now' k = -2)).
Proof.
  intros Hnow Hsweeps s'.
  assert (Hsame : Store_Get s' now' k = Store_Get (Store_Set s now k v ttlMs) now' k
                  /\ Store_TTL s' now' k = Store_TTL (Store_Set s now k v ttlMs) now' k).
  { apply (sweeps_keep_reads sweeps now' k Hsweeps). intros latest.
    rewrite ttl_index_facts.tail_Set. intros [= <-]. exact Hnow. }
  destruct Hsame as [-> ->]. exact (Set_read s now k v ttlMs now' Hnow).
Qed.

Lemma Set_then_read_witness :
  Store_Get (fold_left Store_expireKeys [1700000000050; 1700000000099]
               (Store_Set NewStore 1700000000000 "k" "v" 100)) 1700000000099 "k"
  = Some "v"
  /\ Store_TTL (fold_left Store_expireKeys [1700000000050; 1700000000099]
                  (Store_Set NewStore 1700000000000 "k" "v" 100)) 1700000000099 "k"
     = 1
  /\ Store_Get (fold_left Store_expireKeys [1700000000050; 1700000000100]
                  (Store_Set NewStore 1700000000000 "k" "v" 100)) 1700000000100 "k"
     = None.
Proof.
  pose proof (Set_then_read NewStore 1700000000000 "k" "v" 100
                [1700000000050; 1700000000099] 1700000000099
                ltac:(lia) ltac:(repeat constructor; lia)) as [_ Hlive].
  pose proof (Set_then_read NewStore 1700000000000 "k" "v" 100
                [1700000000050; 1700000000100] 1700000000100
                ltac:(lia) ltac:(repeat constructor; lia)) as [_ Hdead].
  specialize (Hlive ltac:(lia) ltac:(lia) ltac:(now vm_compute)) as [Hlive _].
  specialize (Hdead ltac:(lia) ltac:(lia) ltac:(now vm_compute)) as [_ Hdead].
  specialize (Hlive ltac:(lia)) as [Hget Httl].
  specialize (Hdead ltac:(lia)) as [Hgone _].
  split; [exact Hget | split; [exact Httl | exact Hgone]].
Defined.

(** * Invariants of the reachable stores *)

Lemma Expire_cases (s : Store) (now : Z) (key : string) (ttlMs : Z) :
  Store_Expire s now key ttlMs = (s, false)
  \/ exists history front latest,
       lookup_chain s key = Some history
       /\ Versions history = front ++ [latest]
       /\ lookup_chain (fst (Store_Expire s now key ttlMs)) key
          = Some {| Versions := front ++ [with_expiry latest (int64.add now ttlMs)] |}
       /\ index_entry (fst (Store_Expire s now key ttlMs)) key
          = Some (int64.add now ttlMs).
Proof.
  destruct (chain_versions (lookup_chain s key)) as [|v0 l0] eqn:Hv using rev_ind.
  - left. now apply store_facts.Expire_false.
  - clear IHl0. right. destruct (lookup_chain s key) as [history|] eqn:Hc;
      [|now destruct l0]. cbn in Hv.
    exists history, l0, v0. split; [reflexivity | split; [exact Hv|]].
    rewrite (store_facts.Expire_true s now key ttlMs history l0 v0 Hc Hv). cbn [fst].
    rewrite store_facts.lookup_chain_update, store_facts.index_entry_update.
    rewrite decide_True by reflexivity. cbn.
    now rewrite !lookup_insert_eq.
Qed.

Lemma expireKeys_chain_cases (s : Store) (now : Z) (k : string) :
  lookup_chain (Store_expireKeys s now) k = lookup_chain s k
  \/ lookup_chain (Store_expireKeys s now) k = None.
Proof.
  destruct (expireKeys_exact s now k) as [Hc _]. cbn zeta in Hc. rewrite Hc.
  destruct (index_entry s k) as [x|]; [|now left].
  destruct ((x <=? now) && due_tail s k now); [now right | now left].
Qed.

Lemma step_bounded (s : Store) (e : Z * Op) :
  chains_bounded s -> chains_bounded (step s e).
Proof.
  intros Hs. destruct e as [now op]. destruct op; cbn [step]; try exact Hs.
  - intros k history. rewrite store_facts.lookup_chain_Set.
    destruct (decide (k = key)) as [->|]; [|apply Hs].
    intros [= <-]. cbn [Versions]. rewrite appended_split, length_app, length_drop.
    cbn [length]. unfold MaxVersions.
    destruct (lookup_chain s key) as [old|] eqn:Hold; cbn [chain_versions].
    + specialize (Hs key old Hold). unfold MaxVersions in Hs. lia.
    + cbn. lia.
  - intros k history. rewrite store_facts.lookup_chain_Delete.
    destruct (decide (k = key)); [discriminate | apply Hs].
  - intros k history. destruct (decide (k = key)) as [->|Hne];
      [|rewrite store_facts.lookup_chain_Expire by exact Hne; apply Hs].
    destruct (Expire_cases s now key ttlMs)
      as [-> | (old & front & latest & Hold & Hv & Hnew & _)]; [apply Hs|].
    rewrite Hnew. intros [= <-]. cbn [Versions].
    specialize (Hs key old Hold). rewrite Hv in Hs.
    rewrite length_app in *. exact Hs.
  - intros k history.
    destruct (expireKeys_chain_cases s now k) as [-> | ->]; [apply Hs | discriminate].
Qed.

Lemma run_bounded (es : list (Z * Op)) :
  forall s, chains_bounded s -> chains_bounded (run s es).
Proof.
  induction es as [|e rest IH]; intros s Hs; [exact Hs|].
  apply IH, step_bounded, Hs.
Qed.

Lemma NewStore_no_chain (k : string) : lookup_chain NewStore k = None.
Proof. apply lookup_empty. Qed.

(** X6. In every store reached from the empty one by [Set], [Delete],
    [Expire] and sweeps, a chain that is stored holds at least one and at
    most [MaxVersions] versions: no operation leaves an empty chain behind. *)
Theorem chains_hold_one_to_MaxVersions (es : list (Z * Op)) (k : string)
    (history : KeyHistory) :
  lookup_chain (run NewStore es) k = Some history ->
  (1 <= length (Versions history) <= MaxVersions)%nat.
Proof.
  apply (run_bounded es NewStore). intros k' history'.
  rewrite NewStore_no_chain. discriminate.
Qed.

Lemma chains_hold_one_to_MaxVersions_witness :
  (1 <= length (Versions {| Versions :=
                    map version_of (drop 2 (numbered_writes 1700000000000 12)) |})
   <= MaxVersions)%nat.
Proof.
  apply (chains_hold_one_to_MaxVersions
           (map (fun w => (write_now w, OpSet "k" (write_value w) (write_ttl w)))
              (numbered_writes 1700000000000 12)) "k").
  vm_compute. reflexivity.
Defined.

Lemma chains_before_weaken (s : Store) (b b' : Z) :
  b <= b' -> chains_before s b -> chains_before s b'.
Proof.
  intros Hb Hs k history Hc. eapply Forall_impl; [apply (Hs k history Hc)|].
  cbn. intros v Hv. lia.
Qed.

Lemma chain_versions_before (s : Store) (k : string) (b : Z) :
  chains_before s b ->
  Forall (fun v => Timestamp v <= b) (chain_versions (lookup_chain s k)).
Proof.
  intros Hs. destruct (lookup_chain s k) as [old|] eqn:Hold; cbn [chain_versions].
  - exact (Hs k old Hold).
  - apply Forall_nil_2.
Qed.

Lemma step_before (s : Store) (now : Z) (op : Op) (b : Z) :
  now <= b -> chains_before s b -> chains_before (step s (now, op)) b.
Proof.
  intros Hnow Hs. destruct op; cbn [step]; try exact Hs.
  - intros k history. rewrite store_facts.lookup_chain_Set.
    destruct (decide (k = key)) as [->|]; [|apply Hs].
    intros [= <-]. cbn [Versions]. rewrite appended_split.
    apply Forall_app. split.
    + apply Forall_drop, chain_versions_before, Hs.
    + apply Forall_singleton. exact Hnow.
  - intros k history. rewrite store_facts.lookup_chain_Delete.
    destruct (decide (k = key)); [discriminate | apply Hs].
  - intros k history. destruct (decide (k = key)) as [->|Hne];
      [|rewrite store_facts.lookup_chain_Expire by exact Hne; apply Hs].
    destruct (Expire_cases s now key ttlMs)
      as [-> | (old & front & latest & Hold & Hv & Hnew & _)]; [apply Hs|].
    rewrite Hnew. intros [= <-]. cbn [Versions].
    specialize (Hs key old Hold). rewrite Hv in Hs.
    apply Forall_app in Hs as [Hfront Hlatest]. apply Forall_app. split; [exact Hfront|].
    rewrite Forall_singleton in Hlatest. apply Forall_singleton. exact Hlatest.
  - intros k history.
    destruct (expireKeys_chain_cases s now k) as [-> | ->]; [apply Hs | discriminate].
Qed.

Lemma run_before (es : list (Z * Op)) (b : Z) :
  Forall (fun e => fst e <= b) es ->
  forall s, chains_before s b -> chains_before (run s es) b.
Proof.
  induction 1 as [|[now op] rest Hnow _ IH]; intros s Hs; [exact Hs|].
  apply IH, step_before; assumption.
Qed.

Lemma step_sorted (s : Store) (now : Z) (op : Op) :
  chains_before s now -> chains_sorted s -> chains_sorted (step s (now, op)).
Proof.
  intros Hb Hs. destruct op; cbn [step]; try exact Hs.
  - intros k history. rewrite store_facts.lookup_chain_Set.
    destruct (decide (k = key)) as [->|]; [|apply Hs].
    intros [= <-]. cbn [Versions]. rewrite appended_split.
    apply StronglySorted_app_2.
    + intros a b Ha Hb'. apply list_elem_of_singleton in Hb' as ->. cbn.
      pose proof (Forall_drop _ (length (chain_versions (lookup_chain s key)) + 1
                                 - MaxVersions)%nat _
                    (chain_versions_before s key now Hb)) as Hall.
      rewrite Forall_forall in Hall. now apply Hall.
    + apply mvcc_facts.sorted_drop.
      destruct (lookup_chain s key) as [old|] eqn:Hold; cbn [chain_versions].
      * exact (Hs key old Hold).
      * constructor.
    + repeat constructor.
  - intros k history. rewrite store_facts.lookup_chain_Delete.
    destruct (decide (k = key)); [discriminate | apply Hs].
  - intros k history. destruct (decide (k = key)) as [->|Hne];
      [|rewrite store_facts.lookup_chain_Expire by exact Hne; apply Hs].
    destruct (Expire_cases s now key ttlMs)
      as [-> | (old & front & latest & Hold & Hv & Hnew & _)]; [apply Hs|].
    rewrite Hnew. intros [= <-]. cbn [Versions].
    specialize (Hs key old Hold). rewrite Hv in Hs.
    apply StronglySorted_app in Hs as (Hcross & Hfront & _).
    apply StronglySorted_app_2; [|exact Hfront|repeat constructor].
    intros a b Ha Hb'. apply list_elem_of_singleton in Hb' as ->. cbn.
    apply (Hcross a latest Ha). apply list_elem_of_singleton. reflexivity.
  - intros k history.
    destruct (expireKeys_chain_cases s now k) as [-> | ->]; [apply Hs | discriminate].
Qed.

Lemma run_sorted (es : list (Z * Op)) :
  forall (s : Store) (b0 : Z),
    StronglySorted Z.le (b0 :: map fst es) ->
    chains_before s b0 -> chains_sorted s ->
    chains_sorted (run s es).
Proof.
  induction es as [|[now op] rest IH]; intros s b0 Hclock Hb Hs; [exact Hs|].
  cbn [run fold_left]. cbn [map fst] in Hclock.
  apply StronglySorted_inv in Hclock as [Hrest Hb0].
  apply List.Forall_cons_iff in Hb0 as [Hnow _].
  assert (Hb' : chains_before s now) by (now apply (chains_before_weaken s b0)).
  apply (IH _ now Hrest).
  - apply step_before; [lia | exact Hb'].
  - apply step_sorted; assumption.
Qed.

(** X7. When the clock never goes back along the operations that built
    the store, every chain is in the order of its timestamps, no version is
    later than a reading [now] that no operation exceeded, and [Get] at [now]
    is decided by the latest version alone: its value if it is not expired,
    nothing otherwise. *)
Theorem chains_follow_the_clock (es : list (Z * Op)) (now : Z) (k : string) :
  clock_monotone es ->
  Forall (fun e => fst e <= now) es ->
  let s := run NewStore es in
  StronglySorted (fun a b => Timestamp a <= Timestamp b)
    (chain_versions (lookup_chain s k))
  /\ Forall (fun v => Timestamp v <= now) (chain_versions (lookup_chain s k))
  /\ Store_Get s now k =
     match tail s k with
     | Some v => if visible_at v now then Some (Data v) else None
     | None => None
     end.
Proof.
  intros Hclock Hnow s.
  assert (Hnone : forall b, chains_before NewStore b).
  { intros b k' history'. rewrite NewStore_no_chain. discriminate. }
  assert (Hbefore : chains_before s now) by (apply run_before; [exact Hnow | apply Hnone]).
  assert (Hsorted : chains_sorted s).
  { destruct es as [|[t0 op0] rest]; [intros k' history'; cbn; rewrite NewStore_no_chain; discriminate|].
    apply (run_sorted _ NewStore t0).
    - unfold clock_monotone in Hclock. cbn [map fst] in Hclock.
      change (StronglySorted Z.le (t0 :: t0 :: map fst rest)).
      constructor; [exact Hclock|].
      constructor; [lia|]. apply StronglySorted_inv in Hclock as [_ H]. exact H.
    - apply Hnone.
    - intros k' history'. rewrite NewStore_no_chain. discriminate. }
  split; [|split].
  - destruct (lookup_chain s k) as [history|] eqn:Hc; cbn [chain_versions].
    + exact (Hsorted k history Hc).
    + constructor.
  - now apply chain_versions_before.
  - unfold Store_Get. destruct (tail s k) as [v|] eqn:Ht.
    + apply GetAt_tail; [exact Ht|].
      apply store_facts.tail_Some in Ht as (history & front & Hc & Hv).
      specialize (Hbefore k history Hc). rewrite Hv in Hbefore.
      apply Forall_app in Hbefore as [_ Hlast].
      rewrite Forall_singleton in Hlast. exact Hlast.
    + rewrite mvcc_facts.GetAt_chain. unfold tail in Ht.
      destruct (lookup_chain s k) as [history|]; [|reflexivity]. cbn [chain_versions].
      destruct (Versions history) as [|v l] using rev_ind; [reflexivity|].
      now rewrite last_snoc in Ht.
Qed.

Lemma chains_follow_the_clock_witness :
  let s := run NewStore [(1, OpSet "k" "a" 0); (2, OpSet "k" "b" 0)] in
  StronglySorted (fun a b => Timestamp a <= Timestamp b)
    (chain_versions (lookup_chain s "k"))
  /\ Forall (fun v => Timestamp v <= 3) (chain_versions (lookup_chain s "k"))
  /\ Store_Get s 3 "k" =
     match tail s "k" with
     | Some v => if visible_at v 3 then Some (Data v) else None
     | None => None
     end.
Proof.
  exact (chains_follow_the_clock [(1, OpSet "k" "a" 0); (2, OpSet "k" "b" 0)] 3 "k"
           ltac:(unfold clock_monotone; simpl; repeat constructor; lia)
           ltac:(repeat constructor; simpl; lia)).
Defined.

Lemma tail_of_chain (s : Store) (k : string) (front : list Value) (v : Value) :
  lookup_chain s k = Some {| Versions := front ++ [v] |} -> tail s k = Some v.
Proof. intros H. unfold tail. rewrite H. apply last_snoc. Qed.

Lemma step_indexed (s : Store) (e : Z * Op) :
  timed_tail_indexed s -> timed_tail_indexed (step s e).
Proof.
  intros Hs. destruct e as [now op]. destruct op; cbn [step]; try exact Hs.
  - intros k v. destruct (decide (k = key)) as [->|Hne].
    + rewrite ttl_index_facts.tail_Set, store_facts.index_entry_Set.
      rewrite decide_True by reflexivity. intros [= <-].
      unfold version_of, write_ttl, write_now. cbn.
      destruct (0 <? ttlMs); [reflexivity | lia].
    + rewrite store_facts.index_entry_Set, decide_False by exact Hne.
      rewrite (ttl_index_facts.tail_other s _ k); [apply Hs|].
      rewrite store_facts.lookup_chain_Set. now rewrite decide_False by exact Hne.
  - intros k v. unfold tail. rewrite store_facts.lookup_chain_Delete.
    destruct (decide (k = key)) as [->|Hne]; [discriminate|].
    rewrite store_facts.index_entry_Delete, decide_False by exact Hne. apply Hs.
  - intros k v. destruct (decide (k = key)) as [->|Hne].
    + destruct (Expire_cases s now key ttlMs)
        as [-> | (old & front & latest & Hold & Hv & Hnew & Hidx)]; [apply Hs|].
      rewrite (tail_of_chain _ _ _ _ Hnew), Hidx. now intros [= <-].
    + rewrite store_facts.index_entry_Expire by exact Hne.
      rewrite (ttl_index_facts.tail_other s _ k); [apply Hs|].
      now apply store_facts.lookup_chain_Expire.
  - intros k v Ht Hpos.
    destruct (expireKeys_exact s now k) as [Hc Hi]. cbn zeta in Hc.
    destruct (index_entry s k) as [x|] eqn:Hx.
    + destruct ((x <=? now) && due_tail s k now) eqn:Hdue.
      * unfold tail in Ht. rewrite Hc in Ht. discriminate.
      * rewrite (ttl_index_facts.tail_other s _ k Hc) in Ht.
        pose proof (Hs k v Ht Hpos) as Hidx. rewrite Hx in Hidx. injection Hidx as ->.
        rewrite Hi. unfold due_tail in Hdue. rewrite Ht in Hdue.
        destruct (Z.leb_spec (TTL v) now); [|reflexivity].
        destruct (Z.ltb_spec 0 (TTL v)); [discriminate | lia].
    + rewrite (ttl_index_facts.tail_other s _ k Hc) in Ht.
      pose proof (Hs k v Ht Hpos). congruence.
Qed.

Lemma run_indexed (es : list (Z * Op)) :
  forall s, timed_tail_indexed s -> timed_tail_indexed (run s es).
Proof.
  induction es as [|e rest IH]; intros s Hs; [exact Hs|].
  apply IH, step_indexed, Hs.
Qed.

Lemma NewStore_indexed : timed_tail_indexed NewStore.
Proof. intros k v. unfold tail. rewrite NewStore_no_chain. discriminate. Qed.

(** X8. In every reachable store a latest version with a positive
    expiry has its key in the TTL index, under that expiry; so after a sweep
    at [now] no key is left whose latest version carries a positive expiry at
    or before [now]. *)
Theorem sweep_leaves_no_due_key (es : list (Z * Op)) (now : Z) (k : string) :
  due_tail (Store_expireKeys (run NewStore es) now) k now = false
  /\ forall v, tail (run NewStore es) k = Some v -> 0 < TTL v ->
       index_entry (run NewStore es) k = Some (TTL v).
Proof.
  pose proof (run_indexed es NewStore NewStore_indexed) as Hinv.
  split; [|apply Hinv].
  pose proof (step_indexed _ (now, OpExpireKeys) Hinv) as Hafter. cbn [step] in Hafter.
  unfold due_tail.
  destruct (tail (Store_expireKeys (run NewStore es) now) k) as [v|] eqn:Ht;
    [|reflexivity].
  destruct (Z.ltb_spec 0 (TTL v)) as [Hpos|]; [|reflexivity].
  destruct (Z.leb_spec (TTL v) now) as [Hdue|]; [|reflexivity].
  exfalso. pose proof (Hafter k v Ht Hpos) as Hidx.
  destruct (expireKeys_exact (run NewStore es) now k) as [_ Hi]. rewrite Hi in Hidx.
  destruct (index_entry (run NewStore es) k) as [x|]; [|discriminate].
  destruct (Z.leb_spec x now); [discriminate|]. injection Hidx as ->. lia.
Qed.

(** X9. Lazy and active expiry agree. In a store built by operations
    that ran at or before [now], a sweep at [now] changes neither what [Get]
    returns nor what [TTL] returns for any key at any reading from [now] on:
    what the sweep removes was already invisible. *)
Theorem sweep_is_invisible_to_Get (es : list (Z * Op)) (now now' : Z) (k : string) :
  Forall (fun e => fst e <= now) es ->
  now <= now' ->
  let s := run NewStore es in
  Store_Get (Store_expireKeys s now) now' k = Store_Get s now' k
  /\ Store_TTL (Store_expireKeys s now) now' k = Store_TTL s now' k.
Proof.
  intros Hes Hnow s.
  assert (Hbefore : chains_before s now).
  { apply run_before; [exact Hes|]. intros k' history'.
    rewrite NewStore_no_chain. discriminate. }
  destruct (expireKeys_exact s now k) as [Hc _]. cbn zeta in Hc.
  destruct (match index_entry s k with
            | Some x => (x <=? now) && due_tail s k now
            | None => false
            end) eqn:Hdue.
  - assert (Hd : due_tail s k now = true).
    { destruct (index_entry s k); [|discriminate].
      now apply andb_prop in Hdue as [_ ?]. }
    unfold due_tail in Hd. destruct (tail s k) as [v|] eqn:Ht; [|discriminate].
    apply andb_prop in Hd as [Hpos%Z.ltb_lt Hle%Z.leb_le].
    unfold Store_Get. rewrite (GetAt_no_chain _ _ _ Hc), !TTL_tail.
    unfold tail at 1. rewrite Hc, Ht.
    rewrite (GetAt_tail s k v now' Ht).
    + unfold visible_at.
      destruct (Z.ltb_spec 0 (TTL v)); [|lia].
      destruct (Z.leb_spec (TTL v) now'); [|lia].
      destruct (Z.eqb_spec (TTL v) 0); [lia|]. now split.
    + apply store_facts.tail_Some in Ht as (history & front & Hh & Hv).
      specialize (Hbefore k history Hh). rewrite Hv in Hbefore.
      apply Forall_app in Hbefore as [_ Hlast].
      rewrite Forall_singleton in Hlast. lia.
  - destruct (reads_of_chain s (Store_expireKeys s now) k Hc) as (Hget & Httl & _).
    split; [apply Hget | apply Httl].
Qed.

Lemma sweep_is_invisible_to_Get_witness :
  let s := run NewStore [(1, OpSet "k" "a" 5)] in
  Store_Get (Store_expireKeys s 6) 7 "k" = Store_Get s 7 "k"
  /\ Store_TTL (Store_expireKeys s 6) 7 "k" = Store_TTL s 7 "k".
Proof.
  exact (sweep_is_invisible_to_Get [(1, OpSet "k" "a" 5)] 6 7 "k"
           ltac:(repeat constructor; simpl; lia) ltac:(lia)).
Defined.

Lemma select_at_split (versions : list Value) (ts : Z) (v : Value) :
  select_at versions ts = Some v ->
  exists before after,
    versions = before ++ v :: after
    /\ Timestamp v <= ts
    /\ Forall (fun w => ts < Timestamp w) after.
Proof.
  induction versions as [|x l IH] using rev_ind; [discriminate|].
  rewrite mvcc_facts.select_at_snoc.
  destruct (Z.leb_spec (Timestamp x) ts) as [Hx|Hx].
  - intros [= <-]. exists l, []. split; [reflexivity | split; [exact Hx | constructor]].
  - intros (before & after & -> & Hv & Hafter)%IH.
    exists before, (after ++ [x]). split; [now rewrite <- app_assoc | split; [exact Hv|]].
    apply Forall_app. split; [exact Hafter|]. now apply Forall_singleton.
Qed.

(** X21. What [GetAt] returns is the data of a stored version written
    at or before the timestamp, the last such one in the chain (every version
    after it was written later), and not expired at the timestamp: never a
    later write, never an expired one. *)
Theorem GetAt_returns_a_visible_past_version (s : Store) (k : string) (ts : Z)
    (d : string) :
  Store_GetAt s k ts = Some d ->
  exists before v after,
    chain_versions (lookup_chain s k) = before ++ v :: after
    /\ Data v = d
    /\ Timestamp v <= ts
    /\ Forall (fun w => ts < Timestamp w) after
    /\ (TTL v <= 0 \/ ts < TTL v).
Proof.
  rewrite mvcc_facts.GetAt_refines_spec. unfold GetAt_spec.
  destruct (lookup_chain s k) as [history|]; [|discriminate]. cbn [chain_versions].
  destruct (select_at (Versions history) ts) as [v|] eqn:Hsel; [|discriminate].
  destruct (select_at_split _ _ _ Hsel) as (before & after & Hv & Hts & Hafter).
  unfold visible_at.
  destruct (Z.ltb_spec 0 (TTL v)) as [Hpos|Hnone];
    [destruct (Z.leb_spec (TTL v) ts) as [Hdue|Hlive]|]; cbn; [discriminate | |];
    intros [= <-]; exists before, v, after; repeat split; try assumption; lia.
Qed.

Lemma GetAt_returns_a_visible_past_version_witness :
  exists before v after,
    chain_versions (lookup_chain (run NewStore [(1, OpSet "k" "a" 0); (5, OpSet "k" "b" 0)])
                      "k")
    = before ++ v :: after
    /\ Data v = "a"
    /\ Timestamp v <= 3
    /\ Forall (fun w => 3 < Timestamp w) after
    /\ (TTL v <= 0 \/ 3 < TTL v).
Proof.
  exact (GetAt_returns_a_visible_past_version
           (run NewStore [(1, OpSet "k" "a" 0); (5, OpSet "k" "b" 0)]) "k" 3 "a"
           ltac:(vm_compute; reflexivity)).
Defined.

(** X22. [Expire] on a key with versions rewrites the expiry of the
    latest version only, to [now + ttlMs] in [int64]; afterwards [Get] and
    [TTL] at a reading not before that version follow the new expiry: [Get]
    hides the value once a positive expiry is reached, [TTL] is -1 for expiry
    0, -2 once the expiry is reached and the time left otherwise. *)
Theorem Expire_then_read (s : Store) (now : Z) (k : string) (ttlMs : Z) (v : Value)
    (now' : Z) :
  tail s k = Some v ->
  Timestamp v <= now' ->
  let s' := fst (Store_Expire s now k ttlMs) in
  let expiration := int64.add now ttlMs in
  tail s' k = Some (with_expiry v expiration)
  /\ Store_Get s' now' k
     = (if (0 <? expiration) && (expiration <=? now') then None else Some (Data v))
  /\ Store_TTL s' now' k
     = (if expiration =? 0 then -1
        else if expiration <=? now' then -2
        else int64.sub expiration now').
Proof.
  intros Ht Hts s' expiration.
  apply store_facts.tail_Some in Ht as (history & front & Hc & Hv).
  assert (Ht' : tail s' k = Some (with_expiry v expiration)).
  { apply (tail_of_chain s' k front). unfold s'.
    rewrite (store_facts.Expire_true s now k ttlMs history front v Hc Hv). cbn [fst].
    rewrite store_facts.lookup_chain_update, decide_True by reflexivity. cbn [data].
    apply lookup_insert_eq. }
  split; [exact Ht' | split].
  - unfold Store_Get. rewrite (GetAt_tail s' k _ now' Ht') by exact Hts.
    unfold visible_at, with_expiry. cbn [TTL Data].
    now destruct ((0 <? expiration) && (expiration <=? now')).
  - rewrite TTL_tail, Ht'. reflexivity.
Qed.

Lemma Expire_then_read_witness :
  let s' := fst (Store_Expire (Store_Set NewStore 5 "k" "v" 0) 6 "k" (-10)) in
  let expiration := int64.add 6 (-10) in
  tail s' "k" = Some (with_expiry (version_of (5, "v", 0)) expiration)
  /\ Store_Get s' 7 "k"
     = (if (0 <? expiration) && (expiration <=? 7) then None
        else Some (Data (version_of (5, "v", 0))))
  /\ Store_TTL s' 7 "k"
     = (if expiration =? 0 then -1
        else if expiration <=? 7 then -2
        else int64.sub expiration 7).
Proof.
  exact (Expire_then_read (Store_Set NewStore 5 "k" "v" 0) 6 "k" (-10)
           (version_of (5, "v", 0)) 7 ltac:(vm_compute; reflexivity) ltac:(now vm_compute)).
Defined.

End store_laws.

(** ** The reader: what it accepts and how much it consumes *)

Module codec_laws.

Import proto wire.

Lemma parse_digits_lower (s : string) :
  forall acc n, 0 <= acc -> strconv.parse_digits s acc = Some n -> 0 <= n.
Proof.
  induction s as [|c s IH]; intros acc n Hacc; cbn [strconv.parse_digits].
  - intros [= <-]. exact Hacc.
  - destruct (strconv.is_digit c) eqn:Hd; [|discriminate].
    apply IH. unfold strconv.is_digit in Hd. unfold strconv.digit_val.
    apply andb_prop in Hd as [Hlo%N.leb_le _]. lia.
Qed.

Lemma ParseInt_in_range (s : string) (z : Z) :
  strconv.ParseInt s = Some z -> int64.in_range z.
Proof.
  unfold strconv.ParseInt. destruct s as [|c rest]; [discriminate|].
  cbn zeta.
  destruct (if Ascii.eqb c "+" || Ascii.eqb c "-" then rest else String c rest)
    as [|c' body]; [discriminate|].
  destruct (strconv.parse_digits (String c' body) 0) as [un|] eqn:Hun; [|discriminate].
  apply parse_digits_lower in Hun; [|lia].
  unfold int64.in_range, int64.min, int64.max.
  destruct (Ascii.eqb c "-").
  - destruct (Z.leb_spec un (2 ^ 63)); [|discriminate]. intros [= <-]. lia.
  - destruct (Z.ltb_spec un (2 ^ 63)); [|discriminate]. intros [= <-]. lia.
Qed.

Lemma substring_split (n : nat) (s : string) :
  (n <= String.length s)%nat ->
  s = substring 0 n s +:+ skip n s /\ String.length (substring 0 n s) = n.
Proof.
  revert s. induction n as [|n IH]; intros s Hn.
  - destruct s; cbn; now rewrite ?proto_facts.app_nil_l.
  - destruct s as [|c s]; cbn [String.length] in Hn; [lia|].
    destruct (IH s ltac:(lia)) as [Hs Hl]. cbn [substring skip String.length].
    rewrite proto_facts.app_cons, <- Hs, Hl. now split.
Qed.

Lemma substring_shorter (n : nat) (s : string) :
  (String.length (substring 0 n s) <= n)%nat.
Proof.
  revert s. induction n as [|n IH]; intros s; destruct s as [|c s]; cbn; try lia.
  specialize (IH s). lia.
Qed.

Lemma no_LF_prefix (a : string) :
  no_LF a = true ->
  forall (k : nat) (b : string),
    (k <= String.length a)%nat -> no_LF (substring 0 k (a +:+ b)) = true.
Proof.
  induction a as [|c a IH]; intros Ha k b Hk.
  - cbn [String.length] in Hk. assert (k = O) as -> by lia. now destruct b.
  - rewrite proto_facts.app_cons. cbn [no_LF] in Ha.
    apply andb_prop in Ha as [Hc Ha].
    destruct k as [|k]; [reflexivity|]. cbn [substring no_LF]. rewrite Hc.
    cbn [String.length] in Hk. apply (IH Ha). lia.
Qed.

Lemma ReadString_LF_frame (input : string) :
  forall line rest,
    ReadString_LF input = Some (line, rest) ->
    input = line +:+ rest
    /\ exists body, line = body +:+ String LF EmptyString /\ no_LF body = true.
Proof.
  induction input as [|c input IH]; intros line rest; cbn [ReadString_LF];
    [discriminate|].
  destruct (Ascii.eqb c LF) eqn:Hc.
  - intros [= <- <-]. rewrite proto_facts.app_cons, proto_facts.app_nil_l.
    split; [reflexivity|]. exists EmptyString. split; [|reflexivity].
    apply Ascii.eqb_eq in Hc as ->. now rewrite proto_facts.app_nil_l.
  - destruct (ReadString_LF input) as [[line1 rest1]|]; [|discriminate].
    intros [= <- <-]. destruct (IH line1 rest1 eq_refl) as (-> & body & -> & Hbody).
    rewrite proto_facts.app_cons. split; [reflexivity|].
    exists (String c body). rewrite proto_facts.app_cons. split; [reflexivity|].
    cbn [no_LF]. now rewrite Hc, Hbody.
Qed.

(** What [readLine] takes is a line with its line feed; the bytes after it
    have no part in the result. *)
Lemma readLine_frame (input line rest : string) :
  readLine input = Ok (line, rest) ->
  no_LF line = true
  /\ exists frame,
       input = frame +:+ rest
       /\ (1 <= String.length frame)%nat
       /\ forall rest', readLine (frame +:+ rest') = Ok (line, rest').
Proof.
  unfold readLine. destruct (ReadString_LF input) as [[line0 rest0]|] eqn:Hread;
    [|discriminate].
  destruct (ReadString_LF_frame input line0 rest0 Hread) as (Hin & body & Hline0 & Hbody).
  match goal with |- Ok (?l, _) = _ -> _ => remember l as stripped eqn:Hstrip end.
  intros [= <- <-].
  assert (Hlen : String.length line0 = S (String.length body)).
  { rewrite Hline0, proto_facts.length_app. cbn. lia. }
  split.
  - rewrite Hstrip, Hlen.
    destruct ((2 <=? S (String.length body))%nat
              && String.eqb (substring (S (String.length body) - 2) 2 line0) CRLF).
    + rewrite Hline0. apply (no_LF_prefix body Hbody). lia.
    + replace (S (String.length body) - 1)%nat with (String.length body) by lia.
      rewrite Hline0 at 1. rewrite proto_facts.substring_skip_app.
      change ((1 <=? S (String.length body))%nat
              && String.eqb (substring 0 1 (String LF EmptyString))
                   (String LF EmptyString)) with true.
      cbv iota. rewrite Hline0. apply (no_LF_prefix body Hbody). lia.
  - exists line0. split; [exact Hin | split; [lia|]].
    intros rest'. rewrite Hline0 at 1.
    rewrite proto_facts.app_assoc, proto_facts.app_cons, proto_facts.app_nil_l.
    rewrite (proto_facts.ReadString_LF_line body rest' Hbody).
    rewrite <- Hline0. now rewrite Hstrip.
Qed.

Lemma ReadFull_frame (n : nat) (input data rest : string) :
  ReadFull n input = Ok (data, rest) ->
  input = data +:+ rest
  /\ String.length data = n
  /\ forall rest', ReadFull n (data +:+ rest') = Ok (data, rest').
Proof.
  unfold ReadFull. destruct (Nat.leb_spec n (String.length input)) as [Hn|];
    [|discriminate].
  intros [= <- <-]. destruct (substring_split n input Hn) as [Hs Hl].
  split; [exact Hs | split; [exact Hl|]].
  intros rest'. pose proof (proto_facts.ReadFull_exact (substring 0 n input) rest') as H.
  now rewrite Hl in H.
Qed.

Lemma add_2_fits (len : Z) :
  int64.in_range len -> 0 <= len -> (int64.add len 2 <? 0) = false ->
  int64.add len 2 = len + 2 /\ len + 2 <= int64.max.
Proof.
  unfold int64.in_range, int64.min, int64.max. intros Hr Hlen Hadd.
  apply Z.ltb_ge in Hadd.
  destruct (Z_le_gt_dec (len + 2) (2 ^ 63 - 1)) as [Hfit|Hover].
  - split; [|exact Hfit]. apply int64_facts.wrap64_id.
    unfold int64.in_range, int64.min, int64.max. lia.
  - exfalso. unfold int64.add, int64.wrap64 in Hadd.
    replace ((len + 2 + 2 ^ 63) mod 2 ^ 64) with (len + 2 + 2 ^ 63 - 2 ^ 64) in Hadd.
    + lia.
    + apply Z.mod_unique with (q := 1); lia.
Qed.

Lemma well_formed_line (ty : RESPType) (line : string) :
  ty = SimpleString \/ ty = Error ->
  no_LF line = true -> well_formed (with_string ty line).
Proof.
  unfold well_formed, well_formedb, with_string. cbn [Type_ String_ Int_ Array_ Null_].
  intros [-> | ->] ->; reflexivity.
Qed.

Lemma well_formed_bulk (s : string) :
  Z.of_nat (String.length s) + 2 <= int64.max ->
  well_formed (with_string BulkString s).
Proof.
  unfold well_formed, well_formedb, with_string. cbn [Type_ String_ Int_ Array_ Null_].
  intros H%Z.leb_le. now rewrite H.
Qed.

Lemma well_formed_int (i : Z) :
  int64.in_range i -> well_formed (with_int Integer i).
Proof.
  unfold well_formed, well_formedb, with_int. cbn [Type_ String_ Int_ Array_ Null_].
  unfold int64.in_range, int64.in_rangeb. intros [H1%Z.leb_le H2%Z.leb_le].
  now rewrite H1, H2.
Qed.

Lemma well_formed_array (arr : list RESPValue) :
  Z.of_nat (length arr) <= int64.max ->
  forallb well_formedb arr = true ->
  well_formed (with_array Array arr).
Proof.
  intros Hlen%Z.leb_le Harr. unfold well_formed, with_array.
  cbn [well_formedb Type_ String_ Int_ Array_ Null_].
  rewrite proto_facts.well_formedb_elements, Harr, Hlen. reflexivity.
Qed.

Lemma readBulkString_frame (input : string) (v : RESPValue) (rest : string) :
  readBulkString input = Ok (v, rest) ->
  well_formed v /\ Array_ v = []
  /\ exists frame,
       input = frame +:+ rest
       /\ (1 <= String.length frame)%nat
       /\ forall rest', readBulkString (frame +:+ rest') = Ok (v, rest').
Proof.
  unfold readBulkString.
  destruct (readLine input) as [[line r1]|e] eqn:Hl; cbn [mbind result_bind];
    [|discriminate].
  destruct (readLine_frame input line r1 Hl) as (_ & fr1 & Hin & Hfr1 & Hre).
  destruct (strconv.Atoi line) as [len|] eqn:Hatoi; [|discriminate].
  destruct (len =? -1) eqn:Hnull.
  { intros [= <- <-]. split; [reflexivity | split; [reflexivity|]].
    exists fr1. split; [exact Hin | split; [exact Hfr1|]].
    intros rest'. rewrite Hre. cbn [mbind result_bind]. now rewrite Hatoi, Hnull. }
  destruct (len <? 0) eqn:Hneg; [discriminate|].
  destruct (int64.add len 2 <? 0) eqn:Hadd; [discriminate|].
  destruct (ReadFull (Z.to_nat (int64.add len 2)) r1) as [[data r2]|e] eqn:Hfull;
    cbn [mbind result_bind]; [|discriminate].
  intros [= <- <-].
  destruct (ReadFull_frame _ _ _ _ Hfull) as (Hr1 & Hdata & Hre2).
  apply Z.ltb_ge in Hneg.
  destruct (add_2_fits len (ParseInt_in_range line len Hatoi) Hneg Hadd) as [Heq Hfit].
  split; [|split; [reflexivity|]].
  - apply well_formed_bulk.
    pose proof (substring_shorter (Z.to_nat len) data). lia.
  - exists (fr1 +:+ data). split; [|split].
    + now rewrite proto_facts.app_assoc, <- Hr1.
    + rewrite proto_facts.length_app. lia.
    + intros rest'. rewrite proto_facts.app_assoc, Hre. cbn [mbind result_bind].
      rewrite Hatoi, Hnull. apply Z.ltb_ge in Hneg. rewrite Hneg, Hadd, Hre2.
      reflexivity.
Qed.

Lemma readArray_loop_sound (fuel : nat) :
  (forall input v rest,
      Read fuel input = Ok (v, rest) ->
      well_formed v
      /\ exists frame,
           input = frame +:+ rest
           /\ (depth v <= String.length frame)%nat
           /\ forall fuel' rest', (depth v <= fuel')%nat ->
                Read fuel' (frame +:+ rest') = Ok (v, rest')) ->
  forall n input arr rest,
    readArray_loop (Read fuel) n input = Ok (arr, rest) ->
    length arr = n /\ forallb well_formedb arr = true
    /\ exists frame,
         input = frame +:+ rest
         /\ (deepest arr <= String.length frame)%nat
         /\ forall fuel' rest', (deepest arr <= fuel')%nat ->
              readArray_loop (Read fuel') n (frame +:+ rest') = Ok (arr, rest').
Proof.
  intros HRead. induction n as [|n IH]; intros input arr rest; cbn [readArray_loop].
  - intros [= <- <-]. split; [reflexivity | split; [reflexivity|]].
    exists EmptyString. rewrite proto_facts.app_nil_l.
    split; [reflexivity | split; [cbn; lia|]].
    intros fuel' rest' _. now rewrite proto_facts.app_nil_l.
  - destruct (Read fuel input) as [[v r1]|e] eqn:Hv; cbn [mbind result_bind];
      [|discriminate].
    destruct (readArray_loop (Read fuel) n r1) as [[vs r2]|e] eqn:Hvs;
      cbn [mbind result_bind]; [|discriminate].
    intros [= <- <-].
    destruct (HRead input v r1 Hv) as (Hwf & fr1 & Hin & Hd1 & Hre1).
    destruct (IH r1 vs r2 Hvs) as (Hlen & Hall & fr2 & Hr1 & Hd2 & Hre2).
    split; [cbn; now rewrite Hlen | split].
    + cbn [forallb]. now rewrite Hwf, Hall.
    + exists (fr1 +:+ fr2). split; [|split].
      * now rewrite proto_facts.app_assoc, <- Hr1.
      * rewrite proto_facts.length_app. cbn [deepest]. lia.
      * intros fuel' rest' Hfuel. cbn [deepest] in Hfuel.
        rewrite proto_facts.app_assoc, Hre1 by lia. cbn [mbind result_bind].
        rewrite Hre2 by lia. reflexivity.
Qed.

(** What [Read] returns is well-formed, and it is decided by the bytes
    consumed: the same value comes out of them before any other suffix and
    under any bound that its nesting fits. *)
Lemma Read_sound (fuel : nat) :
  forall input v rest,
    Read fuel input = Ok (v, rest) ->
    well_formed v
    /\ exists frame,
         input = frame +:+ rest
         /\ (depth v <= String.length frame)%nat
         /\ forall fuel' rest', (depth v <= fuel')%nat ->
              Read fuel' (frame +:+ rest') = Ok (v, rest').
Proof.
  induction fuel as [|fuel IH]; intros input v rest; [discriminate|].
  destruct input as [|tag input]; [discriminate|].
  rewrite proto_facts.Read_tag.
  destruct (Ascii.eqb tag SimpleString) eqn:H1.
  { unfold readSimpleString.
    destruct (readLine input) as [[line r]|e] eqn:Hl; cbn [mbind result_bind];
      [|discriminate].
    intros [= <- <-]. destruct (readLine_frame input line r Hl) as (Hno & fr & Hin & Hfr & Hre).
    split; [apply well_formed_line; [now left | exact Hno]|].
    exists (String tag fr). rewrite proto_facts.app_cons, <- Hin.
    split; [reflexivity | split; [cbn; lia|]].
    intros [|fuel'] rest' Hfuel; [cbn in Hfuel; lia|].
    rewrite proto_facts.app_cons, proto_facts.Read_tag, H1.
    unfold readSimpleString. now rewrite Hre. }
  destruct (Ascii.eqb tag Error) eqn:H2.
  { unfold readError.
    destruct (readLine input) as [[line r]|e] eqn:Hl; cbn [mbind result_bind];
      [|discriminate].
    intros [= <- <-]. destruct (readLine_frame input line r Hl) as (Hno & fr & Hin & Hfr & Hre).
    split; [apply well_formed_line; [now right | exact Hno]|].
    exists (String tag fr). rewrite proto_facts.app_cons, <- Hin.
    split; [reflexivity | split; [cbn; lia|]].
    intros [|fuel'] rest' Hfuel; [cbn in Hfuel; lia|].
    rewrite proto_facts.app_cons, proto_facts.Read_tag, H1, H2.
    unfold readError. now rewrite Hre. }
  destruct (Ascii.eqb tag Integer) eqn:H3.
  { unfold readInteger.
    destruct (readLine input) as [[line r]|e] eqn:Hl; cbn [mbind result_bind];
      [|discriminate].
    destruct (strconv.ParseInt line) as [val|] eqn:Hval; [|discriminate].
    intros [= <- <-]. destruct (readLine_frame input line r Hl) as (Hno & fr & Hin & Hfr & Hre).
    split; [apply well_formed_int, (ParseInt_in_range line val Hval)|].
    exists (String tag fr). rewrite proto_facts.app_cons, <- Hin.
    split; [reflexivity | split; [cbn; lia|]].
    intros [|fuel'] rest' Hfuel; [cbn in Hfuel; lia|].
    rewrite proto_facts.app_cons, proto_facts.Read_tag, H1, H2, H3.
    unfold readInteger. rewrite Hre. cbn [mbind result_bind]. now rewrite Hval. }
  destruct (Ascii.eqb tag BulkString) eqn:H4.
  { intros Hbulk.
    destruct (readBulkString_frame input v rest Hbulk) as (Hwf & Harr & fr & Hin & Hfr & Hre).
    split; [exact Hwf|].
    exists (String tag fr). rewrite proto_facts.app_cons, <- Hin.
    rewrite proto_facts.depth_unfold, Harr.
    split; [reflexivity | split; [cbn; lia|]].
    intros [|fuel'] rest' Hfuel; [cbn in Hfuel; lia|].
    rewrite proto_facts.app_cons, proto_facts.Read_tag, H1, H2, H3, H4. apply Hre. }
  destruct (Ascii.eqb tag Array) eqn:H5; [|discriminate].
  unfold readArray at 1.
  destruct (readLine input) as [[line r1]|e] eqn:Hl; cbn [mbind result_bind];
    [|discriminate].
  destruct (readLine_frame input line r1 Hl) as (_ & fr1 & Hin & Hfr1 & Hre1).
  destruct (strconv.Atoi line) as [len|] eqn:Hatoi; [|discriminate].
  destruct (len =? -1) eqn:Hnull.
  { intros [= <- <-]. split; [reflexivity|].
    exists (String tag fr1). rewrite proto_facts.app_cons, <- Hin.
    split; [reflexivity | split; [cbn; lia|]].
    intros [|fuel'] rest' Hfuel; [cbn in Hfuel; lia|].
    rewrite proto_facts.app_cons, proto_facts.Read_tag, H1, H2, H3, H4, H5.
    unfold readArray. rewrite Hre1. cbn [mbind result_bind]. now rewrite Hatoi, Hnull. }
  destruct (len <? 0) eqn:Hneg; [discriminate|].
  destruct (readArray_loop (Read fuel) (Z.to_nat len) r1) as [[arr r2]|e] eqn:Hloop;
    cbn [mbind result_bind]; [|discriminate].
  intros [= <- <-].
  destruct (readArray_loop_sound fuel IH _ _ _ _ Hloop)
    as (Hlen & Hall & fr2 & Hr1 & Hd & Hre2).
  apply Z.ltb_ge in Hneg.
  pose proof (ParseInt_in_range line len Hatoi) as [_ Hmax].
  split; [apply well_formed_array; [rewrite Hlen; lia | exact Hall]|].
  exists (String tag (fr1 +:+ fr2)). split; [|split].
  - now rewrite proto_facts.app_cons, proto_facts.app_assoc, <- Hr1, <- Hin.
  - rewrite proto_facts.depth_unfold. cbn [Array_ with_array String.length].
    rewrite proto_facts.length_app. lia.
  - intros [|fuel'] rest' Hfuel;
      rewrite proto_facts.depth_unfold in Hfuel; cbn [Array_ with_array] in Hfuel;
      [lia|].
    rewrite proto_facts.app_cons, proto_facts.Read_tag, H1, H2, H3, H4, H5.
    unfold readArray. rewrite proto_facts.app_assoc, Hre1. cbn [mbind result_bind].
    rewrite Hatoi, Hnull. apply Z.ltb_ge in Hneg. rewrite Hneg.
    rewrite Hre2 by lia. reflexivity.
Qed.

Lemma parse_frame (input : string) (v : RESPValue) (rest : string) :
  parse input = Ok (v, rest) ->
  exists frame,
    input = frame +:+ rest
    /\ frame <> EmptyString
    /\ forall rest', parse (frame +:+ rest') = Ok (v, rest').
Proof.
  intros H. destruct (Read_sound _ _ _ _ H) as (_ & frame & Hin & Hd & Hre).
  exists frame. rewrite proto_facts.depth_unfold in Hd.
  split; [exact Hin | split].
  - intros ->. cbn in Hd. lia.
  - intros rest'. apply Hre. rewrite proto_facts.depth_unfold, proto_facts.length_app. lia.
Qed.

Lemma parse_serialize (v : RESPValue) (rest : string) :
  well_formed v -> parse (serialize v +:+ rest) = Ok (v, rest).
Proof.
  intros Hwf. destruct (proto_facts.Read_WriteValue v Hwf) as (_ & Hd & Hre).
  apply Hre. rewrite proto_facts.length_app. lia.
Qed.

(** X10. Whatever [Read] returns is well-formed: it is one of the five
    arms with the other fields at zero, its line holds no line feed, its
    integer and lengths are in range. So [WriteValue] writes it without an
    error, and reading those bytes gives the same value back. *)
Theorem parse_yields_a_canonical_value (input : string) (v : RESPValue)
    (rest : string) :
  parse input = Ok (v, rest) ->
  well_formed v
  /\ snd (WriteValue v) = None
  /\ parse (serialize v) = Ok (v, EmptyString).
Proof.
  intros H. destruct (Read_sound _ _ _ _ H) as (Hwf & _).
  split; [exact Hwf | split].
  - apply (proto_facts.Read_WriteValue v Hwf).
  - rewrite <- (proto_facts.app_nil_r (serialize v)). now apply parse_serialize.
Qed.

Lemma parse_yields_a_canonical_value_witness :
  well_formed (with_int Integer 7)
  /\ snd (WriteValue (with_int Integer 7)) = None
  /\ parse (serialize (with_int Integer 7)) = Ok (with_int Integer 7, EmptyString).
Proof.
  exact (parse_yields_a_canonical_value ":+007
+OK" (with_int Integer 7) "+OK" ltac:(vm_compute; reflexivity)).
Defined.

(** X11. [Read] consumes a non-empty prefix of the input and leaves the
    rest untouched; the value depends on the consumed bytes alone: the same
    prefix followed by any other bytes reads as the same value and leaves
    those bytes. *)
Theorem parse_reads_one_frame (input : string) (v : RESPValue) (rest : string) :
  parse input = Ok (v, rest) ->
  (String.length rest < String.length input)%nat
  /\ exists frame,
       input = frame +:+ rest
       /\ forall rest', parse (frame +:+ rest') = Ok (v, rest').
Proof.
  intros H. destruct (parse_frame input v rest H) as (frame & Hin & Hne & Hre).
  split; [exact (proto_facts.Read_shorter _ _ _ _ H)|].
  exists frame. now split.
Qed.

Lemma parse_reads_one_frame_witness :
  (String.length "+OK" < String.length ":+007
+OK")%nat
  /\ exists frame,
       ":+007
+OK" = frame +:+ "+OK"
       /\ forall rest', parse (frame +:+ rest') = Ok (with_int Integer 7, rest').
Proof.
  exact (parse_reads_one_frame ":+007
+OK" (with_int Integer 7) "+OK" ltac:(vm_compute; reflexivity)).
Defined.

Lemma app_inv_empty (a b : string) : a +:+ b = EmptyString -> b = EmptyString.
Proof. destruct a; [now rewrite proto_facts.app_nil_l | discriminate]. Qed.

(** X12. A frame cut short is never taken for a value: [Read] fails on
    every proper prefix of the serialisation of a well-formed value. *)
Theorem truncated_frame_is_no_value (v : RESPValue) (sent lost : string) :
  well_formed v ->
  serialize v = sent +:+ lost ->
  lost <> EmptyString ->
  exists e, parse sent = Err e.
Proof.
  intros Hwf Hcut Hlost.
  destruct (parse sent) as [[v' rest']|e] eqn:Hsent; [|now exists e].
  exfalso. destruct (parse_frame sent v' rest' Hsent) as (frame & Hin & _ & Hre).
  pose proof (parse_serialize v EmptyString Hwf) as Hfull.
  rewrite proto_facts.app_nil_r, Hcut, Hin, proto_facts.app_assoc, Hre in Hfull.
  injection Hfull as _ Hrest. apply app_inv_empty in Hrest. contradiction.
Qed.

Lemma truncated_frame_is_no_value_witness :
  exists e, parse ("$3" +:+ CRLF +:+ "fo") = Err e.
Proof.
  apply (truncated_frame_is_no_value (with_string BulkString "foo")
           ("$3" +:+ CRLF +:+ "fo") ("o" +:+ CRLF)).
  - vm_compute. reflexivity.
  - vm_compute. reflexivity.
  - discriminate.
Defined.

(** X23. The encoding is unambiguous: when two well-formed values, each
    followed by any bytes, are written as the same bytes, the values are
    equal and so are the bytes after them. In particular no serialisation is
    a proper prefix of another. *)
Theorem serialize_is_unambiguous (v w : RESPValue) (after_v after_w : string) :
  well_formed v ->
  well_formed w ->
  serialize v +:+ after_v = serialize w +:+ after_w ->
  v = w /\ after_v = after_w.
Proof.
  intros Hv Hw Heq.
  pose proof (parse_serialize v after_v Hv) as Hpv.
  rewrite Heq, (parse_serialize w after_w Hw) in Hpv.
  injection Hpv as -> ->. now split.
Qed.

Lemma serialize_is_unambiguous_witness :
  with_string BulkString "foo" = with_string BulkString "foo"
  /\ "+OK" = "+OK".
Proof.
  exact (serialize_is_unambiguous (with_string BulkString "foo")
           (with_string BulkString "foo") "+OK" "+OK"
           ltac:(vm_compute; reflexivity) ltac:(vm_compute; reflexivity)
           ltac:(reflexivity)).
Defined.

End codec_laws.

(** ** From a value to a command *)

Module command_laws.

Import proto store server trace wire gostrings proto_command dispatcher laws.

Lemma is_string_bulk (words : list string) :
  forallb is_string (map (with_string BulkString) words) = true.
Proof. induction words as [|w l IH]; [reflexivity | exact IH]. Qed.

Lemma String__bulk (words : list string) :
  map String_ (map (with_string BulkString) words) = words.
Proof. induction words as [|w l IH]; [reflexivity | cbn; now rewrite IH]. Qed.

Lemma ToStringArray_loop_strings (arr : list RESPValue) :
  forall i,
    forallb is_string arr = true ->
    ToStringArray_loop i arr = Ok (map String_ arr).
Proof.
  induction arr as [|val rest IH]; intros i; [reflexivity|].
  cbn [forallb ToStringArray_loop map]. intros [Hval Hrest]%andb_prop.
  unfold is_string in Hval. rewrite Hval, (IH (i + 1) Hrest). reflexivity.
Qed.

Lemma ToStringArray_loop_rejects (before : list RESPValue) :
  forall (i : Z) (val : RESPValue) (after : list RESPValue),
    forallb is_string before = true ->
    is_string val = false ->
    ToStringArray_loop i (before ++ val :: after)
    = Err (Errorf ("array element "
                   +:+ strconv.FormatInt (i + Z.of_nat (length before))
                   +:+ " is not a string")).
Proof.
  induction before as [|b before IH]; intros i val after Hbefore Hval.
  - cbn [app ToStringArray_loop length]. unfold is_string in Hval. rewrite Hval.
    now rewrite Z.add_0_r.
  - cbn [forallb] in Hbefore. apply andb_prop in Hbefore as [Hb Hbefore].
    cbn [app ToStringArray_loop]. unfold is_string in Hb. rewrite Hb.
    rewrite (IH (i + 1) val after Hbefore Hval). cbn [mbind result_bind length].
    replace (i + 1 + Z.of_nat (length before)) with (i + Z.of_nat (S (length before)))
      by lia.
    reflexivity.
Qed.

Lemma ToStringArray_loop_inv (arr : list RESPValue) :
  forall i strs,
    ToStringArray_loop i arr = Ok strs ->
    forallb is_string arr = true /\ strs = map String_ arr.
Proof.
  induction arr as [|val rest IH]; intros i strs; cbn [ToStringArray_loop].
  - intros [= <-]. now split.
  - destruct (is_string val) eqn:Hval; unfold is_string in Hval; rewrite Hval;
      [|discriminate].
    destruct (ToStringArray_loop (i + 1) rest) as [strs'|e] eqn:Hrest;
      cbn [mbind result_bind]; [|discriminate].
    intros [= <-]. destruct (IH _ _ Hrest) as [Hall ->]. split; [|reflexivity].
    cbn [forallb]. unfold is_string at 1. now rewrite Hval.
Qed.

Section with_unicode.
Variable upper : string -> string.

Lemma ToCommand_command (name : string) (args : list string) :
  ToCommand upper (command (name :: args)) = Ok (ToUpper upper name, args).
Proof.
  unfold ToCommand, ToStringArray, command, with_array.
  cbn [Type_ Null_ Array_]. change (negb (Ascii.eqb Array Array)) with false.
  cbv iota. rewrite ToStringArray_loop_strings by apply is_string_bulk.
  rewrite String__bulk. reflexivity.
Qed.

(** X13. [ToCommand] accepts the non-null, non-empty arrays whose
    elements are non-null bulk strings or simple strings, and nothing else:
    the command is the first string in upper case, the arguments are the
    other strings in order. A value that is no array is refused as such, a null or empty array
    as an empty command, and the first element that is no string is named by
    its index. *)
Theorem ToCommand_reads_an_array_of_strings (v : RESPValue) :
  (forall name args,
      ToCommand upper (command (name :: args)) = Ok (ToUpper upper name, args))
  /\ (forall first rest,
        Type_ v = Array -> Null_ v = false ->
        Array_ v = first :: rest -> forallb is_string (Array_ v) = true ->
        ToCommand upper v = Ok (ToUpper upper (String_ first), map String_ rest))
  /\ (forall cmd args,
        ToCommand upper v = Ok (cmd, args) ->
        Type_ v = Array /\ Null_ v = false /\ forallb is_string (Array_ v) = true
        /\ exists first rest,
             Array_ v = first :: rest
             /\ cmd = ToUpper upper (String_ first) /\ args = map String_ rest)
  /\ (Type_ v <> Array -> ToCommand upper v = Err (Errorf "value is not an array"))
  /\ (Type_ v = Array -> Null_ v = true \/ Array_ v = [] ->
      ToCommand upper v = Err (Errorf "empty command"))
  /\ (forall before val after,
        Type_ v = Array -> Null_ v = false ->
        Array_ v = before ++ val :: after ->
        forallb is_string before = true -> is_string val = false ->
        ToCommand upper v
        = Err (Errorf ("array element " +:+ strconv.FormatInt (Z.of_nat (length before))
                       +:+ " is not a string"))).
Proof.
  split; [exact ToCommand_command|]. unfold ToCommand, ToStringArray.
  split; [|split; [|split; [|split]]].
  - intros first rest Hty%Ascii.eqb_eq Hnull Harr Hall. rewrite Hty, Hnull. cbn [negb].
    rewrite (ToStringArray_loop_strings _ 0 Hall), Harr. reflexivity.
  - intros cmd args.
    destruct (Ascii.eqb (Type_ v) Array) eqn:Hty; cbn [negb mbind result_bind];
      [|discriminate].
    apply Ascii.eqb_eq in Hty.
    destruct (Null_ v); cbn [mbind result_bind]; [discriminate|].
    destruct (ToStringArray_loop 0 (Array_ v)) as [strs|e] eqn:Hloop;
      cbn [mbind result_bind]; [|discriminate].
    destruct (ToStringArray_loop_inv _ _ _ Hloop) as [Hall ->].
    destruct (Array_ v) as [|first rest]; [discriminate|].
    intros [= <- <-]. repeat split; try assumption. now exists first, rest.
  - intros Hty. apply Ascii.eqb_neq in Hty. now rewrite Hty.
  - intros Hty%Ascii.eqb_eq Hempty. rewrite Hty. cbn [negb].
    destruct Hempty as [Hnull | Harr];
      [rewrite Hnull | rewrite Harr; destruct (Null_ v)]; reflexivity.
  - intros before val after Hty%Ascii.eqb_eq -> -> Hbefore Hval. rewrite Hty. cbn [negb].
    now rewrite (ToStringArray_loop_rejects before 0 val after Hbefore Hval).
Qed.

End with_unicode.

End command_laws.

(** ** The dispatcher, the handlers and the connection loop *)

Module dispatch_laws.

Import proto store server trace wire gostrings proto_command dispatcher laws.

Lemma writable_hist (history : list Value) :
  writable (with_array Array (hist_result history)).
Proof.
  unfold writable. rewrite proto_facts.WriteValue_Array. cbn [snd].
  induction history as [|v l IH]; [reflexivity|].
  cbn [hist_result write_elements].
  change (WriteValue (with_int Integer (Timestamp v)))
    with (WriteInteger (Timestamp v)).
  change (WriteValue (with_string BulkString (Data v)))
    with (WriteBulkString (Data v)).
  unfold WriteInteger, WriteBulkString.
  destruct (write_elements (hist_result l)) as [out err]. exact IH.
Qed.

Lemma write_elements_failure (before : list RESPValue) (bad : RESPValue)
    (after : list RESPValue) (e : error) :
  Forall writable before ->
  snd (WriteValue bad) = Some e ->
  write_elements (before ++ bad :: after)
  = (frames before +:+ fst (WriteValue bad), Some e).
Proof.
  intros Hbefore Hbad. induction Hbefore as [|v rest Hv _ IH].
  - cbn [app write_elements frames]. rewrite proto_facts.app_nil_l.
    destruct (WriteValue bad) as [out err]. cbn [fst snd] in *. now rewrite Hbad.
  - cbn [app write_elements frames]. rewrite IH. unfold writable in Hv.
    unfold serialize. destruct (WriteValue v) as [out err]. cbn [fst snd] in *.
    rewrite Hv. now rewrite proto_facts.app_assoc.
Qed.

(** X25. [WriteValue] on an array writes the header with the full
    length and then the elements in order, and stops at the first element
    that fails: the elements before it are on the wire, nothing after it is
    written, and its error is the result. *)
Theorem WriteValue_stops_at_the_first_failure (before : list RESPValue)
    (bad : RESPValue) (after : list RESPValue) (e : error) :
  Forall writable before ->
  snd (WriteValue bad) = Some e ->
  WriteValue (with_array Array (before ++ bad :: after))
  = (String "*"
       (strconv.FormatInt (Z.of_nat (length (before ++ bad :: after))) +:+ CRLF
        +:+ frames before +:+ fst (WriteValue bad)),
     Some e).
Proof.
  intros Hbefore Hbad.
  now rewrite proto_facts.WriteValue_Array,
    (write_elements_failure before bad after e Hbefore Hbad).
Qed.

Lemma WriteValue_stops_at_the_first_failure_witness :
  WriteValue (with_array Array ([with_int Integer 1] ++ with_int "?"%char 2 :: [with_int Integer 3]))
  = (String "*"
       (strconv.FormatInt
          (Z.of_nat (length ([with_int Integer 1] ++ with_int "?"%char 2 :: [with_int Integer 3])))
        +:+ CRLF +:+ frames [with_int Integer 1] +:+ fst (WriteValue (with_int "?"%char 2))),
     Some (Errorf "unknown RESP type: ?")).
Proof.
  exact (WriteValue_stops_at_the_first_failure [with_int Integer 1] (with_int "?"%char 2)
           [with_int Integer 3] (Errorf "unknown RESP type: ?")
           ltac:(repeat constructor) ltac:(reflexivity)).
Defined.



Lemma isASCII_map_upper (s : string) :
  isASCII s = true ->
  isASCII (map_bytes upper_byte s) = true
  /\ map_bytes upper_byte (map_bytes upper_byte s) = map_bytes upper_byte s.
Proof.
  induction s as [|c s IH]; [now split|]. cbn [isASCII map_bytes].
  intros [Hc Hs]%andb_prop. destruct (IH Hs) as [IH1 IH2]. rewrite IH1, IH2.
  assert (Hbyte : (N_of_ascii (upper_byte c) <? 128)%N = true
                  /\ upper_byte (upper_byte c) = upper_byte c).
  { clear -Hc. apply N.ltb_lt in Hc. unfold upper_byte.
    destruct ((97 <=? N_of_ascii c)%N && (N_of_ascii c <=? 122)%N) eqn:Hlow.
    - apply andb_prop in Hlow as [Hlo%N.leb_le Hhi%N.leb_le].
      assert (Hn : N_of_ascii (ascii_of_N (N_of_ascii c - 32)) = (N_of_ascii c - 32)%N)
        by (apply N_ascii_embedding; lia).
      rewrite Hn. split; [apply N.ltb_lt; lia|].
      destruct (N.leb_spec 97 (N_of_ascii c - 32)); [lia | reflexivity].
    - rewrite Hlow. split; [now apply N.ltb_lt | reflexivity]. }
  destruct Hbyte as [-> ->]. now split.
Qed.

Lemma Delete_result (s : Store) (key : string) :
  snd (Store_Delete s key) = stored s key.
Proof.
  unfold Store_Delete, stored, lookup_chain.
  now destruct (data (getShard s key) !! key).
Qed.

Lemma stored_after_Delete (s : Store) (key k : string) :
  k <> key -> stored (fst (Store_Delete s key)) k = stored s k.
Proof.
  intros Hne. unfold stored. rewrite store_facts.lookup_chain_Delete.
  now rewrite decide_False by exact Hne.
Qed.

Lemma filter_agree {A : Type} (P Q : A -> Prop)
    `{!forall x, Decision (P x)} `{!forall x, Decision (Q x)} (l : list A) :
  Forall (fun x => P x <-> Q x) l -> filter P l = filter Q l.
Proof.
  induction 1 as [|x l Hx _ IH]; [reflexivity|].
  rewrite !filter_cons, IH.
  destruct (decide (P x)), (decide (Q x)); tauto.
Qed.

Lemma handleDel_fold (keys : list string) :
  forall (s : Store) (deleted : Z),
    NoDup keys ->
    0 <= deleted -> deleted + Z.of_nat (length keys) <= int64.max ->
    let r := fold_left handleDel_step keys (s, deleted) in
    snd r = deleted + Z.of_nat (length (filter (fun k => stored s k = true) keys))
    /\ forall k, lookup_chain (fst r) k
                 = if decide (k ∈ keys) then None else lookup_chain s k.
Proof.
  induction keys as [|key rest IH]; intros s deleted Hnodup Hlo Hhi; cbn zeta.
  - cbn. split; [lia|]. intros k. rewrite decide_False by apply not_elem_of_nil.
    reflexivity.
  - apply NoDup_cons in Hnodup as [Hnotin Hnodup]. cbn [length] in Hhi.
    cbn [fold_left].
    assert (Hstep : handleDel_step (s, deleted) key
                    = (fst (Store_Delete s key),
                       if stored s key then int64.add deleted 1 else deleted)).
    { unfold handleDel_step. rewrite <- Delete_result.
      destruct (Store_Delete s key) as [s' []]; reflexivity. }
    rewrite Hstep. clear Hstep.
    assert (Hfilter : filter (fun k => stored (fst (Store_Delete s key)) k = true) rest
                      = filter (fun k => stored s k = true) rest).
    { apply filter_agree, Forall_forall. intros k Hk.
      rewrite stored_after_Delete; [reflexivity|]. intros ->. contradiction. }
    assert (Hchain : forall k r,
               (forall k, lookup_chain r k
                          = if decide (k ∈ rest) then None
                            else lookup_chain (fst (Store_Delete s key)) k) ->
               lookup_chain r k
               = if decide (k ∈ key :: rest) then None else lookup_chain s k).
    { intros k r Hr. rewrite Hr, store_facts.lookup_chain_Delete.
      destruct (decide (k ∈ rest)) as [Hin|Hout].
      - rewrite decide_True by (apply elem_of_cons; now right). reflexivity.
      - destruct (decide (k = key)) as [->|Hne].
        + rewrite decide_True by (apply elem_of_cons; now left). reflexivity.
        + rewrite decide_False; [reflexivity|].
          intros [?|?]%elem_of_cons; contradiction. }
    destruct (stored s key) eqn:Hok.
    + assert (Hadd : int64.add deleted 1 = deleted + 1).
      { apply int64_facts.wrap64_id. unfold int64.in_range, int64.min, int64.max in *.
        lia. }
      rewrite Hadd.
      destruct (IH (fst (Store_Delete s key)) (deleted + 1) Hnodup ltac:(lia) ltac:(lia))
        as [Hcount Hrest].
      split; [|intros k; now apply Hchain].
      rewrite Hcount, Hfilter. rewrite filter_cons_True by exact Hok.
      cbn [length]. lia.
    + destruct (IH (fst (Store_Delete s key)) deleted Hnodup Hlo ltac:(lia))
        as [Hcount Hrest].
      split; [|intros k; now apply Hchain].
      rewrite Hcount, Hfilter. rewrite filter_cons_False; [reflexivity|].
      cbn. rewrite Hok. discriminate.
Qed.

(** X17. DEL of distinct keys answers the number of them that were
    stored, removes all of them and leaves every other key as it was. *)
Theorem DEL_counts_the_stored_keys (s : Store) (keys : list string) :
  keys <> [] ->
  NoDup keys ->
  Z.of_nat (length keys) <= int64.max ->
  snd (handleDel s keys)
  = with_int Integer (Z.of_nat (length (filter (fun k => stored s k = true) keys)))
  /\ forall k,
       lookup_chain (fst (handleDel s keys)) k
       = if decide (k ∈ keys) then None else lookup_chain s k.
Proof.
  intros Hne Hnodup Hlen.
  destruct (handleDel_fold keys s 0 Hnodup ltac:(lia) ltac:(lia)) as [Hcount Hchain].
  unfold handleDel. destruct keys as [|key rest]; [contradiction|].
  destruct (fold_left handleDel_step (key :: rest) (s, 0)) as [s' deleted].
  cbn [fst snd] in *. rewrite Hcount. split; [reflexivity | exact Hchain].
Qed.

Lemma DEL_counts_the_stored_keys_witness :
  snd (handleDel (Store_Set NewStore 5 "a" "x" 0) ["a"; "b"])
  = with_int Integer
      (Z.of_nat (length (filter (fun k => stored (Store_Set NewStore 5 "a" "x" 0) k = true)
                           ["a"; "b"])))
  /\ forall k,
       lookup_chain (fst (handleDel (Store_Set NewStore 5 "a" "x" 0) ["a"; "b"])) k
       = if decide (k ∈ ["a"; "b"]) then None
         else lookup_chain (Store_Set NewStore 5 "a" "x" 0) k.
Proof.
  exact (DEL_counts_the_stored_keys (Store_Set NewStore 5 "a" "x" 0) ["a"; "b"]
           ltac:(discriminate) ltac:(apply (bool_decide_unpack _); vm_compute; exact I)
           ltac:(now vm_compute)).
Defined.

Section with_unicode.
Variable upper : string -> string.

Lemma ToUpper_idempotent (name : string) :
  isASCII name = true -> ToUpper upper (ToUpper upper name) = ToUpper upper name.
Proof.
  intros H. unfold ToUpper. rewrite H.
  destruct (isASCII_map_upper name H) as [-> ->]. reflexivity.
Qed.

Lemma Dispatch_command (s : Store) (now : Z) (name : string) (args : list string) :
  Dispatch upper s now (command (name :: args)) =
  match commands upper (ToUpper upper name) with
  | None =>
      (s, with_string Error ("ERR unknown command '" +:+ ToUpper upper name +:+ "'"))
  | Some handler => handler s now args
  end.
Proof. unfold Dispatch. now rewrite command_laws.ToCommand_command. Qed.

(** X14. Command names are matched without regard to ASCII case: an
    all-ASCII name is dispatched as its upper-case spelling, with the same
    arguments, store and response. *)
Theorem command_names_ignore_ASCII_case (s : Store) (now : Z) (name : string)
    (args : list string) :
  isASCII name = true ->
  Dispatch upper s now (command (name :: args))
  = Dispatch upper s now (command (ToUpper upper name :: args)).
Proof.
  intros H. now rewrite !Dispatch_command, (ToUpper_idempotent name H).
Qed.

Lemma handleSet_options_cases (n : nat) :
  forall opts acc,
    (length opts <= n)%nat ->
    match handleSet_options upper opts acc with
    | inl r => Type_ r = Error /\ writable r
    | inr ttlMs => Nat.Even (length opts) /\ (opts = [] -> ttlMs = acc)
    end.
Proof.
  induction n as [|n IH]; intros opts acc Hn.
  - destruct opts; [|cbn in Hn; lia]. cbn. split; [now exists O | reflexivity].
  - destruct opts as [|opt [|digits rest]].
    + cbn. split; [now exists O | reflexivity].
    + cbn. now split.
    + cbn [handleSet_options]. cbn [length] in Hn.
      assert (Hnext : forall acc',
                 match handleSet_options upper rest acc' with
                 | inl r => Type_ r = Error /\ writable r
                 | inr ttlMs =>
                     Nat.Even (length (opt :: digits :: rest))
                     /\ (opt :: digits :: rest = [] -> ttlMs = acc)
                 end).
      { intros acc'. specialize (IH rest acc' ltac:(lia)).
        destruct (handleSet_options upper rest acc'); [exact IH|].
        destruct IH as [[m Hm] _]. split; [|discriminate].
        exists (S m). cbn [length]. lia. }
      destruct (String.eqb (ToUpper upper opt) "PX").
      { destruct (strconv.ParseInt digits) as [ttl|]; [|now split].
        destruct (ttl <=? 0); [now split | apply Hnext]. }
      destruct (String.eqb (ToUpper upper opt) "EX").
      { destruct (strconv.ParseInt digits) as [ttl|]; [|now split].
        destruct (ttl <=? 0); [now split | apply Hnext]. }
      now split.
Qed.

(** X15. [handleSet] checks every option before it writes: either it
    answers an Error and the store is untouched, also when an earlier option
    was valid, or it answers OK after exactly one [Set] of the key and value,
    its options come in pairs, and without options the write has no TTL. *)
Theorem handleSet_all_or_nothing (s : Store) (now : Z) (args : list string) :
  let r := handleSet upper s now args in
  (Type_ (snd r) = Error /\ fst r = s)
  \/ (snd r = OK
      /\ exists key value opts ttlMs,
           args = key :: value :: opts
           /\ Nat.Even (length opts)
           /\ (opts = [] -> ttlMs = 0)
           /\ fst r = Store_Set s now key value ttlMs).
Proof.
  cbn zeta. destruct args as [|key [|value opts]]; [now left | now left |].
  cbn [handleSet].
  pose proof (handleSet_options_cases (length opts) opts 0 ltac:(lia)) as H.
  destruct (handleSet_options upper opts 0) as [r|ttlMs].
  - left. now split.
  - right. split; [reflexivity|]. exists key, value, opts, ttlMs.
    destruct H as [Heven Hnone]. repeat split; assumption.
Qed.

Lemma Dispatch_SET (s : Store) (now : Z) (args : list string) :
  Dispatch upper s now (command ("SET" :: args)) = handleSet upper s now args.
Proof. now rewrite Dispatch_command. Qed.

Lemma Dispatch_GET (s : Store) (now : Z) (args : list string) :
  Dispatch upper s now (command ("GET" :: args)) = (s, handleGet s now args).
Proof. now rewrite Dispatch_command. Qed.

Lemma Dispatch_GETAT (s : Store) (now : Z) (args : list string) :
  Dispatch upper s now (command ("GETAT" :: args)) = (s, handleGetAt s args).
Proof. now rewrite Dispatch_command. Qed.

Lemma handleSet_timed (s : Store) (now : Z) (k v opt digits : string) (n unit : Z) :
  (ToUpper upper opt = "PX" /\ unit = 1) \/ (ToUpper upper opt = "EX" /\ unit = 1000) ->
  strconv.ParseInt digits = Some n ->
  handleSet upper s now [k; v; opt; digits] =
  if n <=? 0 then (s, with_string Error "ERR invalid expire time in 'set' command")
  else (Store_Set s now k v (if unit =? 1 then n else int64.mul n 1000), OK).
Proof.
  intros Hopt Hn. cbn [handleSet handleSet_options].
  destruct Hopt as [[-> ->] | [-> ->]]; cbn [String.eqb Ascii.eqb Bool.eqb];
    rewrite Hn; destruct (n <=? 0); reflexivity.
Qed.


(** X24. SET with EX multiplies the seconds by 1000 in [int64]
    without a check: when the product wraps to zero or below, the command is
    accepted with OK and the key is stored without an expiry, so that [Get]
    returns it at every later reading and [TTL] returns -1. *)
Theorem SET_EX_overflow_stores_without_expiry (s : Store) (now now' : Z)
    (k v digits : string) (n : Z) :
  strconv.ParseInt digits = Some n ->
  0 < n ->
  int64.mul n 1000 <= 0 ->
  now <= now' ->
  let set := Dispatch upper s now (command ["SET"; k; v; "EX"; digits]) in
  set = (Store_Set s now k v (int64.mul n 1000), OK)
  /\ Store_Get (fst set) now' k = Some v
  /\ Store_TTL (fst set) now' k = -1.
Proof.
  intros Hn Hpos Hwrap Hnow. cbn zeta.
  rewrite Dispatch_SET, (handleSet_timed s now k v "EX" digits n 1000
                           (or_intror (conj eq_refl eq_refl)) Hn).
  destruct (Z.leb_spec n 0); [lia|]. cbn [Z.eqb Pos.eqb fst].
  split; [reflexivity|].
  destruct (store_laws.Set_read s now k v (int64.mul n 1000) now' Hnow) as [Hnone _].
  exact (Hnone Hwrap).
Qed.

(** X18. GETAT with a timestamp answers what GET answers when the clock
    reads that timestamp, whatever the clock reads now. *)
Theorem GETAT_answers_as_GET_at_that_time (s : Store) (now : Z) (k : string) (ts : Z) :
  int64.in_range ts ->
  Dispatch upper s now (command ["GETAT"; k; strconv.FormatInt ts])
  = Dispatch upper s ts (command ["GET"; k]).
Proof.
  intros Hts. rewrite Dispatch_GETAT, Dispatch_GET.
  unfold handleGetAt, handleGet, Store_Get.
  now rewrite (strconv_facts.ParseInt_FormatInt ts Hts).
Qed.

Lemma handleSet_writable (s : Store) (now : Z) (args : list string) :
  writable (snd (handleSet upper s now args)).
Proof.
  destruct args as [|key [|value opts]]; [reflexivity | reflexivity |].
  cbn [handleSet].
  pose proof (handleSet_options_cases (length opts) opts 0 ltac:(lia)) as H.
  destruct (handleSet_options upper opts 0) as [r|ttlMs]; [apply H | reflexivity].
Qed.

Lemma commands_writable (cmd : string) (handler : CommandHandler) (s : Store)
    (now : Z) (args : list string) :
  commands upper cmd = Some handler -> writable (snd (handler s now args)).
Proof.
  unfold commands.
  destruct (String.eqb cmd "PING").
  { intros [= <-]. cbn [snd]. now destruct args as [|a [|b l]]. }
  destruct (String.eqb cmd "SET").
  { intros [= <-]. apply handleSet_writable. }
  destruct (String.eqb cmd "GET").
  { intros [= <-]. cbn [snd]. unfold handleGet.
    destruct args as [|key [|? ?]]; try reflexivity.
    now destruct (Store_Get s now key). }
  destruct (String.eqb cmd "DEL").
  { intros [= <-]. unfold handleDel. destruct args as [|key rest]; [reflexivity|].
    now destruct (fold_left handleDel_step (key :: rest) (s, 0)). }
  destruct (String.eqb cmd "EXPIRE").
  { intros [= <-]. unfold handleExpire.
    destruct args as [|key [|seconds [|? ?]]]; try reflexivity.
    destruct (strconv.ParseInt seconds) as [ttl|]; [|reflexivity].
    now destruct (Store_Expire s now key (int64.mul ttl 1000)) as [s' []]. }
  destruct (String.eqb cmd "TTL").
  { intros [= <-]. cbn [snd]. unfold handleTTL.
    now destruct args as [|key [|? ?]]. }
  destruct (String.eqb cmd "GETAT").
  { intros [= <-]. cbn [snd]. unfold handleGetAt.
    destruct args as [|key [|ts [|? ?]]]; try reflexivity.
    destruct (strconv.ParseInt ts) as [timestamp|]; [|reflexivity].
    now destruct (Store_GetAt s key timestamp). }
  destruct (String.eqb cmd "HIST"); [|discriminate].
  intros [= <-]. cbn [snd]. unfold handleHist.
  destruct args as [|key [|limit [|? ?]]]; try reflexivity.
  - apply writable_hist.
  - destruct (strconv.Atoi limit) as [n|]; [|reflexivity].
    destruct (n <? 0); [reflexivity | apply writable_hist].
Qed.

Lemma Dispatch_writable (s : Store) (now : Z) (value : RESPValue) :
  writable (snd (Dispatch upper s now value)).
Proof.
  unfold Dispatch. destruct (ToCommand upper value) as [[cmd args]|err]; [|reflexivity].
  destruct (commands upper cmd) as [handler|] eqn:Hcmd; [|reflexivity].
  now apply (commands_writable cmd).
Qed.

(** X26. Whatever value arrives, [Dispatch] answers with a value that
    [WriteValue] writes without an error (one of the five types, also inside
    the array of HIST): the connection loop never ends on its own response. *)
Theorem Dispatch_answers_a_writable_value (s : Store) (now : Z) (value : RESPValue) :
  snd (WriteValue (snd (Dispatch upper s now value))) = None.
Proof. exact (Dispatch_writable s now value). Qed.


(** The bound of [HandleConnection] is never what ends the loop: any
    higher bound gives the same result, and the result is never
    [bound_reached]. *)
Lemma HandleConnection_bound_not_reached (clock : nat -> Z) (fuel : nat) :
  forall fuel' i s input,
    (String.length input < fuel)%nat -> (String.length input < fuel')%nat ->
    HandleConnection_loop upper fuel clock i s input
    = HandleConnection_loop upper fuel' clock i s input.
Proof.
  induction fuel as [|fuel IH]; intros fuel' i s input Hfuel Hfuel'; [lia|].
  destruct fuel' as [|fuel']; [lia|]. cbn [HandleConnection_loop].
  destruct (parse input) as [[value rest]|e] eqn:Hparse; [|reflexivity].
  apply proto_facts.Read_shorter in Hparse.
  destruct (Dispatch upper s (clock i) value) as [s' response].
  destruct (WriteValue response) as [out [err|]]; [reflexivity|].
  now rewrite (IH fuel' (S i) s' rest) by lia.
Qed.

Lemma HandleConnection_ends (clock : nat -> Z) (fuel : nat) :
  forall i s input,
    (String.length input < fuel)%nat ->
    snd (HandleConnection_loop upper fuel clock i s input) <> bound_reached.
Proof.
  induction fuel as [|fuel IH]; intros i s input Hfuel; [lia|].
  cbn [HandleConnection_loop].
  pose proof (proto_facts.parse_bound_not_reached input) as Hbound.
  destruct (parse input) as [[value rest]|e] eqn:Hparse.
  - apply proto_facts.Read_shorter in Hparse.
    destruct (Dispatch upper s (clock i) value) as [s' response].
    destruct (WriteValue response) as [out [err|]]; [discriminate|].
    specialize (IH (S i) s' rest ltac:(lia)).
    now destruct (HandleConnection_loop upper fuel clock (S i) s' rest) as [[s'' out'] how].
  - destruct e; try discriminate. congruence.
Qed.



End with_unicode.


Lemma SET_EX_overflow_stores_without_expiry_witness :
  let set := Dispatch (fun name => name) NewStore 5
               (command ["SET"; "k"; "v"; "EX"; "9223372036854775807"]) in
  set = (Store_Set NewStore 5 "k" "v" (int64.mul 9223372036854775807 1000), OK)
  /\ Store_Get (fst set) 6 "k" = Some "v"
  /\ Store_TTL (fst set) 6 "k" = -1.
Proof.
  exact (SET_EX_overflow_stores_without_expiry (fun name => name) NewStore 5 6
           "k" "v" "9223372036854775807" 9223372036854775807
           ltac:(vm_compute; reflexivity) ltac:(lia) ltac:(now vm_compute) ltac:(lia)).
Defined.

Lemma GETAT_answers_as_GET_at_that_time_witness :
  Dispatch (fun name => name) (Store_Set NewStore 5 "k" "v" 0) 9
    (command ["GETAT"; "k"; strconv.FormatInt 7])
  = Dispatch (fun name => name) (Store_Set NewStore 5 "k" "v" 0) 7 (command ["GET"; "k"]).
Proof.
  exact (GETAT_answers_as_GET_at_that_time (fun name => name)
           (Store_Set NewStore 5 "k" "v" 0) 9 "k" 7 ltac:(now vm_compute)).
Defined.


Lemma command_names_ignore_ASCII_case_witness :
  Dispatch (fun name => name) (Store_Set NewStore 5 "k" "v" 0) 6 (command ["gEt"; "k"])
  = Dispatch (fun name => name) (Store_Set NewStore 5 "k" "v" 0) 6
      (command [ToUpper (fun name => name) "gEt"; "k"]).
Proof.
  exact (command_names_ignore_ASCII_case (fun name => name)
           (Store_Set NewStore 5 "k" "v" 0) 6 "gEt" ["k"] ltac:(reflexivity)).
Defined.

End dispatch_laws.

(** ** Statistics *)

Module stats_laws.

Import store trace laws store_stats.

Lemma update_placed (s : Store) (key : string) (m : gmap string KeyHistory)
    (tw : TTLWheel) :
  well_placed s ->
  (forall k history, m !! k = Some history ->
     k = key \/ data (getShard s key) !! k = Some history) ->
  well_placed (update s key {| data := m |} tw).
Proof.
  intros Hs Hm i k history. cbn [update shards].
  destruct (Nat.eqb_spec i (hash key)) as [->|Hne]; [|apply Hs].
  cbn [data]. intros [-> | Hold]%Hm; [reflexivity|].
  exact (Hs _ _ _ Hold).
Qed.

Lemma insert_placed (s : Store) (key : string) (h : KeyHistory) (tw : TTLWheel) :
  well_placed s ->
  well_placed (update s key {| data := <[key := h]> (data (getShard s key)) |} tw).
Proof.
  intros Hs. apply (update_placed s key _ tw Hs). intros k history.
  rewrite lookup_insert_Some. intros [[-> _] | [_ H]]; [now left | now right].
Qed.

Lemma delete_placed (s : Store) (key : string) (tw : TTLWheel) :
  well_placed s ->
  well_placed (update s key {| data := delete key (data (getShard s key)) |} tw).
Proof.
  intros Hs. apply (update_placed s key _ tw Hs). intros k history.
  rewrite lookup_delete_Some. intros [_ H]. now right.
Qed.

Lemma expireKeys_step_placed (now : Z) (s : Store) (key : string) :
  well_placed s -> well_placed (expireKeys_step now s key).
Proof.
  intros Hs. unfold expireKeys_step.
  destruct (data (getShard s key) !! key) as [history|]; [|exact Hs].
  destruct (last (Versions history)) as [latest|]; [|exact Hs].
  destruct ((0 <? TTL latest) && (TTL latest <=? now)); [|exact Hs].
  now apply delete_placed.
Qed.

Lemma step_placed (s : Store) (e : Z * Op) : well_placed s -> well_placed (step s e).
Proof.
  intros Hs. destruct e as [now op]. destruct op; cbn [step]; try exact Hs.
  - unfold Store_Set. now apply insert_placed.
  - unfold Store_Delete. destruct (data (getShard s key) !! key); [|exact Hs].
    now apply delete_placed.
  - unfold Store_Expire. destruct (data (getShard s key) !! key) as [history|];
      [|exact Hs].
    destruct (last (Versions history)); [|exact Hs]. now apply insert_placed.
  - unfold Store_expireKeys.
    destruct (TTLWheel_GetExpired (ttlWheel s) now) as [expiredKeys tw].
    assert (H0 : well_placed {| shards := shards s; ttlWheel := tw |}) by exact Hs.
    revert H0. generalize {| shards := shards s; ttlWheel := tw |}.
    induction expiredKeys as [|key rest IH]; intros s0 H0; [exact H0|].
    cbn [fold_left]. now apply IH, expireKeys_step_placed.
Qed.

Lemma run_placed (es : list (Z * Op)) :
  forall s, well_placed s -> well_placed (run s es).
Proof.
  induction es as [|e rest IH]; intros s Hs; [exact Hs|].
  apply IH, step_placed, Hs.
Qed.

(** The versions of a shard whose chains hold between one and
    [MaxVersions] each. *)
Lemma shard_versions_bounds (m : gmap string KeyHistory) :
  (forall k history, m !! k = Some history ->
     (1 <= length (Versions history) <= MaxVersions)%nat) ->
  (size m <= shard_versions {| data := m |}
   <= MaxVersions * size m)%nat.
Proof.
  unfold shard_versions. cbn [data].
  induction m as [|k history m Hfresh IH] using map_ind; intros Hm.
  - rewrite map_fold_empty, map_size_empty. lia.
  - rewrite map_fold_insert_L; [|intros; lia|exact Hfresh].
    rewrite map_size_insert_None by exact Hfresh.
    pose proof (Hm k history (lookup_insert_eq m k history)) as Hk.
    assert (Hrest : forall k' h', m !! k' = Some h' ->
                      (1 <= length (Versions h') <= MaxVersions)%nat).
    { intros k' h' H'. apply (Hm k'). rewrite lookup_insert_ne; [exact H'|].
      intros ->. congruence. }
    specialize (IH Hrest). unfold MaxVersions in *. lia.
Qed.

Lemma sum_bounds (f g : nat -> nat) (c : nat) (indices : list nat) :
  (forall i, (f i <= g i <= c * f i)%nat) ->
  forall a b, (a <= b <= c * a)%nat ->
    (fold_left (fun total i => (total + f i)%nat) indices a
     <= fold_left (fun total i => (total + g i)%nat) indices b
     <= c * fold_left (fun total i => (total + f i)%nat) indices a)%nat.
Proof.
  intros Hfg. induction indices as [|i rest IH]; intros a b Hab; [exact Hab|].
  cbn [fold_left]. apply IH. specialize (Hfg i). nia.
Qed.

(** X20. In every reachable store [Stats] reports 64 shards and a
    number of versions between the number of keys and [MaxVersions] times
    the number of keys. *)
Theorem Stats_counts_one_to_MaxVersions_per_key (es : list (Z * Op)) :
  let '(total_keys, total_versions, shard_count) := Stats (run NewStore es) in
  (total_keys <= total_versions <= MaxVersions * total_keys)%nat
  /\ shard_count = 64.
Proof.
  unfold Stats. split; [|reflexivity].
  apply (sum_bounds (fun i => size (data (shards (run NewStore es) i)))
           (fun i => shard_versions (shards (run NewStore es) i))); [|lia].
  intros i. destruct (shards (run NewStore es) i) as [m] eqn:Hshard. cbn [data].
  apply shard_versions_bounds. intros k history Hk.
  assert (Hplaced : well_placed (run NewStore es)).
  { apply run_placed. intros i' k' h'. cbn. rewrite lookup_empty. discriminate. }
  assert (Hbounded : chains_bounded (run NewStore es)).
  { apply store_laws.run_bounded. intros k' h'.
    rewrite store_laws.NewStore_no_chain. discriminate. }
  apply (Hbounded k). unfold lookup_chain, getShard.
  rewrite <- (Hplaced i k history); rewrite Hshard; exact Hk.
Qed.

End stats_laws.
